(** * The crawl pipeline and the run comparison engine

    A shallow embedding of the job queue (CrawlerService, the job publisher
    and the job maintenance function), of the scan orchestrator
    (RobustCrawler) with its discovery from sitemaps and its extraction of
    headers, of the pattern matcher, of the breadcrumb extractor, of the run
    comparison hook, of deepMerge and of the archive of websites
    (useWebsites), with the properties the specification states about them
    and further properties that the code has.

    Conventions of the model.
    - The database is an in-memory store: one finite map per table, keyed by
      the row id.  Requests to it succeed; the [error] branches of the
      source that only a failing store reaches are not modelled.  The
      operations run one after the other.
    - Timestamps are integers (milliseconds); a nullable column is an
      [option].  Every clock read of one operation returns the instant the
      operation is given.  The trigger of the jobs table that stamps
      [updated_at] on every updated row is part of the row updates.
    - JavaScript strings are sequences of 8-bit code units and JavaScript
      numbers are integers.
    - The host functions the source calls (the regular expression engine,
      JSON.parse, property reads) are modelled as far as the source uses
      them; each model says where it stops.
    - The network is a function from URLs to what a request returns; a
      request that fails returns nothing. *)

From Stdlib Require Import ZArith Lia Ascii String List Bool.
From stdpp Require Import gmap strings list fin_maps pretty.

Open Scope string_scope.
Open Scope Z_scope.

(** ** The jobs, scans and websites tables *)

Inductive job_status := queued | running | completed | failed | cancelled.

Inductive job_type := discovery | extraction | comparison | cleanup | scan.

Inductive scan_status :=
  scan_running | scan_completed | scan_failed | scan_cancelled.

Inductive discovery_kind := sitemap | crawling.

#[global] Instance job_status_eq_dec : EqDecision job_status.
Proof. solve_decision. Defined.

#[global] Instance scan_status_eq_dec : EqDecision scan_status.
Proof. solve_decision. Defined.

(** The [result] object that processJob stores on completion. *)
Record job_result := JobResult {
  result_scan_id : string;
  result_total_pages : Z;
  result_duration : Z
}.

(** The [metadata] object of a job; its [settings] are read by discovery
    and extraction only, which the model takes from the outside. *)
Record job_metadata := JobMetadata {
  discovery_method : discovery_kind;
  max_pages : Z;
  max_depth : Z
}.

Record job := Job {
  website_id : string;
  type : job_type;
  metadata : job_metadata;
  status : job_status;
  priority : Z;
  progress : Z;
  started_at : option Z;
  completed_at : option Z;
  retry_count : Z;
  max_retries : Z;
  result : option job_result;
  error_message : option string;
  updated_at : Z
}.

Record scan_row := ScanRow {
  scan_website_id : string;
  scan_started_at : Z;
  scan_completed_at : option Z;
  scan_status_of : scan_status;
  total_pages : Z;
  new_pages : Z;
  changed_pages : Z;
  removed_pages : Z;
  error_pages : Z;
  duration : option Z;
  scan_discovery_method : discovery_kind;
  scan_error_message : option string;
  scanned_urls : option (list string)
}.

Record website := Website {
  site_url : string;
  site_last_scan : Z;
  site_total_pages : Z;
  site_new_pages : Z;
  site_changed_pages : Z;
  site_removed_pages : Z
}.

Record DB := Db {
  jobs : gmap string job;
  scans : gmap string scan_row;
  websites : gmap string website
}.

Definition with_jobs (f : gmap string job -> gmap string job) (db : DB) : DB :=
  {| jobs := f (jobs db); scans := scans db; websites := websites db |}.

Definition with_scans (f : gmap string scan_row -> gmap string scan_row)
    (db : DB) : DB :=
  {| jobs := jobs db; scans := f (scans db); websites := websites db |}.

Definition with_websites (f : gmap string website -> gmap string website)
    (db : DB) : DB :=
  {| jobs := jobs db; scans := scans db; websites := f (websites db) |}.

(** JavaScript truthiness of an optional string: defined and not empty. *)
Definition truthy (o : option string) : bool :=
  match o with
  | Some s => negb (String.eqb s "")
  | None => false
  end.

Definition is_set {A} (o : option A) : bool :=
  match o with Some _ => true | None => false end.

(** ** CrawlerService *)

(** [cancelJob]: update ... where id = jobId and status in (queued, running). *)
Definition cancel_row (now : Z) (j : job) : job :=
  match status j with
  | queued | running =>
      {| website_id := website_id j; type := type j;
         metadata := metadata j;
         status := cancelled;
         priority := priority j; progress := progress j;
         started_at := started_at j;
         completed_at := Some now;
         retry_count := retry_count j; max_retries := max_retries j;
         result := result j; error_message := error_message j;
         updated_at := now |}
  | _ => j
  end.

Definition cancelJob (jobId : string) (now : Z) (db : DB) : DB :=
  with_jobs (alter (cancel_row now) jobId) db.

(** [retryFailedJob]: the update of the row, guarded by status = failed. *)
Definition retry_row (current_retry_count : Z) (now : Z) (j : job) : job :=
  match status j with
  | failed =>
      {| website_id := website_id j; type := type j;
         metadata := metadata j;
         status := queued;
         priority := priority j; progress := 0;
         started_at := None;
         completed_at := None;
         retry_count := current_retry_count + 1;
         max_retries := max_retries j;
         result := result j; error_message := None;
         updated_at := now |}
  | _ => j
  end.

(** The promise of [retryFailedJob] either rejects with a message or
    resolves, the database being what the second component says.  The
    first rejection is the one of a job id that has no row. *)
Definition retryFailedJob (jobId : string) (now : Z) (db : DB)
    : (string + unit) * DB :=
  match jobs db !! jobId with
  | None => (inl "Failed to fetch job", db)
  | Some currentJob =>
      if retry_count currentJob >=? max_retries currentJob
      then (inl "Maximum retry attempts exceeded", db)
      else (inr tt,
            with_jobs (alter (retry_row (retry_count currentJob) now) jobId) db)
  end.

(** ** The job publisher: the lease *)

(** The update that [publishJobs] issues for a job it has published:
    where id = job.id and status = queued. *)
Definition lease_row (now : Z) (j : job) : job :=
  match status j with
  | queued =>
      {| website_id := website_id j; type := type j;
         metadata := metadata j;
         status := running;
         priority := priority j; progress := 0;
         started_at := Some now;
         completed_at := completed_at j;
         retry_count := retry_count j; max_retries := max_retries j;
         result := result j; error_message := error_message j;
         updated_at := now |}
  | _ => j
  end.

Definition acquireLease (jobId : string) (now : Z) (db : DB) : DB :=
  with_jobs (alter (lease_row now) jobId) db.

(** ** RobustCrawler.updateJobStatus *)

Definition getJobStartTime (jobId : string) (db : DB) : option Z :=
  match jobs db !! jobId with
  | Some j => started_at j
  | None => None
  end.

(** The update of the row; [startTime] is what getJobStartTime returned. *)
Definition update_status_row (st : job_status) (p : Z)
    (res : option job_result) (errorMessage : option string)
    (now : Z) (startTime : option Z) (j : job) : job :=
  {| website_id := website_id j; type := type j;
     metadata := metadata j;
     status := st;
     priority := priority j;
     progress := p;
     started_at :=
       match st, startTime with
       | running, None => Some now
       | _, _ => started_at j
       end;
     completed_at :=
       match st with
       | completed | failed => Some now
       | _ => completed_at j
       end;
     retry_count := retry_count j; max_retries := max_retries j;
     result := match res with Some r => Some r | None => result j end;
     error_message :=
       if truthy errorMessage then errorMessage else error_message j;
     updated_at := now |}.

Definition updateJobStatus (jobId : string) (st : job_status) (p : Z)
    (res : option job_result) (errorMessage : option string)
    (now : Z) (db : DB) : DB :=
  let startTime := getJobStartTime jobId db in
  with_jobs
    (alter (update_status_row st p res errorMessage now startTime) jobId) db.

(** ** Job maintenance: the reaper *)

Definition two_hours : Z := 2 * 60 * 60 * 1000.
Definition thirty_days : Z := 30 * 24 * 60 * 60 * 1000.

Definition timed_out_message : string := "Job timed out after 2 hours".

Definition is_stuck (twoHoursAgo : Z) (j : job) : bool :=
  match status j, started_at j with
  | running, Some t => t <? twoHoursAgo
  | _, _ => false
  end.

Definition is_old (thirtyDaysAgo : Z) (j : job) : bool :=
  match status j, completed_at j with
  | (completed | failed), Some t => t <? thirtyDaysAgo
  | _, _ => false
  end.

Definition time_out_row (now : Z) (j : job) : job :=
  {| website_id := website_id j; type := type j;
         metadata := metadata j;
     status := failed;
     priority := priority j; progress := progress j;
     started_at := started_at j;
     completed_at := Some now;
     retry_count := retry_count j; max_retries := max_retries j;
     result := result j;
     error_message := Some timed_out_message;
     updated_at := now |}.

(** The ids a select returns: the keys of the rows that pass the filter. *)
Definition select_ids (P : job -> bool) (t : gmap string job) : gset string :=
  dom (filter (fun kv => P kv.2 = true) t).

(** update ... where id in ids *)
Definition update_in (ids : gset string) (f : job -> job)
    (t : gmap string job) : gmap string job :=
  map_imap (fun k j => Some (if decide (k ∈ ids) then f j else j)) t.

(** delete ... where id in ids *)
Definition delete_in (ids : gset string) (t : gmap string job)
    : gmap string job :=
  filter (fun kv => kv.1 ∉ ids) t.

Record maintenance_results := MaintenanceResults {
  stuckJobsReset : nat;
  oldJobsDeleted : nat
}.

(** [maintainJobs]: step 1 fails the stuck jobs, step 2 deletes the old
    ones.  Step 3 asks the database to refresh a statistics view and
    writes to no table. *)
Definition maintainJobs (now : Z) (db : DB) : maintenance_results * DB :=
  let twoHoursAgo := now - two_hours in
  let stuckJobs := select_ids (is_stuck twoHoursAgo) (jobs db) in
  let db1 := with_jobs (update_in stuckJobs (time_out_row now)) db in
  let thirtyDaysAgo := now - thirty_days in
  let oldJobs := select_ids (is_old thirtyDaysAgo) (jobs db1) in
  let db2 := with_jobs (delete_in oldJobs) db1 in
  ({| stuckJobsReset := size stuckJobs; oldJobsDeleted := size oldJobs |},
   db2).

(** ** RobustCrawler: the scan orchestrator *)

Record HeaderStructure := Header { level : Z; text : string }.

Record CrawlResult := CrawlResultOf {
  url : string;
  title : option string;
  meta_description : option string;
  canonical_url : option string;
  breadcrumbs : list string;
  headers : list HeaderStructure;
  custom_data : list (string * string);
  response_code : Z;
  load_time : Z;
  content_hash : string
}.

(** What one run of processJob receives from outside the database: the
    clock, the id the database gives the new scan row, the outcome of
    discovery (the URL list, or the message of the exception it raised) and
    the record [processUrl] produces for each URL. *)
Record world := World {
  clock_start : Z;
  clock_end : Z;
  new_scan_id : string;
  discovered : string + list string;
  processUrl : string -> CrawlResult
}.

(** results.filter(pred).length *)
Definition count_results (pred : CrawlResult -> bool) (results : list CrawlResult)
    : Z :=
  Z.of_nat (length (List.filter pred results)).

(** The row processJob inserts into scans; the other columns take the
    defaults of the table. *)
Definition new_scan (j : job) (now : Z) : scan_row :=
  {| scan_website_id := website_id j;
     scan_started_at := now;
     scan_completed_at := None;
     scan_status_of := scan_running;
     total_pages := 0; new_pages := 0; changed_pages := 0;
     removed_pages := 0; error_pages := 0;
     duration := None;
     scan_discovery_method := discovery_method (metadata j);
     scan_error_message := None;
     scanned_urls := None |}.

Definition scan_duration (now : Z) (s : scan_row) : Z :=
  (now - scan_started_at s) / 1000.

(** "Update scan completion" *)
Definition complete_scan (now : Z) (urls : list string)
    (results : list CrawlResult) (s : scan_row) : scan_row :=
  {| scan_website_id := scan_website_id s;
     scan_started_at := scan_started_at s;
     scan_completed_at := Some now;
     scan_status_of := scan_completed;
     total_pages := Z.of_nat (length results);
     new_pages := count_results (fun r => response_code r =? 200) results;
     changed_pages := changed_pages s;
     removed_pages := removed_pages s;
     error_pages := count_results (fun r => response_code r >=? 400) results;
     duration := Some (scan_duration now s);
     scan_discovery_method := scan_discovery_method s;
     scan_error_message := scan_error_message s;
     scanned_urls := Some (take 1000 urls) |}.

(** "Update website metrics" *)
Definition update_metrics (now : Z) (results : list CrawlResult) (w : website)
    : website :=
  {| site_url := site_url w;
     site_last_scan := now;
     site_total_pages := Z.of_nat (length results);
     site_new_pages := count_results (fun r => response_code r =? 200) results;
     site_changed_pages := site_changed_pages w;
     site_removed_pages := site_removed_pages w |}.

(** processUrlsBatch: the number of URLs processed after each batch of
    [maxConcurrency] URLs, a positive number.  Each batch takes at least one
    URL, so [fuel] equal to the number of URLs runs the loop to its end. *)
Fixpoint batch_marks (fuel : nat) (maxConcurrency : positive)
    (remaining processed : nat) : list nat :=
  match fuel with
  | O => []
  | S fuel' =>
      match remaining with
      | O => []
      | _ =>
          let k := Nat.min (Pos.to_nat maxConcurrency) remaining in
          (processed + k)%nat
            :: batch_marks fuel' maxConcurrency (remaining - k) (processed + k)
      end
  end.

(** Math.floor((processed / total) * 50) + 25, in exact arithmetic.  The
    floating-point product of the source can fall short of the exact one
    and make the result one less; it stays between 25 and 75 all the
    same. *)
Definition batch_progress (processed total : nat) : Z :=
  Z.of_nat processed * 50 / Z.of_nat total + 25.

Definition processUrlsBatch (maxConcurrency : positive) (w : world)
    (urls : list string) (jobId : string) (db : DB) : list CrawlResult * DB :=
  let total := length urls in
  (List.map (processUrl w) urls,
   fold_left
     (fun d processed =>
        updateJobStatus jobId running (batch_progress processed total)
          None None (clock_start w) d)
     (batch_marks total maxConcurrency total 0) db).

(** processJob.  The pages and page_snapshots tables, which [saveResults]
    writes, are not part of [DB]; [saveResults] logs its errors and raises
    none.  A raised exception ends in the [catch] block, which marks the
    job failed. *)
Definition processJob (maxConcurrency : positive) (w : world) (jobId : string)
    (db : DB) : DB :=
  let fail msg d :=
    updateJobStatus jobId failed 0 None (Some msg) (clock_end w) d in
  match jobs db !! jobId with
  | None => fail "Job not found" db
  | Some j =>
      let db1 := updateJobStatus jobId running 0 None None (clock_start w) db in
      match websites db1 !! website_id j with
      | None => fail "Website not found" db1
      | Some _ =>
          let db2 :=
            with_scans (insert (new_scan_id w) (new_scan j (clock_start w)))
              db1 in
          match discovered w with
          | inl msg => fail msg db2
          | inr urls =>
              let db3 :=
                updateJobStatus jobId running 25 None None (clock_start w)
                  db2 in
              let '(results, db4) :=
                processUrlsBatch maxConcurrency w urls jobId db3 in
              let db5 :=
                updateJobStatus jobId running 75 None None (clock_end w)
                  db4 in
              let db6 :=
                with_scans
                  (alter (complete_scan (clock_end w) urls results)
                     (new_scan_id w)) db5 in
              let db7 :=
                with_websites
                  (alter (update_metrics (clock_end w) results)
                     (website_id j)) db6 in
              updateJobStatus jobId completed 100
                (Some {| result_scan_id := new_scan_id w;
                         result_total_pages := Z.of_nat (length results);
                         result_duration :=
                           scan_duration (clock_end w)
                             (new_scan j (clock_start w)) |})
                None (clock_end w) db7
          end
      end
  end.

(** ** The pattern matcher *)

(** What a call into the host (the regular expression engine, a property
    read) does: it returns, it throws, or it leaves the part of the host
    that is modelled here. *)
Inductive outcome (A : Type) :=
  | Returns (a : A)
  | Throws (error : string)
  | Unmodelled.

Arguments Returns {A} a.
Arguments Throws {A} error.
Arguments Unmodelled {A}.

Definition bind {A B} (o : outcome A) (k : A -> outcome B) : outcome B :=
  match o with
  | Returns a => k a
  | Throws e => Throws e
  | Unmodelled => Unmodelled
  end.

Notation "'do' x <- c1 ; c2" := (bind c1 (fun x => c2))
  (at level 10, x name, c1 at level 100, c2 at level 200).

(** *** The regular expressions of the host

    The model covers the expressions made of characters that stand for
    themselves, of [.] and of the quantifiers [*] and [+] applied to one of
    these.  A quantifier with nothing to repeat is the SyntaxError of the
    RegExp constructor; an expression with any other syntax character is
    outside the model. *)

Inductive atom := AnyChar | Lit (c : ascii).
Inductive quantifier := Once | Star | Plus.

Inductive parsed := Parsed (r : list (atom * quantifier)) | Invalid | Other.

Definition is_char (c d : ascii) : bool := Ascii.eqb c d.

Definition is_repeat (c : ascii) : bool :=
  is_char c "*" || is_char c "+".

(** The syntax characters of a pattern besides [.], [*] and [+]. *)
Definition is_syntax (c : ascii) : bool :=
  is_char c "\" || is_char c "^" || is_char c "$" || is_char c "?"
  || is_char c "(" || is_char c ")" || is_char c "[" || is_char c "]"
  || is_char c "{" || is_char c "}" || is_char c "|".

Definition atom_of (c : ascii) : atom :=
  if is_char c "." then AnyChar else Lit c.

Definition cons_item (i : atom * quantifier) (p : parsed) : parsed :=
  match p with
  | Parsed r => Parsed (i :: r)
  | Invalid => Invalid
  | Other => Other
  end.

Fixpoint parse_regexp (source : list ascii) : parsed :=
  match source with
  | [] => Parsed []
  | c :: rest =>
      if is_repeat c then Invalid
      else if is_syntax c then Other
      else
        match rest with
        | q :: rest' =>
            if is_char q "*" then
              cons_item (atom_of c, Star) (parse_regexp rest')
            else if is_char q "+" then
              cons_item (atom_of c, Plus) (parse_regexp rest')
            else cons_item (atom_of c, Once) (parse_regexp rest)
        | [] => Parsed [(atom_of c, Once)]
        end
  end.

(** [.] matches any character except a line terminator. *)
Definition is_line_terminator (c : ascii) : bool :=
  is_char c "010" || is_char c "013".

Definition accepts (a : atom) (c : ascii) : bool :=
  match a with
  | AnyChar => negb (is_line_terminator c)
  | Lit d => is_char c d
  end.

(** Zero or more characters that [a] accepts, then what [k] accepts. *)
Fixpoint match_repeat (a : atom) (k : list ascii -> bool) (s : list ascii)
    : bool :=
  k s
  || match s with
     | c :: s' => accepts a c && match_repeat a k s'
     | [] => false
     end.

(** Does the expression match a prefix of [s]? *)
Fixpoint match_here (r : list (atom * quantifier)) (s : list ascii) : bool :=
  match r with
  | [] => true
  | (a, q) :: r' =>
      match q with
      | Once =>
          match s with
          | c :: s' => accepts a c && match_here r' s'
          | [] => false
          end
      | Star => match_repeat a (match_here r') s
      | Plus =>
          match s with
          | c :: s' => accepts a c && match_repeat a (match_here r') s'
          | [] => false
          end
      end
  end.

(** An expression without flags matches when it matches at some index. *)
Fixpoint match_anywhere (r : list (atom * quantifier)) (s : list ascii)
    : bool :=
  match_here r s
  || match s with
     | _ :: s' => match_anywhere r s'
     | [] => false
     end.

(** new RegExp(source).test(s) *)
Definition RegExp_test (source s : string) : outcome bool :=
  match parse_regexp (list_ascii_of_string source) with
  | Parsed r => Returns (match_anywhere r (list_ascii_of_string s))
  | Invalid => Throws "SyntaxError"
  | Other => Unmodelled
  end.

(** s.replace(/c/g, by) for a single character [c] *)
Fixpoint replace_all (c : ascii) (by_ : string) (s : string) : string :=
  match s with
  | EmptyString => EmptyString
  | String d s' =>
      if is_char d c then by_ +:+ replace_all c by_ s'
      else String d (replace_all c by_ s')
  end.

Definition regexPattern (pattern : string) : string :=
  replace_all "?" "." (replace_all "*" ".*" pattern).

Definition matchesPattern (url pattern : string) : outcome bool :=
  RegExp_test (regexPattern pattern) url.

(** The loops of matchesPatterns do not depend on what an expression
    means, so they are given the engine of the host as it is:
    [new RegExp(source)] raises a SyntaxError or gives an expression, and
    [test] of an expression without flags is a function of the string it
    is given.  [modelled_engine] is the part of the engine described
    above. *)
Definition regexp_engine : Type := string -> outcome (string -> bool).

Definition modelled_engine : regexp_engine :=
  fun source =>
    match parse_regexp (list_ascii_of_string source) with
    | Parsed r => Returns (fun s => match_anywhere r (list_ascii_of_string s))
    | Invalid => Throws "SyntaxError"
    | Other => Unmodelled
    end.

(** matchesPattern on a given engine. *)
Definition matchesPattern_on (engine : regexp_engine) (url pattern : string)
    : outcome bool :=
  do regex <- engine (regexPattern pattern);
  Returns (regex url).

Record CrawlingPatternConfig := PatternConfig {
  pattern : string;
  enabled : bool
}.

Fixpoint exclude_loop (engine : regexp_engine) (url : string)
    (excludePatterns : list string) : outcome bool :=
  match excludePatterns with
  | [] => Returns false
  | p :: rest =>
      do m <- matchesPattern_on engine url p;
      if m then Returns true else exclude_loop engine url rest
  end.

Fixpoint include_loop (engine : regexp_engine) (url : string)
    (includePatterns : list CrawlingPatternConfig) : outcome bool :=
  match includePatterns with
  | [] => Returns false
  | patternConfig :: rest =>
      if enabled patternConfig then
        do m <- matchesPattern_on engine url (pattern patternConfig);
        if m then Returns true else include_loop engine url rest
      else include_loop engine url rest
  end.

Definition matchesPatterns (engine : regexp_engine) (url : string)
    (includePatterns : list CrawlingPatternConfig)
    (excludePatterns : list string) : outcome bool :=
  do excluded <- exclude_loop engine url excludePatterns;
  if excluded then Returns false
  else
    match includePatterns with
    | [] => Returns true
    | _ => include_loop engine url includePatterns
    end.

(** ** JavaScript values

    The values the settings objects and the parsed JSON-LD scripts are made
    of.  Numbers are integers.  An object is the list of its own
    properties, each key once; a property read through [get_prop] consults
    these only (a key that names a member of Object.prototype is outside
    its model; deepMerge, which reads the keys of its arguments, goes
    through [read_member] below), and the order of the list is the order
    of insertion. *)

#[local] Unset Elimination Schemes.
Inductive value :=
  | Undefined
  | Null
  | Bool (b : bool)
  | Num (n : Z)
  | Str (s : string)
  | Arr (items : list value)
  | Obj (fields : list (string * value)).
#[local] Set Elimination Schemes.

Fixpoint lookup_field (key : string) (fields : list (string * value)) : value :=
  match fields with
  | [] => Undefined
  | (k, v) :: rest => if String.eqb k key then v else lookup_field key rest
  end.

(** result[key] = v *)
Fixpoint set_field (key : string) (v : value) (fields : list (string * value))
    : list (string * value) :=
  match fields with
  | [] => [(key, v)]
  | (k, x) :: rest =>
      if String.eqb k key then (k, v) :: rest
      else (k, x) :: set_field key v rest
  end.

(** The index properties of an array or of a string, from index [i] on. *)
Fixpoint index_fields (i : nat) (items : list value) : list (string * value) :=
  match items with
  | [] => []
  | x :: rest => (pretty i, x) :: index_fields (S i) rest
  end.

Definition characters (s : string) : list value :=
  List.map (fun c => Str (String c EmptyString)) (list_ascii_of_string s).

Definition length_field (n : nat) : list (string * value) :=
  [("length", Num (Z.of_nat n))].

(** v[key]: a TypeError on null and undefined. *)
Definition get_prop (key : string) (v : value) : outcome value :=
  match v with
  | Undefined | Null => Throws "TypeError"
  | Bool _ | Num _ => Returns Undefined
  | Str s =>
      Returns (lookup_field key
                 (index_fields 0 (characters s)
                  ++ length_field (String.length s)))
  | Arr items =>
      Returns (lookup_field key
                 (index_fields 0 items ++ length_field (length items)))
  | Obj fields => Returns (lookup_field key fields)
  end.

Definition truthy_value (v : value) : bool :=
  match v with
  | Undefined | Null => false
  | Bool b => b
  | Num n => negb (n =? 0)
  | Str s => negb (String.eqb s "")
  | Arr _ | Obj _ => true
  end.

(** typeof v === 'object' *)
Definition typeof_object (v : value) : bool :=
  match v with
  | Null | Arr _ | Obj _ => true
  | _ => false
  end.

(** { ...v } *)
Definition spread (v : value) : list (string * value) :=
  match v with
  | Obj fields => fields
  | Arr items => index_fields 0 items
  | Str s => index_fields 0 (characters s)
  | _ => []
  end.

(** ** deepMerge *)

(** target[key] || {} *)
Definition or_empty (v : value) : value :=
  if truthy_value v then v else Obj [].

(** *** What an object inherits

    The arguments of deepMerge are data: objects and arrays as JSON.parse
    and object literals make them, with Object.prototype and
    Array.prototype as the host provides them.  The function reads
    [source.hasOwnProperty] and [target[key]], and writes [result[key]], for
    keys that the data chooses; so the names the prototypes define
    matter. *)

Definition has_field (key : string) (fields : list (string * value)) : bool :=
  existsb (fun kv => String.eqb kv.1 key) fields.

Definition is_member (key : string) (names : list string) : bool :=
  existsb (String.eqb key) names.

(** The methods of Object.prototype; its one other property is the
    accessor [__proto__]. *)
Definition object_members : list string :=
  [ "constructor"; "hasOwnProperty"; "isPrototypeOf"; "propertyIsEnumerable";
    "toLocaleString"; "toString"; "valueOf"; "__defineGetter__";
    "__defineSetter__"; "__lookupGetter__"; "__lookupSetter__" ].

(** The methods of Array.prototype (ECMAScript 2023). *)
Definition array_members : list string :=
  [ "at"; "concat"; "constructor"; "copyWithin"; "entries"; "every"; "fill";
    "filter"; "find"; "findIndex"; "findLast"; "findLastIndex"; "flat";
    "flatMap"; "forEach"; "includes"; "indexOf"; "join"; "keys";
    "lastIndexOf"; "map"; "pop"; "push"; "reduce"; "reduceRight"; "reverse";
    "shift"; "slice"; "some"; "sort"; "splice"; "toLocaleString";
    "toReversed"; "toSorted"; "toSpliced"; "toString"; "unshift"; "values";
    "with" ].

(** What a read of a property finds: a value of the data (an own property,
    or undefined where there is none anywhere), a method of a prototype, or
    the prototype itself (through [__proto__]). *)
Inductive member :=
  | Data (v : value)
  | Method
  | Prototype.

(** target[key]: an own property first, then the prototype.  A TypeError
    on null and undefined; the reads of a boolean, a number or a string
    (which deepMerge does not make) are not modelled. *)
Definition read_member (key : string) (target : value) : outcome member :=
  match target with
  | Undefined | Null => Throws "TypeError"
  | Bool _ | Num _ | Str _ => Unmodelled
  | Arr items =>
      let own := (index_fields 0 items ++ length_field (length items))%list in
      if has_field key own then Returns (Data (lookup_field key own))
      else if String.eqb key "__proto__" then Returns Prototype
      else if is_member key array_members || is_member key object_members
           then Returns Method
      else Returns (Data Undefined)
  | Obj fields =>
      if has_field key fields then Returns (Data (lookup_field key fields))
      else if String.eqb key "__proto__" then Returns Prototype
      else if is_member key object_members then Returns Method
      else Returns (Data Undefined)
  end.

(** source.hasOwnProperty(key): the method of Object.prototype, unless the
    object has an own property of that name; that one is data, no function,
    and the call raises a TypeError. *)
Definition hasOwnProperty_call (source : list (string * value))
    (key : string) : outcome bool :=
  if has_field "hasOwnProperty" source then Throws "TypeError"
  else Returns (has_field key source).

(** result[key] = v, on the object the spread made.  Object.prototype has a
    setter for [__proto__]: where the result has no own property of that
    name, the assignment makes an object or an array the prototype of the
    result (which is outside the model) and does nothing for a value of
    another kind. *)
Definition assign (key : string) (v : value) (result : list (string * value))
    : outcome (list (string * value)) :=
  if String.eqb key "__proto__" && negb (has_field key result) then
    match v with
    | Arr _ | Obj _ => Unmodelled
    | _ => Returns result
    end
  else Returns (set_field key v result).

(** deepMerge(target[key] || {}, source[key]) for an object [v], given what
    the read of [target[key]] found: a method is truthy and no object, so
    the call returns [v]. *)
Definition merge_member (merge : value -> value -> outcome value)
    (t : member) (v : value) : outcome value :=
  match t with
  | Data t => merge (or_empty t) v
  | Method => Returns v
  | Prototype => Unmodelled
  end.

(** The loop over the keys of [source], given the function for the nested
    merges: [props] are the properties still to visit, each with the value
    [source[key]] of its key, and [result] is the object under
    construction.  (The host visits the keys that are array indices first;
    no outcome below depends on the order, and the result is read by
    key.) *)
Definition merge_props (merge : value -> value -> outcome value)
    (target : value) (source : list (string * value))
    : list (string * value) -> list (string * value) -> outcome value :=
  fix loop (props result : list (string * value)) {struct props}
      : outcome value :=
    match props with
    | [] => Returns (Obj result)
    | (key, v) :: rest =>
        do own <- hasOwnProperty_call source key;
        if own then
          match v with
          | Undefined | Null => loop rest result
          | Obj _ =>
              do t <- read_member key target;
              do merged <- merge_member merge t v;
              do result' <- assign key merged result;
              loop rest result'
          | _ =>
              do result' <- assign key v result;
              loop rest result'
          end
        else loop rest result
    end.

Fixpoint deepMerge (target source : value) {struct source} : outcome value :=
  match source with
  | Undefined | Null => Returns target
  | Bool _ | Num _ | Str _ => Returns source
  | Arr _ => Returns source
  | Obj sfields =>
      if negb (typeof_object target) then Returns source
      else
        merge_props (fun t v => deepMerge t v) target sfields sfields
          (spread target)
  end.

(** ** RobustCrawler.extractBreadcrumbs

    The function reads the document through the regular expression engine
    and JSON.parse.  [html_view] is what these two return on a document:
    for each match of the ld+json script expression, in document order,
    the value JSON.parse gives for its body ([None] when it throws); and
    for each selector, the texts the expression [>([^<]+)<] captures inside
    the first match of the class expression built from the selector
    ([None] when there is no match). *)

Record html_view := HtmlView {
  jsonLdScripts : list (option value);
  selector_texts : string -> option (list string)
}.

(** for (const item of v) *)
Definition iterate (v : value) : outcome (list value) :=
  match v with
  | Arr items => Returns items
  | Str s => Returns (characters s)
  | _ => Throws "TypeError"
  end.

(** The loop over itemListElement.  The array [breadcrumbs] is shared with
    the rest of the function: what the loop pushed before a TypeError stays
    in it.  The boolean says whether the loop threw. *)
Fixpoint push_names (items breadcrumbs : list value) : list value * bool :=
  match items with
  | [] => (breadcrumbs, false)
  | item :: rest =>
      match get_prop "name" item with
      | Returns name =>
          push_names rest
            (if truthy_value name then breadcrumbs ++ [name] else breadcrumbs)
      | _ => (breadcrumbs, true)
      end
  end.

Definition is_BreadcrumbList (v : value) : bool :=
  match v with
  | Str s => String.eqb s "BreadcrumbList"
  | _ => false
  end.

(** The body of the [try] for one script: the array afterwards, and whether
    the function returned it. *)
Definition try_script (parsed : option value) (breadcrumbs : list value)
    : list value * bool :=
  match parsed with
  | None => (breadcrumbs, false)
  | Some data =>
      match get_prop "@type" data, get_prop "itemListElement" data with
      | Returns ty, Returns itemListElement =>
          if is_BreadcrumbList ty && truthy_value itemListElement then
            match iterate itemListElement with
            | Returns items =>
                match push_names items breadcrumbs with
                | (breadcrumbs', true) => (breadcrumbs', false)
                | (breadcrumbs', false) =>
                    (breadcrumbs', (0 <? length breadcrumbs')%nat)
                end
            | _ => (breadcrumbs, false)
            end
          else (breadcrumbs, false)
      | _, _ => (breadcrumbs, false)
      end
  end.

Fixpoint jsonld_loop (scripts : list (option value)) (breadcrumbs : list value)
    : list value * bool :=
  match scripts with
  | [] => (breadcrumbs, false)
  | parsed :: rest =>
      match try_script parsed breadcrumbs with
      | (breadcrumbs', true) => (breadcrumbs', true)
      | (breadcrumbs', false) => jsonld_loop rest breadcrumbs'
      end
  end.

Definition is_space (c : ascii) : bool :=
  is_char c "009" || is_char c "010" || is_char c "011" || is_char c "012"
  || is_char c "013" || is_char c " " || is_char c "160".

Fixpoint trim_start (s : list ascii) : list ascii :=
  match s with
  | c :: s' => if is_space c then trim_start s' else s
  | [] => []
  end.

Definition trim (s : string) : string :=
  string_of_list_ascii
    (rev (trim_start (rev (trim_start (list_ascii_of_string s))))).

(** text && !text.match(/^[>\s]*$/) *)
Definition is_crumb (text : string) : bool :=
  negb (String.eqb text "")
  && negb (forallb (fun c => is_char c ">" || is_space c)
             (list_ascii_of_string text)).

Definition push_texts (textMatches : list string) (breadcrumbs : list value)
    : list value :=
  breadcrumbs ++ List.map Str (List.filter is_crumb (List.map trim textMatches)).

Definition double_quote : string := String "034" EmptyString.

Definition selectors : list string :=
  [ ".breadcrumb";
    ".breadcrumbs";
    "[aria-label=" +:+ double_quote +:+ "breadcrumb" +:+ double_quote +:+ "]";
    ".nav-breadcrumb" ].

Fixpoint selector_loop (view : html_view) (sels : list string)
    (breadcrumbs : list value) : list value :=
  match sels with
  | [] => breadcrumbs
  | selector :: rest =>
      match selector_texts view selector with
      | Some textMatches =>
          let breadcrumbs' := push_texts textMatches breadcrumbs in
          if (0 <? length breadcrumbs')%nat then breadcrumbs'
          else selector_loop view rest breadcrumbs'
      | None => selector_loop view rest breadcrumbs
      end
  end.

Definition extractBreadcrumbs (view : html_view) : list value :=
  match jsonld_loop (jsonLdScripts view) [] with
  | (breadcrumbs, true) => breadcrumbs
  | (breadcrumbs, false) => selector_loop view selectors breadcrumbs
  end.

(** ** The run comparison engine (useRunComparison) *)

Module RunComparison.

Inductive field_change_type := added | removed | modified.
Inductive page_change_type :=
  page_added | page_removed | page_modified | page_unchanged.
Inductive impact_level := low | medium | high.

#[global] Instance impact_level_eq_dec : EqDecision impact_level.
Proof. solve_decision. Defined.

(** The fields of a snapshot that the comparison reads. *)
Record PageSnapshot := Snapshot {
  url : string;
  title : option string;
  metaDescription : option string;
  canonicalUrl : option string;
  breadcrumbs : list string;
  headers : list HeaderStructure;
  customData : list (string * string)
}.

Record FieldChange := Change {
  field : string;
  type : field_change_type;
  oldValue : option string;
  newValue : option string;
  impact : impact_level
}.

Record PageComparisonResult := PageResult {
  page_url : string;
  baseSnapshot : option PageSnapshot;
  compareSnapshot : option PageSnapshot;
  changeType : page_change_type;
  changes : list FieldChange;
  severity : impact_level
}.

Record ComparisonSummary := Summary {
  newPages : list PageSnapshot;
  removedPages : list PageSnapshot;
  modifiedPages : list PageComparisonResult;
  unchangedPages : nat
}.

Record RunComparison := Comparison {
  summary : ComparisonSummary;
  pageChanges : list PageComparisonResult
}.

(** *** compareHeaders *)

(** The key `${h.level}-${i}` of the header at index [i]. *)
Definition header_key (i : nat) (h : HeaderStructure) : Z * nat := (level h, i).

Definition header_map (hs : list HeaderStructure)
    : list ((Z * nat) * HeaderStructure) :=
  imap (fun i h => (header_key i h, h)) hs.

Definition map_get {K V} `{EqDecision K} (k : K) (m : list (K * V)) : option V :=
  snd <$> List.find (fun e => bool_decide (e.1 = k)) m.

Definition map_has {K V} `{EqDecision K} (k : K) (m : list (K * V)) : bool :=
  is_set (map_get k m).

Definition header_field (h : HeaderStructure) : string :=
  "header-h" +:+ pretty (level h).

Definition header_impact (h : HeaderStructure) : impact_level :=
  if level h <=? 2 then high else medium.

Definition compareHeaders (baseHeaders compareHeaders : list HeaderStructure)
    : list FieldChange :=
  let baseMap := header_map baseHeaders in
  let compareMap := header_map compareHeaders in
  flat_map
    (fun e : (Z * nat) * HeaderStructure =>
       if map_has e.1 compareMap then []
       else [ {| field := header_field e.2; type := removed;
                 oldValue := Some (text e.2); newValue := None;
                 impact := header_impact e.2 |} ])
    baseMap
  ++ flat_map
       (fun e : (Z * nat) * HeaderStructure =>
          if map_has e.1 baseMap then []
          else [ {| field := header_field e.2; type := added;
                    oldValue := None; newValue := Some (text e.2);
                    impact := header_impact e.2 |} ])
       compareMap
  ++ flat_map
       (fun e : (Z * nat) * HeaderStructure =>
          match map_get e.1 compareMap with
          | Some compareHeader =>
              if String.eqb (text e.2) (text compareHeader) then []
              else [ {| field := header_field e.2; type := modified;
                        oldValue := Some (text e.2);
                        newValue := Some (text compareHeader);
                        impact := header_impact e.2 |} ]
          | None => []
          end)
       baseMap.

(** *** compareSnapshots *)

(** list.join(' > ') *)
Fixpoint join (sep : string) (l : list string) : string :=
  match l with
  | [] => ""
  | [x] => x
  | x :: rest => x +:+ sep +:+ join sep rest
  end.

(** Keeps the first occurrence of each key: the key order of a Set, of a
    Map and of an object built by insertion. *)
Fixpoint nub (seen l : list string) : list string :=
  match l with
  | [] => []
  | k :: rest =>
      if bool_decide (k ∈ seen) then nub seen rest
      else k :: nub (k :: seen) rest
  end.

(** Object.keys({ ...a, ...b }) *)
Definition merged_keys (a b : list (string * string)) : list string :=
  nub [] (List.map fst a ++ List.map fst b).

Definition option_eqb (a b : option string) : bool :=
  bool_decide (a = b).

Definition nonempty {A} (l : list A) : bool := (0 <? length l)%nat.

Definition compareSnapshots (base compare : option PageSnapshot)
    : list FieldChange :=
  match base, compare with
  | None, Some compare =>
      (if truthy (title compare)
       then [ {| field := "title"; type := added; oldValue := None;
                 newValue := title compare; impact := high |} ]
       else [])
      ++ (if truthy (metaDescription compare)
          then [ {| field := "metaDescription"; type := added;
                    oldValue := None; newValue := metaDescription compare;
                    impact := medium |} ]
          else [])
      ++ (if nonempty (breadcrumbs compare)
          then [ {| field := "breadcrumbs"; type := added; oldValue := None;
                    newValue := Some (join " > " (breadcrumbs compare));
                    impact := low |} ]
          else [])
      ++ (if nonempty (headers compare)
          then compareHeaders [] (headers compare)
          else [])
  | Some base, None =>
      (if truthy (title base)
       then [ {| field := "title"; type := removed; oldValue := title base;
                 newValue := None; impact := high |} ]
       else [])
      ++ (if nonempty (breadcrumbs base)
          then [ {| field := "breadcrumbs"; type := removed;
                    oldValue := Some (join " > " (breadcrumbs base));
                    newValue := None; impact := low |} ]
          else [])
      ++ (if nonempty (headers base)
          then compareHeaders (headers base) []
          else [])
  | None, None => []
  | Some base, Some compare =>
      (if option_eqb (title base) (title compare) then []
       else [ {| field := "title"; type := modified;
                 oldValue := title base; newValue := title compare;
                 impact := high |} ])
      ++ (if option_eqb (metaDescription base) (metaDescription compare)
          then []
          else [ {| field := "metaDescription"; type := modified;
                    oldValue := metaDescription base;
                    newValue := metaDescription compare;
                    impact := medium |} ])
      ++ (if option_eqb (canonicalUrl base) (canonicalUrl compare) then []
          else [ {| field := "canonicalUrl"; type := modified;
                    oldValue := canonicalUrl base;
                    newValue := canonicalUrl compare;
                    impact := medium |} ])
      ++ (if bool_decide (breadcrumbs base = breadcrumbs compare) then []
          else [ {| field := "breadcrumbs"; type := modified;
                    oldValue := Some (join " > " (breadcrumbs base));
                    newValue := Some (join " > " (breadcrumbs compare));
                    impact := low |} ])
      ++ compareHeaders (headers base) (headers compare)
      ++ flat_map
           (fun key =>
              if option_eqb (map_get key (customData base))
                            (map_get key (customData compare))
              then []
              else [ {| field := key; type := modified;
                        oldValue := map_get key (customData base);
                        newValue := map_get key (customData compare);
                        impact :=
                          if String.eqb key "price" then high else low |} ])
           (merged_keys (customData base) (customData compare))
  end.

(** *** The comparison of two runs *)

(** new Map(snapshots.map(s => [s.url, s])): a later snapshot with the same
    URL replaces the earlier one, in its place. *)
Fixpoint map_set (k : string) (s : PageSnapshot)
    (m : list (string * PageSnapshot)) : list (string * PageSnapshot) :=
  match m with
  | [] => [(k, s)]
  | (k', s') :: rest =>
      if bool_decide (k' = k) then (k', s) :: rest
      else (k', s') :: map_set k s rest
  end.

Definition url_map (snapshots : list PageSnapshot)
    : list (string * PageSnapshot) :=
  fold_left (fun m s => map_set (url s) s m) snapshots [].

Definition has_impact (i : impact_level) (cs : list FieldChange) : bool :=
  existsb (fun c => bool_decide (impact c = i)) cs.

Definition severity_of (cs : list FieldChange) : impact_level :=
  if has_impact high cs then high
  else if has_impact medium cs then medium
  else low.

(** The body of allUrls.forEach, but for the pushes to the summary lists. *)
Definition compare_url (baseMap compareMap : list (string * PageSnapshot))
    (u : string) : PageComparisonResult :=
  let base := map_get u baseMap in
  let compare := map_get u compareMap in
  let cs :=
    match base, compare with
    | None, None => []
    | _, _ => compareSnapshots base compare
    end in
  {| page_url := u;
     baseSnapshot := base;
     compareSnapshot := compare;
     changeType :=
       match base, compare with
       | None, Some _ => page_added
       | Some _, None => page_removed
       | Some _, Some _ => if nonempty cs then page_modified else page_unchanged
       | None, None => page_unchanged
       end;
     changes := cs;
     severity := severity_of cs |}.

Definition is_unchanged (r : PageComparisonResult) : bool :=
  match baseSnapshot r, compareSnapshot r, changeType r with
  | Some _, Some _, page_unchanged => true
  | _, _, _ => false
  end.

(** The comparison of the two snapshot lists, as the two-run branch of the
    hook builds it once it holds them.  The totals and error counts of the
    summary are copied from the two scan rows and are left out. *)
Definition compareRuns (baseSnapshotsData compareSnapshotsData : list PageSnapshot)
    : RunComparison :=
  let baseMap := url_map baseSnapshotsData in
  let compareMap := url_map compareSnapshotsData in
  let allUrls := nub [] (List.map fst baseMap ++ List.map fst compareMap) in
  let results := List.map (compare_url baseMap compareMap) allUrls in
  {| summary :=
       {| newPages :=
            omap (fun r => match changeType r with
                           | page_added => compareSnapshot r
                           | _ => None
                           end) results;
          removedPages :=
            omap (fun r => match changeType r with
                           | page_removed => baseSnapshot r
                           | _ => None
                           end) results;
          modifiedPages :=
            List.filter (fun r => match changeType r with
                                  | page_modified => true
                                  | _ => false
                                  end) results;
          unchangedPages := length (List.filter is_unchanged results) |};
     pageChanges := results |}.

End RunComparison.

(** ** RobustCrawler.discoverFromSitemap and parseSitemap

    The two functions read the network.  [sitemap_document] is what
    parseSitemap reads off a response: whether the text includes
    [<sitemapindex], and the texts the expression [<loc>(.*?)</loc>]
    captures, in document order.  [fetch] gives the document of a URL, and
    [None] where the request fails, times out or is answered with a status
    that is not ok (the error is caught inside parseSitemap). *)

Record sitemap_document := SitemapDocument {
  is_sitemapindex : bool;
  locs : list string
}.

Record SitemapUrlConfig := SitemapUrl {
  sitemap_url : string;
  sitemap_enabled : bool
}.

(** The fields of the sitemap settings that the discovery reads. *)
Record SitemapSettings := SitemapSettingsOf {
  urls : list SitemapUrlConfig;
  autoDetect : bool;
  followSitemapIndex : bool
}.

(** The loop over the entries of a sitemap index, given the function for
    the nested sitemaps; [None] where a nested call does not return. *)
Fixpoint child_sitemaps (parse : string -> option (list string))
    (children urls : list string) : option (list string) :=
  match children with
  | [] => Some urls
  | child :: rest =>
      match parse child with
      | Some childSitemapUrls =>
          child_sitemaps parse rest (urls ++ childSitemapUrls)%list
      | None => None
      end
  end.

(** A sitemap index may name itself, and the function then does not return:
    [fuel] bounds the depth of the nesting, and [None] says that it did not
    suffice. *)
Fixpoint parseSitemap (fuel : nat) (fetch : string -> option sitemap_document)
    (settings : SitemapSettings) (sitemapUrl : string)
    : option (list string) :=
  match fuel with
  | O => None
  | S fuel' =>
      match fetch sitemapUrl with
      | None => Some []
      | Some content =>
          if is_sitemapindex content then
            if followSitemapIndex settings then
              child_sitemaps (parseSitemap fuel' fetch settings)
                (locs content) []
            else Some []
          else Some (locs content)
      end
  end.

Definition commonPaths : list string :=
  [ "/sitemap.xml"; "/sitemap_index.xml"; "/sitemaps.xml" ].

Definition no_sitemap_settings : SitemapSettings :=
  {| urls := []; autoDetect := false; followSitemapIndex := false |}.

(** The loop over the configured sitemaps. *)
Fixpoint sitemap_loop (parse : string -> option (list string))
    (sitemapUrls : list SitemapUrlConfig) (found : list string)
    : option (list string) :=
  match sitemapUrls with
  | [] => Some found
  | sitemapConfig :: rest =>
      if sitemap_enabled sitemapConfig then
        match parse (sitemap_url sitemapConfig) with
        | Some sitemapUrls' => sitemap_loop parse rest (found ++ sitemapUrls')%list
        | None => None
        end
      else sitemap_loop parse rest found
  end.

(** [resolve path] is [new URL(path, website.url).toString()], and
    [sitemap] is [settings.discovery?.sitemap]. *)
Definition discoverFromSitemap (fuel : nat)
    (fetch : string -> option sitemap_document) (resolve : string -> string)
    (sitemap : option SitemapSettings) : option (list string) :=
  let sitemapSettings := default no_sitemap_settings sitemap in
  let sitemapUrls :=
    if (length (urls sitemapSettings) =? 0)%nat && autoDetect sitemapSettings
    then List.map (fun path => {| sitemap_url := resolve path;
                                  sitemap_enabled := true |}) commonPaths
    else urls sitemapSettings in
  match sitemap_loop (parseSitemap fuel fetch sitemapSettings) sitemapUrls []
  with
  | Some found => Some (RunComparison.nub [] found)
  | None => None
  end.

(** ** RobustCrawler.extractHeaders

    [heading_matches level] stands for the texts that the expression
    [<h${level}[^>]*>(.*?)</h${level}>] captures in the document, in
    document order. *)

Record header_config := HeaderConfig {
  levels : option (list Z);
  maxLength : option Z
}.

(** replace(/<[^>]+>/g, ''), one character at a time.  [pending] holds the
    characters read since a [<] that may still open a tag: they are dropped
    when a [>] follows at least one of them, and kept when the text ends, or
    when the [>] follows the [<] at once. *)
Fixpoint strip_from (pending : option (list ascii)) (s : list ascii)
    : list ascii :=
  match s with
  | [] =>
      match pending with
      | Some inside => "<"%char :: inside
      | None => []
      end
  | c :: rest =>
      match pending with
      | None =>
          if is_char c "<" then strip_from (Some []) rest
          else c :: strip_from None rest
      | Some inside =>
          if is_char c ">" then
            match inside with
            | [] => "<"%char :: ">"%char :: strip_from None rest
            | _ :: _ => strip_from None rest
            end
          else strip_from (Some (inside ++ [c])%list) rest
      end
  end.

Definition strip_tags (s : string) : string :=
  string_of_list_ascii (strip_from None (list_ascii_of_string s)).

(** The text of one match: [None] where nothing is pushed. *)
Definition header_text (maxLength : Z) (inner : string) : option string :=
  let text := trim (strip_tags inner) in
  if String.eqb text "" then None
  else if Z.of_nat (String.length text) >? maxLength
       then Some (substring 0 (Z.to_nat maxLength) text +:+ "...")
       else Some text.

(** headers.sort((a, b) => a.level - b.level): the sort is stable. *)
Fixpoint insert_header (h : HeaderStructure) (sorted : list HeaderStructure)
    : list HeaderStructure :=
  match sorted with
  | [] => [h]
  | x :: rest =>
      if level h <=? level x then h :: x :: rest
      else x :: insert_header h rest
  end.

Definition sort_headers (headers : list HeaderStructure)
    : list HeaderStructure :=
  fold_right insert_header [] headers.

Definition headers_of_level (heading_matches : Z -> list string)
    (maxLength lvl : Z) : list HeaderStructure :=
  omap (fun inner => (fun t => {| level := lvl; text := t |})
                       <$> header_text maxLength inner)
    (heading_matches lvl).

Definition extractHeaders (heading_matches : Z -> list string)
    (config : header_config) : list HeaderStructure :=
  let levels := default [1; 2; 3] (levels config) in
  let maxLength :=
    match maxLength config with
    | Some n => if n =? 0 then 200 else n
    | None => 200
    end in
  sort_headers
    (flat_map (headers_of_level heading_matches maxLength) levels).

(** ** The archive of websites (useWebsites) *)

Inductive website_status :=
  site_active | site_paused | site_error | site_archived.

(** The two columns of a websites row that the archive reads and writes.
    The Website of the application carries them as [status] and
    [archivedAt]. *)
Record archive_row := ArchiveRow {
  site_status : website_status;
  archived_at : option Z
}.

(** The fields of the updates that archiving passes to updateWebsite;
    [None] is a field that is undefined or not there. *)
Record website_updates := WebsiteUpdates {
  updates_status : option website_status;
  updates_archivedAt : option Z
}.

Definition day_ms : Z := 24 * 60 * 60 * 1000.

(** Math.ceil(a / d) for a positive [d], the quotient taken exactly. *)
Definition ceil_div (a d : Z) : Z := - ((- a) / d).

(** Times are in milliseconds.  The retention period is a constant of the
    configuration. *)
Definition getDaysUntilDeletion (ARCHIVE_RETENTION_DAYS now : Z)
    (website : archive_row) : option Z :=
  match site_status website, archived_at website with
  | site_archived, Some archiveDate =>
      let deletionDate := archiveDate + ARCHIVE_RETENTION_DAYS * day_ms in
      let daysLeft := ceil_div (deletionDate - now) day_ms in
      Some (Z.max 0 daysLeft)
  | _, _ => None
  end.

(** .eq('status', 'archived').lt('archived_at', retentionThreshold) *)
Definition is_expired (ARCHIVE_RETENTION_DAYS now : Z) (row : archive_row)
    : bool :=
  match site_status row, archived_at row with
  | site_archived, Some archivedAt =>
      archivedAt <? now - ARCHIVE_RETENTION_DAYS * day_ms
  | _, _ => false
  end.

Definition checkForExpiredArchives (ARCHIVE_RETENTION_DAYS now : Z)
    (table : gmap string archive_row) : gmap string archive_row :=
  filter (fun entry => is_expired ARCHIVE_RETENTION_DAYS now entry.2 = false)
    table.

(** The update of the row by updateWebsite, for a signed-in user: a field
    of the updates that is undefined is not written. *)
Definition update_archive_row (updates : website_updates) (row : archive_row)
    : archive_row :=
  {| site_status := default (site_status row) (updates_status updates);
     archived_at :=
       match updates_archivedAt updates with
       | Some archivedAt => Some archivedAt
       | None => archived_at row
       end |}.

Definition updateWebsite (id : string) (updates : website_updates)
    (table : gmap string archive_row) : gmap string archive_row :=
  alter (update_archive_row updates) id table.

Definition archiveWebsite (id : string) (now : Z)
    (table : gmap string archive_row) : gmap string archive_row :=
  updateWebsite id {| updates_status := Some site_archived;
                      updates_archivedAt := Some now |} table.

Definition unarchiveWebsite (id : string)
    (table : gmap string archive_row) : gmap string archive_row :=
  updateWebsite id {| updates_status := Some site_active;
                      updates_archivedAt := None |} table.

(** * The specification

    The properties in the words of the specification, the invariants and
    the examples the theorems are about. *)

(** ** The job state machine *)

Definition is_terminal (st : job_status) : bool :=
  match st with
  | completed | failed | cancelled => true
  | queued | running => false
  end.



(** The invariants the operations keep: a cancelled job has [started_at]
    only if it was cancelled after it had started. *)
Definition job_invariant (j : job) : Prop :=
  (status j = queued -> started_at j = None)
  /\ (status j = running \/ status j = completed \/ status j = failed ->
      is_set (started_at j) = true)
  /\ is_set (completed_at j) = is_terminal (status j)
  /\ (progress j = 100 <-> status j = completed).

Definition jobs_invariant (db : DB) : Prop :=
  forall id j, jobs db !! id = Some j -> job_invariant j.

(** The calls of updateJobStatus that processJob makes. *)
Inductive orchestrator_call :=
  | Begin
  | Discovered
  | Batch (processed total : nat)
  | Processed
  | Complete (res : job_result)
  | Fail (message : string).

Definition run_call (jobId : string) (c : orchestrator_call) (now : Z) (db : DB)
    : DB :=
  match c with
  | Begin => updateJobStatus jobId running 0 None None now db
  | Discovered => updateJobStatus jobId running 25 None None now db
  | Batch processed total =>
      updateJobStatus jobId running (batch_progress processed total)
        None None now db
  | Processed => updateJobStatus jobId running 75 None None now db
  | Complete res => updateJobStatus jobId completed 100 (Some res) None now db
  | Fail message => updateJobStatus jobId failed 0 None (Some message) now db
  end.

(** The operations that write to the jobs table. *)
Inductive operation :=
  | Lease (jobId : string)
  | Update (jobId : string) (c : orchestrator_call)
  | Cancel (jobId : string)
  | Retry (jobId : string)
  | Reaper.

Definition run_operation (op : operation) (now : Z) (db : DB) : DB :=
  match op with
  | Lease jobId => acquireLease jobId now db
  | Update jobId c => run_call jobId c now db
  | Cancel jobId => cancelJob jobId now db
  | Retry jobId => (retryFailedJob jobId now db).2
  | Reaper => (maintainJobs now db).2
  end.

(** The state in which the state machine has the operation.  The lease,
    the cancellation, the retry and the reaper check it themselves;
    updateJobStatus writes to the row whatever its status. *)
Definition in_order (op : operation) (db : DB) : Prop :=
  match op with
  | Update jobId c =>
      forall j, jobs db !! jobId = Some j ->
        match c with
        | Begin => status j = queued \/ status j = running
        | Batch processed total =>
            status j = running /\ (processed <= total)%nat /\ (0 < total)%nat
        | _ => status j = running
        end
  | _ => True
  end.

Definition example_job (st : job_status) (started : option Z) : job :=
  {| website_id := "site-1"; type := scan;
     metadata := {| discovery_method := sitemap; max_pages := 10000;
                    max_depth := 3 |};
     status := st; priority := 0; progress := 0;
     started_at := started; completed_at := None;
     retry_count := 0; max_retries := 3;
     result := None; error_message := None; updated_at := 0 |}.

Definition example_scan : scan_row :=
  {| scan_website_id := "site-1"; scan_started_at := 0;
     scan_completed_at := None; scan_status_of := scan_running;
     total_pages := 0; new_pages := 0; changed_pages := 0;
     removed_pages := 0; error_pages := 0; duration := None;
     scan_discovery_method := sitemap; scan_error_message := None;
     scanned_urls := None |}.

Definition example_db (st : job_status) (started : option Z) : DB :=
  {| jobs := {[ "job-1" := example_job st started ]};
     scans := {[ "scan-1" := example_scan ]};
     websites := ∅ |}.

(** ** The reaper *)

(** The specification has the reaper fail, with the stuck job, the scan
    row of the job: the running scan of the website of the job. *)
Definition reaper_fails_scan (now : Z) (db : DB) : Prop :=
  forall jobId j t scanId s,
    jobs db !! jobId = Some j ->
    status j = running -> started_at j = Some t -> t < now - two_hours ->
    scans db !! scanId = Some s ->
    scan_website_id s = website_id j -> scan_status_of s = scan_running ->
    scan_status_of <$> scans (maintainJobs now db).2 !! scanId
    = Some scan_failed.

Definition three_hours : Z := 3 * 60 * 60 * 1000.

(** ** The counters of a scan *)

(** The counters in the words of the specification: the URL set of the new
    results against the URL set of the previous scan of the site. *)
Definition urls_of (rs : list CrawlResult) : gset string :=
  list_to_set (List.map url rs).

Definition hash_of (u : string) (rs : list CrawlResult) : option string :=
  content_hash <$> List.find (fun r => bool_decide (url r = u)) rs.

Definition stated_newPages (previous results : list CrawlResult) : Z :=
  Z.of_nat (size (urls_of results ∖ urls_of previous)).

Definition stated_removedPages (previous results : list CrawlResult) : Z :=
  Z.of_nat (size (urls_of previous ∖ urls_of results)).

Definition stated_changedPages (previous results : list CrawlResult) : Z :=
  Z.of_nat
    (size (filter (fun u => hash_of u previous <> hash_of u results)
             (urls_of previous ∩ urls_of results))).

Definition in_success_range (code : Z) : bool :=
  (200 <=? code) && (code <? 400).

Definition stated_errorPages (results : list CrawlResult) : Z :=
  count_results (fun r => negb (in_success_range (response_code r))) results.

Definition stated_counters (previous results : list CrawlResult)
    (s : scan_row) : Prop :=
  new_pages s = stated_newPages previous results
  /\ removed_pages s = stated_removedPages previous results
  /\ changed_pages s = stated_changedPages previous results
  /\ error_pages s = stated_errorPages results.

Definition example_site_db : DB :=
  {| jobs := {[ "job-1" := example_job queued None;
                "job-2" := example_job queued None ]};
     scans := ∅;
     websites := {[ "site-1" :=
                      {| site_url := "https://example.com/";
                         site_last_scan := 0; site_total_pages := 0;
                         site_new_pages := 0; site_changed_pages := 0;
                         site_removed_pages := 0 |} ]} |}.

Definition example_result (u : string) : CrawlResult :=
  {| url := u; title := None; meta_description := None;
     canonical_url := None; breadcrumbs := []; headers := [];
     custom_data := []; response_code := 200; load_time := 120;
     content_hash := "9f86d081" |}.

(** Two scans of a site whose one page answers 200 with the same body. *)
Definition example_world (scanId : string) (now : Z) : world :=
  {| clock_start := now; clock_end := now + 4000;
     new_scan_id := scanId;
     discovered := inr ["https://example.com/"];
     processUrl := example_result |}.

Definition example_results : list CrawlResult :=
  [example_result "https://example.com/"].

(** Two scans of a site that changes in between: the first finds the home
    page and an old page; the second finds the home page with another body
    and a new page, the old page being gone. *)
Definition first_visit : world :=
  {| clock_start := 1000; clock_end := 5000;
     new_scan_id := "scan-1";
     discovered := inr ["https://example.com/"; "https://example.com/old"];
     processUrl := example_result |}.

Definition changed_result (u : string) : CrawlResult :=
  {| url := u; title := None; meta_description := None;
     canonical_url := None; breadcrumbs := []; headers := [];
     custom_data := []; response_code := 200; load_time := 120;
     content_hash := "60303ae2" |}.

Definition second_visit : world :=
  {| clock_start := 9000; clock_end := 13000;
     new_scan_id := "scan-2";
     discovered := inr ["https://example.com/"; "https://example.com/new"];
     processUrl := changed_result |}.

Definition first_results : list CrawlResult :=
  List.map example_result ["https://example.com/"; "https://example.com/old"].

Definition second_results : list CrawlResult :=
  List.map changed_result ["https://example.com/"; "https://example.com/new"].

(** ** The inclusion predicate and the glob *)

(** A pattern matches a URL when matchesPattern returns true. *)
Definition matches (engine : regexp_engine) (url pattern : string) : bool :=
  match matchesPattern_on engine url pattern with
  | Returns true => true
  | _ => false
  end.

(** shouldInclude in the words of the specification. *)
Definition shouldInclude (engine : regexp_engine) (url : string)
    (includePatterns : list CrawlingPatternConfig)
    (excludePatterns : list string) : bool :=
  if existsb (matches engine url) excludePatterns then false
  else
    match includePatterns with
    | [] => true
    | _ => existsb (fun p => matches engine url (pattern p) && enabled p)
             includePatterns
    end.

(** The expression of the pattern is one the RegExp constructor of the
    engine accepts: the constructor returns. *)
Definition compiles (engine : regexp_engine) (pattern : string) : Prop :=
  exists regex, engine (regexPattern pattern) = Returns regex.

(** The matcher of the specification: the expression is anchored, and a
    character other than [*] and [?] stands for itself. *)
Fixpoint match_exact (r : list (atom * quantifier)) (s : list ascii) : bool :=
  match r with
  | [] => match s with [] => true | _ => false end
  | (a, q) :: r' =>
      match q with
      | Once =>
          match s with
          | c :: s' => accepts a c && match_exact r' s'
          | [] => false
          end
      | Star => match_repeat a (match_exact r') s
      | Plus =>
          match s with
          | c :: s' => accepts a c && match_repeat a (match_exact r') s'
          | [] => false
          end
      end
  end.

Definition escaped_item (c : ascii) : atom * quantifier :=
  if is_char c "*" then (AnyChar, Star)
  else if is_char c "?" then (AnyChar, Once)
  else (Lit c, Once).

Definition stated_matches (url pattern : string) : bool :=
  match_exact (List.map escaped_item (list_ascii_of_string pattern))
    (list_ascii_of_string url).

(** What the pattern matcher makes of a glob: [*] is any run of
    characters, [?] and [.] are any one character, and every other
    character is itself. *)
Definition glob_item (c : ascii) : atom * quantifier :=
  if is_char c "*" then (AnyChar, Star)
  else if is_char c "?" || is_char c "." then (AnyChar, Once)
  else (Lit c, Once).

Definition glob_items (pattern : string) : list (atom * quantifier) :=
  List.map glob_item (list_ascii_of_string pattern).

(** The characters of a glob: [*], [?], and the characters that are no
    syntax characters of a regular expression ([.] is read as above). *)
Definition glob_char (c : ascii) : bool :=
  negb (is_char c "+") && (is_char c "?" || negb (is_syntax c)).

Definition is_glob (pattern : string) : bool :=
  forallb glob_char (list_ascii_of_string pattern).

(** [fits r s]: the whole of [s] is an instance of [r]. *)
Inductive fits : list (atom * quantifier) -> list ascii -> Prop :=
  | fits_nil : fits [] []
  | fits_once a r c s :
      accepts a c = true -> fits r s -> fits ((a, Once) :: r) (c :: s)
  | fits_star a r run s :
      Forall (fun c => accepts a c = true) run -> fits r s ->
      fits ((a, Star) :: r) (run ++ s)%list
  | fits_plus a r c run s :
      accepts a c = true -> Forall (fun c => accepts a c = true) run ->
      fits r s -> fits ((a, Plus) :: r) (c :: run ++ s)%list.

Definition fits_prefix (r : list (atom * quantifier)) (s : list ascii) : Prop :=
  exists mid rest : list ascii, s = (mid ++ rest)%list /\ fits r mid.

Definition fits_inside (r : list (atom * quantifier)) (s : list ascii) : Prop :=
  exists before mid rest : list ascii,
    s = (before ++ mid ++ rest)%list /\ fits r mid.

(** The characters a glob character becomes in the expression. *)
Definition expand (c : ascii) : list ascii :=
  if is_char c "*" then ["."; "*"]%char
  else if is_char c "?" then ["."]%char
  else [c].

(** ** Settings objects *)

Definition is_nullish (v : value) : Prop := v = Null \/ v = Undefined.

(** Induction on a value, through its items and its fields. *)
Fixpoint value_induction (P : value -> Prop)
    (HUndefined : P Undefined) (HNull : P Null)
    (HBool : forall b, P (Bool b)) (HNum : forall n, P (Num n))
    (HStr : forall s, P (Str s))
    (HArr : forall items, Forall P items -> P (Arr items))
    (HObj : forall fields, Forall (fun kv => P kv.2) fields -> P (Obj fields))
    (v : value) {struct v} : P v :=
  let IH := value_induction P HUndefined HNull HBool HNum HStr HArr HObj in
  match v with
  | Undefined => HUndefined
  | Null => HNull
  | Bool b => HBool b
  | Num n => HNum n
  | Str s => HStr s
  | Arr items =>
      HArr items
        ((fix all (l : list value) : Forall P l :=
            match l with
            | [] => List.Forall_nil P
            | x :: l' => @List.Forall_cons _ P x l' (IH x) (all l')
            end) items)
  | Obj fields =>
      HObj fields
        ((fix all (l : list (string * value)) : Forall (fun kv => P kv.2) l :=
            match l with
            | [] => List.Forall_nil _
            | (k, x) :: l' =>
                @List.Forall_cons _ (fun kv => P kv.2) (k, x) l' (IH x) (all l')
            end) fields)
  end.

Definition default_settings : list (string * value) :=
  [ ("maxDepth", Num 3);
    ("includePatterns", Arr []);
    ("sitemap", Obj [("autoDetect", Bool true); ("urls", Arr [])]) ].

Definition stored_settings : list (string * value) :=
  [ ("maxDepth", Null);
    ("includePatterns", Arr [Str "/products/*"]);
    ("sitemap", Obj [("urls", Arr [Str "https://example.com/sitemap.xml"])]) ].

(** An override of ordinary keys: no object in it, at any depth, has a key
    named hasOwnProperty or __proto__.  (An array of the override is taken
    over whole, so what it holds does not matter.) *)
Definition ordinary_key (key : string) : bool :=
  negb (String.eqb key "hasOwnProperty") && negb (String.eqb key "__proto__").

Fixpoint ordinary (v : value) : bool :=
  match v with
  | Obj fields =>
      (fix all (l : list (string * value)) : bool :=
         match l with
         | [] => true
         | (key, x) :: rest => ordinary_key key && ordinary x && all rest
         end) fields
  | _ => true
  end.

(** The stored settings with one more key, named hasOwnProperty: an
    override that a settings row can hold. *)
Definition override_with_hasOwnProperty : list (string * value) :=
  (stored_settings ++ [ ("hasOwnProperty", Null) ])%list.

(** ** Breadcrumbs *)

(** The names a BreadcrumbList yields: the truthy [name] of each item. *)
Definition item_name (item : value) : value :=
  match get_prop "name" item with
  | Returns name => name
  | _ => Undefined
  end.

Definition names_of (items : list value) : list value :=
  List.filter truthy_value (List.map item_name items).

Definition is_null (v : value) : bool :=
  match v with
  | Null | Undefined => true
  | _ => false
  end.

(** The document

      <script type="application/ld+json">
      {"@type":"BreadcrumbList","itemListElement":[{"name":"Shop"},null]}
      </script>
      <nav class="breadcrumb"><a>Home<b>x</b></a></nav>

    as the function reads it: one script, and one text for the first
    selector. *)
Definition breadcrumb_list (items : list value) : value :=
  Obj [ ("@type", Str "BreadcrumbList"); ("itemListElement", Arr items) ].

Definition document_with_null_item : html_view :=
  {| jsonLdScripts :=
       [ Some (breadcrumb_list [ Obj [("name", Str "Shop")]; Null ]) ];
     selector_texts :=
       fun selector =>
         if String.eqb selector ".breadcrumb" then Some ["Home"] else None |}.

(** ** The comparison of two runs *)

Import RunComparison.

Definition impact_rank (i : impact_level) : nat :=
  match i with
  | low => 1
  | medium => 2
  | high => 3
  end.

Definition max_impact (a b : impact_level) : impact_level :=
  if (impact_rank a <? impact_rank b)%nat then b else a.

(** The severity in the words of the specification: the maximum impact of
    the changes, and none when there is no change. *)
Definition stated_severity (cs : list FieldChange) : option impact_level :=
  match cs with
  | [] => None
  | c :: rest => Some (fold_right max_impact (impact c) (List.map impact rest))
  end.

(** The maximum impact, [low] when there is no change. *)
Definition maximum_impact (cs : list FieldChange) : impact_level :=
  fold_right max_impact low (List.map impact cs).

Definition example_snapshot (t : string) : PageSnapshot :=
  {| url := "https://example.com/about"; title := Some t;
     metaDescription := Some "About the shop"; canonicalUrl := None;
     breadcrumbs := ["Home"; "About"];
     headers := [ {| level := 1; text := "About" |} ];
     customData := [("price", "10")] |}.

(** A page of which only the meta description was extracted. *)
Definition described_page : PageSnapshot :=
  {| url := "https://example.com/about"; title := None;
     metaDescription := Some "About the shop"; canonicalUrl := None;
     breadcrumbs := []; headers := []; customData := [] |}.

(** * The vocabulary of the further properties

    Predicates and reference functions for the properties that the code has
    beyond those the specification states. *)

(** ** More about the job queue *)

(** No row has been retried more often than it may be. *)
Definition retries_bounded (db : DB) : Prop :=
  forall id j, jobs db !! id = Some j -> retry_count j <= max_retries j.

(** ** More about the pattern matcher *)

(** A character that stands for itself in a pattern: no wildcard and no
    syntax character of a regular expression. *)
Definition literal_char (c : ascii) : bool :=
  glob_char c
  && negb (is_char c "*" || is_char c "?" || is_char c ".").

Definition is_literal (pattern : string) : bool :=
  forallb literal_char (list_ascii_of_string pattern).

(** ** More about the breadcrumbs *)

(** A script the JSON-LD loop passes over: its text is no JSON, or the
    parsed value is no BreadcrumbList. *)
Definition inert (parsed : option value) : Prop :=
  match parsed with
  | None => True
  | Some data =>
      match get_prop "@type" data with
      | Returns ty => is_BreadcrumbList ty = false
      | _ => True
      end
  end.

(** The crumbs one selector yields: the trimmed texts of its first match
    that are neither empty nor made of [>] and white space. *)
Definition crumbs_at (view : html_view) (selector : string) : list string :=
  match selector_texts view selector with
  | Some textMatches => List.filter is_crumb (List.map trim textMatches)
  | None => []
  end.

(** ** More about the comparison of two runs *)

(** The three changes a header can give rise to. *)
Definition removed_header (h : HeaderStructure) : FieldChange :=
  {| field := header_field h; type := removed; oldValue := Some (text h);
     newValue := None; impact := header_impact h |}.

Definition added_header (h : HeaderStructure) : FieldChange :=
  {| field := header_field h; type := added; oldValue := None;
     newValue := Some (text h); impact := header_impact h |}.

Definition modified_header (b c : HeaderStructure) : FieldChange :=
  {| field := header_field b; type := modified; oldValue := Some (text b);
     newValue := Some (text c); impact := header_impact b |}.

(** The header at a position, when it has the given level. *)
Definition header_at (hs : list HeaderStructure) (lvl : Z) (i : nat)
    : option HeaderStructure :=
  match hs !! i with
  | Some h => if bool_decide (level h = lvl) then Some h else None
  | None => None
  end.

(** The last snapshot of a URL in a list of snapshots. *)
Definition last_snapshot (u : string) (snapshots : list PageSnapshot)
    : option PageSnapshot :=
  List.find (fun s => bool_decide (url s = u)) (rev snapshots).

(** What the loop over the URLs guarantees for a result: the snapshot its
    change type speaks of is there. *)
Definition result_consistent (r : PageComparisonResult) : Prop :=
  match changeType r with
  | page_added => baseSnapshot r = None /\ is_Some (compareSnapshot r)
  | page_removed => is_Some (baseSnapshot r) /\ compareSnapshot r = None
  | page_modified =>
      is_Some (baseSnapshot r) /\ is_Some (compareSnapshot r)
      /\ changes r <> []
  | page_unchanged =>
      is_Some (baseSnapshot r) /\ is_Some (compareSnapshot r)
      /\ changes r = []
  end.

(** ** The headers of a page *)

(** The headers in the order the loops push them, before the sort. *)
Definition pushed_headers (heading_matches : Z -> list string)
    (maxLength : Z) (levels : list Z) : list HeaderStructure :=
  flat_map (headers_of_level heading_matches maxLength) levels.

Definition chosen_levels (config : header_config) : list Z :=
  default [1; 2; 3] (levels config).

Definition chosen_maxLength (config : header_config) : Z :=
  match maxLength config with
  | Some n => if n =? 0 then 200 else n
  | None => 200
  end.

Fixpoint sorted_by_level (headers : list HeaderStructure) : Prop :=
  match headers with
  | [] => True
  | h :: rest =>
      Forall (fun x => level h <= level x) rest /\ sorted_by_level rest
  end.

Fixpoint ascending (levels : list Z) : Prop :=
  match levels with
  | [] => True
  | l :: rest => Forall (fun x => l <= x) rest /\ ascending rest
  end.

Definition of_level (lvl : Z) (h : HeaderStructure) : bool :=
  level h =? lvl.

(** ** The discovery from sitemaps *)

(** What one sitemap yields by itself: its entries, unless the request
    fails or the document is a sitemap index. *)
Definition pages_of (fetch : string -> option sitemap_document)
    (sitemapUrl : string) : list string :=
  match fetch sitemapUrl with
  | Some content => if is_sitemapindex content then [] else locs content
  | None => []
  end.

(** The sitemaps the discovery reads: the enabled ones of the settings, or
    the three common locations when the settings name none and ask for
    detection. *)
Definition sitemaps_read (resolve : string -> string)
    (settings : SitemapSettings) : list string :=
  match urls settings with
  | [] => if autoDetect settings then List.map resolve commonPaths else []
  | _ :: _ =>
      List.map sitemap_url (List.filter sitemap_enabled (urls settings))
  end.

(** * Properties *)

#[local] Open Scope list_scope.

(** ** The job state machine *)

(** *** Lookups after the table operations *)

Lemma lookup_alter_jobs (f : job -> job) (jobId id : string) (db : DB) :
  jobs (with_jobs (alter f jobId) db) !! id
  = if decide (jobId = id) then f <$> jobs db !! id else jobs db !! id.
Proof.
  unfold with_jobs; simpl. destruct (decide (jobId = id)) as [-> | Hne].
  - apply lookup_alter_eq.
  - apply lookup_alter_ne. exact Hne.
Qed.

Lemma elem_of_select_ids (P : job -> bool) (t : gmap string job) (k : string) :
  k ∈ select_ids P t <-> exists j, t !! k = Some j /\ P j = true.
Proof.
  unfold select_ids. rewrite elem_of_dom. split.
  - intros [j Hj]. apply map_lookup_filter_Some in Hj. exists j. exact Hj.
  - intros [j [Hj HP]]. exists j. apply map_lookup_filter_Some. split; assumption.
Qed.

Lemma lookup_update_in (ids : gset string) (f : job -> job)
    (t : gmap string job) (k : string) :
  update_in ids f t !! k
  = (fun j => if decide (k ∈ ids) then f j else j) <$> t !! k.
Proof.
  unfold update_in. rewrite map_lookup_imap.
  destruct (t !! k); reflexivity.
Qed.

Lemma lookup_delete_in_Some (ids : gset string) (t : gmap string job)
    (k : string) (j : job) :
  delete_in ids t !! k = Some j <-> t !! k = Some j /\ k ∉ ids.
Proof. unfold delete_in. apply map_lookup_filter_Some. Qed.

(** *** The row updates and the invariant *)

Lemma batch_progress_bounds (processed total : nat) :
  (processed <= total)%nat -> (0 < total)%nat ->
  25 <= batch_progress processed total <= 75.
Proof.
  intros Hle Hpos. unfold batch_progress.
  assert (0 <= Z.of_nat processed * 50 / Z.of_nat total <= 50) as H.
  { split.
    - apply Z.div_pos; lia.
    - apply Z.div_le_upper_bound; lia. }
  lia.
Qed.

Ltac invariant_cases Hst :=
  unfold job_invariant in *; simpl in *;
  try rewrite Hst in *; simpl in *;
  intuition (try congruence; try lia).





Lemma update_running_invariant (p : Z) (msg : option string) (now : Z)
    (j : job) :
  status j = queued \/ status j = running -> p <> 100 ->
  job_invariant j ->
  job_invariant (update_status_row running p None msg now (started_at j) j).
Proof.
  intros [Hst | Hst] Hp Hinv; invariant_cases Hst;
    destruct (started_at j); simpl in *; congruence.
Qed.

Lemma update_finished_invariant (st : job_status) (p : Z)
    (res : option job_result) (msg : option string) (now : Z)
    (startTime : option Z) (j : job) :
  status j = running ->
  (st = completed /\ p = 100) \/ (st = failed /\ p = 0) ->
  job_invariant j ->
  job_invariant (update_status_row st p res msg now startTime j).
Proof.
  intros Hst [[-> ->] | [-> ->]] Hinv; invariant_cases Hst.
Qed.

Lemma run_call_row_invariant (c : orchestrator_call) (jobId : string)
    (now : Z) (db : DB) (j : job) :
  jobs db !! jobId = Some j ->
  in_order (Update jobId c) db ->
  job_invariant j ->
  exists f, run_call jobId c now db = with_jobs (alter f jobId) db
            /\ job_invariant (f j).
Proof.
  intros Hj Hord Hinv. specialize (Hord j Hj).
  assert (getJobStartTime jobId db = started_at j) as Hstart
    by (unfold getJobStartTime; now rewrite Hj).
  destruct c; simpl in *; unfold updateJobStatus; rewrite Hstart;
    eexists; (split; [reflexivity |]).
  - apply update_running_invariant; [assumption | lia | assumption].
  - apply update_running_invariant; [now right | lia | assumption].
  - destruct Hord as (Hst & Hle & Hpos).
    pose proof (batch_progress_bounds _ _ Hle Hpos).
    apply update_running_invariant; [now right | lia | assumption].
  - apply update_running_invariant; [now right | lia | assumption].
  - apply update_finished_invariant; [assumption | now left | assumption].
  - apply update_finished_invariant; [assumption | now right | assumption].
Qed.

Lemma alter_jobs_invariant (f : job -> job) (jobId : string) (db : DB) :
  (forall j, jobs db !! jobId = Some j -> job_invariant (f j)) ->
  jobs_invariant db -> jobs_invariant (with_jobs (alter f jobId) db).
Proof.
  intros Hf Hdb id j. rewrite lookup_alter_jobs.
  destruct (decide (jobId = id)) as [-> | Hne].
  - destruct (jobs db !! id) as [j0 |] eqn:Hj0; simpl; [| discriminate].
    intros [= <-]. apply Hf. reflexivity.
  - apply Hdb.
Qed.


(** *** The invariants of the job rows *)

Lemma run_call_invariant (jobId : string) (c : orchestrator_call) (now : Z)
    (db : DB) :
  jobs_invariant db ->
  in_order (Update jobId c) db ->
  jobs_invariant (run_call jobId c now db).
Proof.
  intros Hdb Hord. destruct (jobs db !! jobId) as [j |] eqn:Hj.
  - destruct (run_call_row_invariant c jobId now db j Hj Hord (Hdb _ _ Hj))
      as (f & -> & Hf).
    apply alter_jobs_invariant; [| exact Hdb].
    intros j' Hj'. assert (j' = j) as -> by congruence. exact Hf.
  - assert (exists f, run_call jobId c now db = with_jobs (alter f jobId) db)
      as [f ->] by (destruct c; simpl; eexists; reflexivity).
    apply alter_jobs_invariant; [| exact Hdb]. intros j' Hj'. congruence.
Qed.





(** processJob issues its calls in order: started on a queued or running
    job, it keeps the invariant of every row. *)
Lemma fold_batches_invariant (jobId : string) (total : nat) (now : Z)
    (marks : list nat) (db : DB) :
  (0 < total)%nat -> Forall (fun m => (m <= total)%nat) marks ->
  jobs_invariant db ->
  (forall j, jobs db !! jobId = Some j -> status j = running) ->
  let db' :=
    fold_left
      (fun d processed =>
         updateJobStatus jobId running (batch_progress processed total)
           None None now d) marks db in
  jobs_invariant db'
  /\ (forall j, jobs db' !! jobId = Some j -> status j = running).
Proof.
  intros Hpos Hmarks. revert db.
  induction Hmarks as [| m marks Hm _ IH]; intros db Hdb Hrun; simpl.
  - split; assumption.
  - apply IH.
    + apply (run_call_invariant jobId (Batch m total) now db Hdb).
      intros j Hj. simpl. auto.
    + intros j. unfold updateJobStatus. rewrite lookup_alter_jobs.
      destruct (decide (jobId = jobId)); [| congruence].
      destruct (jobs db !! jobId); simpl; [| discriminate].
      intros [= <-]. reflexivity.
Qed.

Lemma batch_marks_bounded (fuel : nat) (maxConcurrency : positive)
    (remaining processed total : nat) :
  (processed + remaining <= total)%nat ->
  Forall (fun m => (m <= total)%nat)
    (batch_marks fuel maxConcurrency remaining processed).
Proof.
  revert remaining processed.
  induction fuel as [| fuel IH]; intros remaining processed Hle; simpl.
  - constructor.
  - destruct remaining as [| r]; [constructor |].
    constructor; [lia |]. apply IH. lia.
Qed.

Lemma status_after_update (jobId : string) (st : job_status) (p : Z)
    (res : option job_result) (msg : option string) (now : Z) (db : DB)
    (j : job) :
  jobs (updateJobStatus jobId st p res msg now db) !! jobId = Some j ->
  status j = st.
Proof.
  unfold updateJobStatus. rewrite lookup_alter_jobs.
  destruct (decide (jobId = jobId)); [| congruence].
  destruct (jobs db !! jobId); simpl; [| discriminate].
  intros [= <-]. reflexivity.
Qed.

Lemma processJob_keeps_job_invariant (maxConcurrency : positive) (w : world)
    (jobId : string) (db : DB) :
  jobs_invariant db ->
  (forall j, jobs db !! jobId = Some j ->
             status j = queued \/ status j = running) ->
  jobs_invariant (processJob maxConcurrency w jobId db).
Proof.
  intros Hdb Hst. unfold processJob.
  destruct (jobs db !! jobId) as [j |] eqn:Hj.
  2:{ apply (run_call_invariant jobId (Fail "Job not found") _ db Hdb).
      intros j Hj'. congruence. }
  set (db1 := updateJobStatus jobId running 0 None None (clock_start w) db).
  assert (jobs_invariant db1) as Hdb1.
  { apply (run_call_invariant jobId Begin _ db Hdb).
    intros j' Hj'. simpl. apply Hst. congruence. }
  assert (forall j', jobs db1 !! jobId = Some j' -> status j' = running) as Hrun1
    by (intros j'; apply status_after_update).
  destruct (websites db1 !! website_id j).
  2:{ apply (run_call_invariant jobId (Fail "Website not found") _ db1 Hdb1).
      exact Hrun1. }
  set (db2 := with_scans _ db1).
  assert (jobs_invariant db2) as Hdb2 by exact Hdb1.
  assert (forall j', jobs db2 !! jobId = Some j' -> status j' = running) as Hrun2
    by exact Hrun1.
  destruct (discovered w) as [msg | urls].
  { apply (run_call_invariant jobId (Fail msg) _ db2 Hdb2). exact Hrun2. }
  set (db3 := updateJobStatus jobId running 25 None None (clock_start w) db2).
  assert (jobs_invariant db3) as Hdb3
    by (apply (run_call_invariant jobId Discovered _ db2 Hdb2); exact Hrun2).
  assert (forall j', jobs db3 !! jobId = Some j' -> status j' = running) as Hrun3
    by (intros j'; apply status_after_update).
  unfold processUrlsBatch.
  set (db4 := fold_left _ _ db3).
  assert (jobs_invariant db4
          /\ (forall j', jobs db4 !! jobId = Some j' -> status j' = running))
    as [Hdb4 Hrun4].
  { destruct urls as [| u urls'].
    - simpl in db4. split; assumption.
    - apply fold_batches_invariant; try assumption.
      + simpl. lia.
      + apply batch_marks_bounded. lia. }
  set (db5 := updateJobStatus jobId running 75 None None (clock_end w) db4).
  assert (jobs_invariant db5) as Hdb5
    by (apply (run_call_invariant jobId Processed _ db4 Hdb4); exact Hrun4).
  assert (forall j', jobs db5 !! jobId = Some j' -> status j' = running) as Hrun5
    by (intros j'; apply status_after_update).
  match goal with
  | |- jobs_invariant (updateJobStatus _ completed 100 (Some ?r) None ?t ?d) =>
      apply (run_call_invariant jobId (Complete r) t d)
  end.
  - exact Hdb5.
  - exact Hrun5.
Qed.

(** *** The reaper *)

(** A job running for three hours and the scan it started: the reaper
    fails the job and leaves the scan running. *)
Lemma reaper_leaves_scan_running :
  status <$> jobs (maintainJobs three_hours (example_db running (Some 0))).2
             !! "job-1"
  = Some failed
  /\ scan_status_of
       <$> scans (maintainJobs three_hours (example_db running (Some 0))).2
           !! "scan-1"
     = Some scan_running
  /\ ~ reaper_fails_scan three_hours (example_db running (Some 0)).
Proof.
  split; [vm_compute; reflexivity |].
  split; [vm_compute; reflexivity |].
  intros Hfails.
  specialize (Hfails "job-1" (example_job running (Some 0)) 0 "scan-1"
                example_scan).
  assert (Some scan_running = Some scan_failed) as Habs; [| discriminate].
  apply Hfails; vm_compute; reflexivity.
Qed.

(** C7 (as amended).  One cycle of the reaper takes every job that is
    running and was started more than two hours before to [failed], with
    the message "Job timed out after 2 hours" and [completed_at] set; it
    does not queue the job again and leaves its retry count as it was; and
    it writes to no scan row. *)
Theorem maintainJobs_fails_stuck_jobs (now : Z) (db : DB) (jobId : string)
    (j : job) (t : Z) :
  jobs db !! jobId = Some j ->
  status j = running ->
  started_at j = Some t ->
  t < now - two_hours ->
  jobs (maintainJobs now db).2 !! jobId = Some (time_out_row now j)
  /\ status (time_out_row now j) = failed
  /\ error_message (time_out_row now j) = Some "Job timed out after 2 hours"
  /\ completed_at (time_out_row now j) = Some now
  /\ retry_count (time_out_row now j) = retry_count j
  /\ scans (maintainJobs now db).2 = scans db.
Proof.
  intros Hj Hst Hstart Hold.
  split; [| repeat split].
  unfold maintainJobs; simpl.
  apply lookup_delete_in_Some. split.
  - rewrite lookup_update_in, Hj. simpl.
    destruct (decide _) as [_ | Hnot]; [reflexivity |].
    exfalso. apply Hnot. apply elem_of_select_ids. exists j. split; [exact Hj |].
    unfold is_stuck. rewrite Hst, Hstart. apply Z.ltb_lt. exact Hold.
  - intros Hin. apply elem_of_select_ids in Hin.
    destruct Hin as (j' & Hj' & Hold').
    rewrite lookup_update_in, Hj in Hj'. simpl in Hj'.
    destruct (decide _) as [_ | Hnot].
    + injection Hj' as <-. unfold is_old in Hold'. simpl in Hold'.
      apply Z.ltb_lt in Hold'. unfold thirty_days in Hold'. lia.
    + apply Hnot. apply elem_of_select_ids. exists j. split; [exact Hj |].
      unfold is_stuck. rewrite Hst, Hstart. apply Z.ltb_lt. exact Hold.
Qed.

Lemma maintainJobs_fails_stuck_jobs_witness :
  jobs (maintainJobs three_hours (example_db running (Some 0))).2 !! "job-1"
  = Some (time_out_row three_hours (example_job running (Some 0))).
Proof.
  apply (maintainJobs_fails_stuck_jobs three_hours
           (example_db running (Some 0)) "job-1"
           (example_job running (Some 0)) 0);
    vm_compute; reflexivity.
Defined.

(** *** The retry *)

(** C9.  retryFailedJob rejects, and leaves the database as it is, when
    the retry count has reached the maximum.  Otherwise it resolves, and the
    only row it can change is the one of the job: it changes it only if its
    status is failed, to a queued row with the retry count incremented,
    [progress] 0 and [error_message], [started_at] and [completed_at]
    cleared. *)
Theorem retryFailedJob_requeues_failed_jobs (jobId : string) (now : Z)
    (db : DB) (j : job) :
  jobs db !! jobId = Some j ->
  (max_retries j <= retry_count j ->
     exists message, retryFailedJob jobId now db = (inl message, db))
  /\ (retry_count j < max_retries j ->
        exists db',
          retryFailedJob jobId now db = (inr tt, db')
          /\ (forall other, other <> jobId ->
                jobs db' !! other = jobs db !! other)
          /\ scans db' = scans db
          /\ (status j <> failed -> jobs db' !! jobId = Some j)
          /\ (status j = failed ->
                exists j',
                  jobs db' !! jobId = Some j'
                  /\ status j' = queued
                  /\ retry_count j' = retry_count j + 1
                  /\ progress j' = 0
                  /\ error_message j' = None
                  /\ started_at j' = None
                  /\ completed_at j' = None
                  /\ max_retries j' = max_retries j
                  /\ website_id j' = website_id j)).
Proof.
  intros Hj. unfold retryFailedJob. rewrite Hj. split.
  - intros Hmax.
    assert ((retry_count j >=? max_retries j) = true) as -> by lia.
    eexists. reflexivity.
  - intros Hless.
    assert ((retry_count j >=? max_retries j) = false) as -> by lia.
    eexists. split; [reflexivity |].
    split; [| split; [reflexivity | split]].
    + intros other Hne. rewrite lookup_alter_jobs.
      destruct (decide (jobId = other)); congruence.
    + intros Hst. rewrite lookup_alter_jobs.
      destruct (decide (jobId = jobId)); [| congruence].
      rewrite Hj. simpl. unfold retry_row.
      destruct (status j); congruence.
    + intros Hst. exists (retry_row (retry_count j) now j). split.
      * rewrite lookup_alter_jobs.
        destruct (decide (jobId = jobId)); [| congruence].
        rewrite Hj. reflexivity.
      * unfold retry_row. rewrite Hst. simpl. repeat split; reflexivity.
Qed.

Lemma retryFailedJob_requeues_failed_jobs_witness :
  exists db',
    retryFailedJob "job-1" 9 (example_db failed (Some 5)) = (inr tt, db')
    /\ status <$> jobs db' !! "job-1" = Some queued.
Proof.
  destruct (retryFailedJob_requeues_failed_jobs "job-1" 9
              (example_db failed (Some 5)) (example_job failed (Some 5))
              eq_refl) as [_ Hretry].
  destruct Hretry as (db' & Hrun & _ & _ & _ & Hfailed); [simpl; lia |].
  exists db'. split; [exact Hrun |].
  destruct (Hfailed eq_refl) as (j' & Hlookup & Hstatus & _).
  rewrite Hlookup. simpl. rewrite Hstatus. reflexivity.
Defined.

(** ** The counters of a completed scan *)

Lemma scans_fold_update (jobId : string) (total : nat) (now : Z)
    (marks : list nat) (db : DB) :
  scans
    (fold_left
       (fun d processed =>
          updateJobStatus jobId running (batch_progress processed total)
            None None now d) marks db)
  = scans db.
Proof.
  revert db. induction marks as [| m marks IH]; intros db; simpl.
  - reflexivity.
  - rewrite IH. reflexivity.
Qed.

(** The second of two identical scans reports its page as new: the page is
    in the previous scan, with the same hash, and the specification counts
    no new page. *)
Lemma second_scan_counts_known_page_as_new :
  let db1 := processJob 20 (example_world "scan-1" 1000) "job-1"
               example_site_db in
  let db2 := processJob 20 (example_world "scan-2" 9000) "job-2" db1 in
  scan_status_of <$> scans db1 !! "scan-1" = Some scan_completed
  /\ new_pages <$> scans db2 !! "scan-2" = Some 1
  /\ stated_newPages example_results example_results = 0
  /\ forall s, scans db2 !! "scan-2" = Some s ->
               ~ stated_counters example_results example_results s.
Proof.
  split; [vm_compute; reflexivity |].
  split; [vm_compute; reflexivity |].
  split; [vm_compute; reflexivity |].
  intros s Hs [Hnew _]. revert Hs. vm_compute. intros Hs.
  injection Hs as <-. vm_compute in Hnew. discriminate.
Qed.

(** The second scan of a site that changed: one page is new, one is gone
    and one has another body, and every page answers 200.  The scan row
    has two new pages and no removed or changed page, where the
    specification counts one of each; the error pages agree. *)
Lemma second_scan_ignores_previous_scan :
  let db1 := processJob 20 first_visit "job-1" example_site_db in
  let db2 := processJob 20 second_visit "job-2" db1 in
  scan_status_of <$> scans db1 !! "scan-1" = Some scan_completed
  /\ (fun s => (new_pages s, removed_pages s, changed_pages s, error_pages s))
       <$> scans db2 !! "scan-2"
     = Some (2, 0, 0, 0)
  /\ (stated_newPages first_results second_results,
      stated_removedPages first_results second_results,
      stated_changedPages first_results second_results,
      stated_errorPages second_results)
     = (1, 1, 1, 0)
  /\ forall s, scans db2 !! "scan-2" = Some s ->
               ~ stated_counters first_results second_results s.
Proof.
  split; [vm_compute; reflexivity |].
  split; [vm_compute; reflexivity |].
  split; [vm_compute; reflexivity |].
  intros s Hs [Hnew _]. revert Hs. vm_compute. intros Hs.
  injection Hs as <-. vm_compute in Hnew. discriminate.
Qed.

(** C1 (as amended).  When processJob completes a scan, the counters of
    the scan row are computed from the new results alone, no previous scan
    being read: [total_pages] is their number, [new_pages] the number of
    results with response code 200, and [changed_pages] and [removed_pages]
    stay 0.  Where no result has a response code below 200 (no URL failed
    outright), [error_pages] is the number of results with response code
    outside [200,400), as the specification has it. *)
Theorem processJob_counts_from_results (maxConcurrency : positive) (w : world)
    (jobId : string) (db : DB) (j : job) (site : website)
    (urls : list string) :
  jobs db !! jobId = Some j ->
  websites db !! website_id j = Some site ->
  discovered w = inr urls ->
  exists s,
    scans (processJob maxConcurrency w jobId db) !! new_scan_id w = Some s
    /\ scan_status_of s = scan_completed
    /\ total_pages s = Z.of_nat (length urls)
    /\ new_pages s
       = count_results (fun r => response_code r =? 200)
           (List.map (processUrl w) urls)
    /\ changed_pages s = 0
    /\ removed_pages s = 0
    /\ (Forall (fun r => 200 <= response_code r)
          (List.map (processUrl w) urls) ->
        error_pages s = stated_errorPages (List.map (processUrl w) urls)).
Proof.
  intros Hj Hsite Hurls.
  exists (complete_scan (clock_end w) urls (List.map (processUrl w) urls)
            (new_scan j (clock_start w))).
  split.
  - unfold processJob. rewrite Hj. simpl. rewrite Hsite, Hurls. simpl.
    rewrite lookup_alter_eq, scans_fold_update. simpl.
    rewrite lookup_insert_eq. reflexivity.
  - simpl. rewrite length_map. repeat split.
    intros Hcodes. unfold stated_errorPages, count_results. do 2 f_equal.
    induction Hcodes as [| r rs Hr _ IH]; simpl; [reflexivity |].
    unfold in_success_range at 1.
    destruct (response_code r >=? 400) eqn:Hge;
      [assert ((response_code r <? 400) = false) as -> by lia
      | assert ((response_code r <? 400) = true) as -> by lia];
      assert ((200 <=? response_code r) = true) as -> by lia; simpl;
      rewrite IH; reflexivity.
Qed.

Lemma processJob_counts_from_results_witness :
  exists s,
    scans (processJob 20 (example_world "scan-1" 1000) "job-1" example_site_db)
      !! "scan-1" = Some s
    /\ scan_status_of s = scan_completed
    /\ new_pages s = 1
    /\ error_pages s = stated_errorPages example_results.
Proof.
  destruct (processJob_counts_from_results 20 (example_world "scan-1" 1000)
              "job-1" example_site_db (example_job queued None)
              {| site_url := "https://example.com/";
                 site_last_scan := 0; site_total_pages := 0;
                 site_new_pages := 0; site_changed_pages := 0;
                 site_removed_pages := 0 |}
              ["https://example.com/"] eq_refl eq_refl eq_refl)
    as (s & Hs & Hstatus & _ & Hnew & _ & _ & Herrors).
  exists s. split; [exact Hs |]. split; [exact Hstatus |].
  split; [rewrite Hnew; reflexivity |].
  apply Herrors. repeat constructor. discriminate.
Defined.

(** ** The inclusion predicate *)

(** On the modelled part of the engine, matchesPattern_on is
    matchesPattern. *)
Lemma matchesPattern_on_modelled (url pattern : string) :
  matchesPattern_on modelled_engine url pattern = matchesPattern url pattern.
Proof.
  unfold matchesPattern_on, modelled_engine, matchesPattern, RegExp_test.
  destruct (parse_regexp _); reflexivity.
Qed.

Lemma matchesPattern_compiles (engine : regexp_engine)
    (url pattern : string) :
  compiles engine pattern ->
  matchesPattern_on engine url pattern
  = Returns (matches engine url pattern).
Proof.
  intros [regex Hregex]. unfold matches, matchesPattern_on.
  rewrite Hregex. simpl. destruct (regex url); reflexivity.
Qed.

Lemma exclude_loop_compiles (engine : regexp_engine) (url : string)
    (excludePatterns : list string) :
  Forall (compiles engine) excludePatterns ->
  exclude_loop engine url excludePatterns
  = Returns (existsb (matches engine url) excludePatterns).
Proof.
  induction 1 as [| p rest Hp _ IH]; simpl; [reflexivity |].
  rewrite (matchesPattern_compiles engine url p Hp). simpl.
  destruct (matches engine url p); simpl; [reflexivity | exact IH].
Qed.

Lemma include_loop_compiles (engine : regexp_engine) (url : string)
    (includePatterns : list CrawlingPatternConfig) :
  Forall (fun p => enabled p = true -> compiles engine (pattern p))
    includePatterns ->
  include_loop engine url includePatterns
  = Returns (existsb (fun p => matches engine url (pattern p) && enabled p)
               includePatterns).
Proof.
  induction 1 as [| p rest Hp _ IH]; simpl; [reflexivity |].
  destruct (enabled p) eqn:Hen.
  - rewrite (matchesPattern_compiles engine url (pattern p) (Hp eq_refl)).
    simpl.
    destruct (matches engine url (pattern p)); simpl;
      [reflexivity | exact IH].
  - rewrite andb_false_r. simpl. exact IH.
Qed.

Lemma existsb_Permutation {A} (f : A -> bool) (l l' : list A) :
  Permutation l l' -> existsb f l = existsb f l'.
Proof.
  induction 1 as [| x l l' _ IH | x y l | l l' l'' _ IH1 _ IH2]; simpl.
  - reflexivity.
  - rewrite IH. reflexivity.
  - destruct (f x), (f y); reflexivity.
  - congruence.
Qed.

(** The pattern "+" is no regular expression: the predicate raises the
    SyntaxError of the RegExp constructor where the specification has it
    return true. *)
Lemma matchesPatterns_raises_on_invalid_pattern :
  matchesPatterns modelled_engine "https://example.com/a" [] ["+"]
  = Throws "SyntaxError"
  /\ matchesPattern "https://example.com/a" "+" = Throws "SyntaxError"
  /\ shouldInclude modelled_engine "https://example.com/a" [] ["+"] = true
  /\ matchesPatterns modelled_engine "https://example.com/a" [] ["+"]
     <> Returns (shouldInclude modelled_engine "https://example.com/a" []
                   ["+"]).
Proof. vm_compute. repeat split; discriminate. Qed.

(** C3 (as amended).  Whatever the regular expression engine of the host:
    when the exclude patterns and the enabled include patterns are
    expressions its RegExp constructor accepts, the inclusion predicate
    returns false if an exclude pattern matches the URL; otherwise true if
    there is no include pattern; otherwise whether some enabled include
    pattern matches the URL.  The order of the include patterns does not
    change the result. *)
Theorem matchesPatterns_is_shouldInclude (engine : regexp_engine)
    (url : string) (includePatterns : list CrawlingPatternConfig)
    (excludePatterns : list string) :
  Forall (compiles engine) excludePatterns ->
  Forall (fun p => enabled p = true -> compiles engine (pattern p))
    includePatterns ->
  matchesPatterns engine url includePatterns excludePatterns
  = Returns (shouldInclude engine url includePatterns excludePatterns)
  /\ (existsb (matches engine url) excludePatterns = true ->
      shouldInclude engine url includePatterns excludePatterns = false)
  /\ forall reordered,
       Permutation includePatterns reordered ->
       matchesPatterns engine url reordered excludePatterns
       = matchesPatterns engine url includePatterns excludePatterns.
Proof.
  intros Hex Hin.
  assert (forall l,
            Forall (fun p => enabled p = true -> compiles engine (pattern p))
              l ->
            matchesPatterns engine url l excludePatterns
            = Returns (shouldInclude engine url l excludePatterns)) as Hrun.
  { intros l Hl. unfold matchesPatterns, shouldInclude.
    rewrite (exclude_loop_compiles engine url excludePatterns Hex). simpl.
    destruct (existsb (matches engine url) excludePatterns); [reflexivity |].
    destruct l as [| p rest]; [reflexivity |].
    apply include_loop_compiles. exact Hl. }
  split; [apply Hrun; exact Hin |].
  split.
  - intros Hmatch. unfold shouldInclude. rewrite Hmatch. reflexivity.
  - intros reordered Hperm.
    rewrite (Hrun includePatterns Hin).
    rewrite (Hrun reordered).
    2:{ rewrite <- Hperm. exact Hin. }
    f_equal. unfold shouldInclude.
    destruct (existsb (matches engine url) excludePatterns);
      [reflexivity |].
    rewrite <- (existsb_Permutation _ _ _ Hperm).
    destruct includePatterns as [| p rest].
    + apply Permutation_nil in Hperm. subst. reflexivity.
    + destruct reordered as [| q rest']; [| reflexivity].
      symmetry in Hperm. apply Permutation_nil in Hperm. discriminate.
Qed.

Lemma compiles_products : compiles modelled_engine "/products/*".
Proof. eexists. vm_compute. reflexivity. Defined.

Lemma compiles_private : compiles modelled_engine "/products/private/*".
Proof. eexists. vm_compute. reflexivity. Defined.

Lemma matchesPatterns_is_shouldInclude_witness :
  matchesPatterns modelled_engine "https://example.com/products/a"
    [ {| pattern := "/products/*"; enabled := true |} ]
    [ "/products/private/*" ]
  = Returns true.
Proof.
  destruct (matchesPatterns_is_shouldInclude modelled_engine
              "https://example.com/products/a"
              [ {| pattern := "/products/*"; enabled := true |} ]
              [ "/products/private/*" ]) as [Hrun _].
  - repeat constructor. exact compiles_private.
  - repeat constructor. intros _. exact compiles_products.
  - rewrite Hrun. vm_compute. reflexivity.
Defined.

(** ** The pattern matcher and the glob *)

Lemma match_repeat_spec (a : atom) (k : list ascii -> bool) (s : list ascii) :
  match_repeat a k s = true
  <-> exists run rest : list ascii,
        s = (run ++ rest)%list /\ Forall (fun c => accepts a c = true) run
        /\ k rest = true.
Proof.
  induction s as [| c s IH]; simpl.
  - rewrite orb_false_r. split.
    + intros Hk. exists [], []. auto.
    + intros (run & rest & Heq & _ & Hk).
      symmetry in Heq. apply app_eq_nil in Heq. destruct Heq as [_ ->].
      exact Hk.
  - rewrite orb_true_iff, andb_true_iff, IH. split.
    + intros [Hk | [Hc (run & rest & -> & Hrun & Hk)]].
      * exists [], (c :: s). auto.
      * exists (c :: run), rest. auto.
    + intros (run & rest & Heq & Hrun & Hk).
      destruct run as [| d run]; simpl in Heq.
      * left. subst rest. exact Hk.
      * right. injection Heq as -> ->. inversion Hrun; subst.
        split; [assumption |]. exists run, rest. auto.
Qed.

Lemma match_here_fits (r : list (atom * quantifier)) (s : list ascii) :
  match_here r s = true <-> fits_prefix r s.
Proof.
  revert s. induction r as [| [a q] r IH]; intros s.
  - simpl. split; [| reflexivity].
    intros _. exists [], s. split; [reflexivity | constructor].
  - destruct q; simpl.
    + destruct s as [| c s].
      * split; [discriminate |].
        intros (mid & rest & Heq & Hfit). inversion Hfit; subst. discriminate.
      * rewrite andb_true_iff, IH. split.
        -- intros [Hc (mid & rest & -> & Hfit)].
           exists (c :: mid), rest. split; [reflexivity | now constructor].
        -- intros (mid & rest & Heq & Hfit).
           inversion Hfit as [| ? ? d mid' Hd Hfit' | |]; subst.
           injection Heq as -> ->. split; [assumption |].
           exists mid', rest. auto.
    + rewrite match_repeat_spec. split.
      * intros (run & rest & -> & Hrun & Hk). apply IH in Hk.
        destruct Hk as (mid & rest' & -> & Hfit).
        exists (run ++ mid), rest'. split; [apply app_assoc | now constructor].
      * intros (mid & rest & -> & Hfit).
        inversion Hfit as [| | ? ? run mid' Hrun Hfit' |]; subst.
        exists run, (mid' ++ rest). split; [symmetry; apply app_assoc |].
        split; [assumption |]. apply IH. exists mid', rest. auto.
    + destruct s as [| c s].
      * split; [discriminate |].
        intros (mid & rest & Heq & Hfit). inversion Hfit; subst. discriminate.
      * rewrite andb_true_iff, match_repeat_spec. split.
        -- intros [Hc (run & rest & -> & Hrun & Hk)]. apply IH in Hk.
           destruct Hk as (mid & rest' & -> & Hfit).
           exists (c :: run ++ mid), rest'. split.
           ++ simpl. f_equal. apply app_assoc.
           ++ now constructor.
        -- intros (mid & rest & Heq & Hfit).
           inversion Hfit as [| | | ? ? d run mid' Hd Hrun Hfit']; subst.
           simpl in Heq. injection Heq as -> ->. split; [assumption |].
           exists run, (mid' ++ rest). split; [symmetry; apply app_assoc |].
           split; [assumption |]. apply IH. exists mid', rest. auto.
Qed.

Lemma match_anywhere_fits (r : list (atom * quantifier)) (s : list ascii) :
  match_anywhere r s = true <-> fits_inside r s.
Proof.
  induction s as [| c s IH]; simpl.
  - rewrite orb_false_r, match_here_fits. split.
    + intros (mid & rest & Heq & Hfit). exists [], mid, rest. auto.
    + intros (before & mid & rest & Heq & Hfit).
      symmetry in Heq. apply app_eq_nil in Heq. destruct Heq as [_ Heq].
      exists mid, rest. auto.
  - rewrite orb_true_iff, match_here_fits, IH. split.
    + intros [(mid & rest & Heq & Hfit) | (before & mid & rest & -> & Hfit)].
      * exists [], mid, rest. auto.
      * exists (c :: before), mid, rest. auto.
    + intros (before & mid & rest & Heq & Hfit).
      destruct before as [| d before]; simpl in Heq.
      * left. exists mid, rest. auto.
      * right. injection Heq as -> ->. exists before, mid, rest. auto.
Qed.

(** *** The expression of a glob *)

Lemma list_ascii_of_string_append (a b : string) :
  list_ascii_of_string (a +:+ b)
  = list_ascii_of_string a ++ list_ascii_of_string b.
Proof. induction a as [| c a IH]; simpl; [reflexivity | now rewrite IH]. Qed.

Lemma list_ascii_of_replace_all (c : ascii) (by_ s : string) :
  list_ascii_of_string (replace_all c by_ s)
  = flat_map (fun d => if is_char d c then list_ascii_of_string by_ else [d])
      (list_ascii_of_string s).
Proof.
  induction s as [| d s IH]; simpl; [reflexivity |].
  destruct (is_char d c); simpl.
  - now rewrite list_ascii_of_string_append, IH.
  - now rewrite IH.
Qed.

Lemma list_ascii_of_regexPattern (pattern : string) :
  list_ascii_of_string (regexPattern pattern)
  = flat_map expand (list_ascii_of_string pattern).
Proof.
  unfold regexPattern. rewrite !list_ascii_of_replace_all.
  generalize (list_ascii_of_string pattern) as l.
  induction l as [| c l IH]; [reflexivity |].
  cbn [flat_map]. rewrite flat_map_app, IH. f_equal.
  unfold expand. destruct (is_char c "*"); [reflexivity |].
  cbn. rewrite app_nil_r. destruct (is_char c "?"); reflexivity.
Qed.

Lemma is_char_eq (c d : ascii) : is_char c d = true <-> c = d.
Proof. apply Ascii.eqb_eq. Qed.

Lemma expand_head (c : ascii) (l : list ascii) :
  glob_char c = true ->
  exists q rest, expand c ++ l = q :: rest
                 /\ (is_char c "*" = false -> rest = l /\ q = (if is_char c "?" then "."%char else c))
                 /\ is_repeat q = false /\ is_syntax q = false.
Proof.
  unfold glob_char, expand. intros Hc.
  apply andb_true_iff in Hc. destruct Hc as [Hplus Hc].
  apply negb_true_iff in Hplus.
  destruct (is_char c "*") eqn:Hstar.
  - eexists _, _. split; [reflexivity |]. split; [discriminate |].
    split; reflexivity.
  - destruct (is_char c "?") eqn:Hq.
    + eexists _, _. split; [reflexivity |]. split; [auto |]. split; reflexivity.
    + simpl in Hc. apply negb_true_iff in Hc.
      eexists _, _. split; [reflexivity |]. split; [auto |].
      split; [| exact Hc]. unfold is_repeat. now rewrite Hstar, Hplus.
Qed.

Lemma parse_regexp_glob (l : list ascii) :
  forallb glob_char l = true ->
  parse_regexp (flat_map expand l) = Parsed (List.map glob_item l).
Proof.
  induction l as [| c l IH]; intros Hl; [reflexivity |].
  simpl in Hl. apply andb_true_iff in Hl. destruct Hl as [Hc Hl].
  specialize (IH Hl).
  change (flat_map expand (c :: l)) with (expand c ++ flat_map expand l).
  change (List.map glob_item (c :: l))
    with (glob_item c :: List.map glob_item l).
  destruct (is_char c "*") eqn:Hstar.
  - assert (expand c = ["."; "*"]%char) as ->
      by (unfold expand; now rewrite Hstar).
    assert (glob_item c = (AnyChar, Star)) as ->
      by (unfold glob_item; now rewrite Hstar).
    cbn. rewrite IH. reflexivity.
  - destruct (expand_head c (flat_map expand l) Hc)
      as (q & rest & Heq & Hrest & Hrep & Hsyn).
    destruct (Hrest Hstar) as [-> ->]. rewrite Heq.
    assert (glob_item c
            = (atom_of (if is_char c "?" then "."%char else c), Once))
      as ->.
    { unfold glob_item, atom_of. rewrite Hstar.
      destruct (is_char c "?"); simpl; [reflexivity |].
      destruct (is_char c "."); reflexivity. }
    cbn [parse_regexp]. rewrite Hrep, Hsyn.
    destruct l as [| d l'].
    + reflexivity.
    + simpl in Hl. apply andb_true_iff in Hl. destruct Hl as [Hd _].
      destruct (expand_head d (flat_map expand l') Hd)
        as (q' & rest' & Heq' & _ & Hrep' & _).
      change (flat_map expand (d :: l'))
        with (expand d ++ flat_map expand l') in IH |- *.
      rewrite Heq' in IH |- *.
      unfold is_repeat in Hrep'. apply orb_false_iff in Hrep'.
      destruct Hrep' as [-> ->]. rewrite IH. reflexivity.
Qed.

(** The URL placeholder of the settings form matches a URL it is only a
    part of, and the dot of a pattern matches a character that is no dot:
    in both cases the whole URL does not fit the glob. *)
Lemma matchesPattern_is_not_anchored :
  matchesPattern "https://example.com/products/a" "/products/*" = Returns true
  /\ stated_matches "https://example.com/products/a" "/products/*" = false
  /\ matchesPattern "https://example.com/index-html" "*.html" = Returns true
  /\ stated_matches "https://example.com/index-html" "*.html" = false.
Proof. vm_compute. repeat split; reflexivity. Qed.

(** C6 (as amended).  The pattern matcher replaces every [*] by [.*] and
    every [?] by [.], escapes nothing and does not anchor the expression.
    For a pattern made of [*], [?] and characters that are no other syntax
    character of a regular expression, it returns; and it returns true
    exactly when some part of the URL is an instance of the pattern, where
    [*] stands for any run of characters, [?] and [.] for any one
    character (a line terminator excepted) and every other character for
    itself. *)
Theorem matchesPattern_finds_glob (url pattern : string) :
  is_glob pattern = true ->
  exists found,
    matchesPattern url pattern = Returns found
    /\ (found = true
        <-> fits_inside (glob_items pattern) (list_ascii_of_string url)).
Proof.
  intros Hglob. unfold matchesPattern, RegExp_test.
  rewrite list_ascii_of_regexPattern, (parse_regexp_glob _ Hglob).
  eexists. split; [reflexivity |]. apply match_anywhere_fits.
Qed.

Lemma matchesPattern_finds_glob_witness :
  fits_inside (glob_items "/products/*")
    (list_ascii_of_string "https://example.com/products/a").
Proof.
  destruct (matchesPattern_finds_glob "https://example.com/products/a"
              "/products/*" eq_refl) as (found & Hrun & Hfound).
  apply Hfound. vm_compute in Hrun. injection Hrun as <-. reflexivity.
Defined.

(** ** deepMerge *)

Lemma lookup_set_field_eq (key : string) (v : value)
    (fields : list (string * value)) :
  lookup_field key (set_field key v fields) = v.
Proof.
  induction fields as [| [k x] rest IH]; simpl.
  - now rewrite String.eqb_refl.
  - destruct (String.eqb k key) eqn:Hk; simpl; rewrite Hk; [reflexivity | exact IH].
Qed.

Lemma lookup_set_field_ne (key other : string) (v : value)
    (fields : list (string * value)) :
  key <> other ->
  lookup_field other (set_field key v fields) = lookup_field other fields.
Proof.
  intros Hne. induction fields as [| [k x] rest IH]; simpl.
  - destruct (String.eqb key other) eqn:Hk; [| reflexivity].
    apply String.eqb_eq in Hk. contradiction.
  - destruct (String.eqb k key) eqn:Hk; simpl.
    + apply String.eqb_eq in Hk. subst k.
      destruct (String.eqb key other) eqn:Hk'; [| reflexivity].
      apply String.eqb_eq in Hk'. contradiction.
    + destruct (String.eqb k other); [reflexivity | exact IH].
Qed.

Lemma lookup_field_NoDup (key : string) (v : value)
    (fields : list (string * value)) :
  NoDup (List.map fst fields) -> In (key, v) fields ->
  lookup_field key fields = v.
Proof.
  induction fields as [| [k x] rest IH]; simpl; intros Hnd Hin; [contradiction |].
  apply NoDup_cons in Hnd. destruct Hnd as [Hk Hnd].
  destruct Hin as [[= -> ->] | Hin].
  - now rewrite String.eqb_refl.
  - destruct (String.eqb k key) eqn:Hkey.
    + apply String.eqb_eq in Hkey. subst k. exfalso. apply Hk.
      apply list_elem_of_In, in_map_iff. exists (key, v). auto.
    + apply IH; assumption.
Qed.

Lemma lookup_field_In (key : string) (fields : list (string * value)) :
  lookup_field key fields <> Undefined ->
  In (key, lookup_field key fields) fields.
Proof.
  induction fields as [| [k x] rest IH]; simpl.
  - congruence.
  - destruct (String.eqb k key) eqn:Hk.
    + apply String.eqb_eq in Hk. subst. auto.
    + auto.
Qed.

(** *** Own properties *)

Lemma has_field_In (key : string) (v : value)
    (fields : list (string * value)) :
  In (key, v) fields -> has_field key fields = true.
Proof.
  intros Hin. unfold has_field. apply existsb_exists.
  exists (key, v). split; [exact Hin | apply String.eqb_refl].
Qed.

Lemma has_field_false (key : string) (fields : list (string * value)) :
  has_field key fields = false ->
  forall k v, In (k, v) fields -> k <> key.
Proof.
  intros Hnone k v Hin ->.
  rewrite (has_field_In key v fields Hin) in Hnone. discriminate.
Qed.

Lemma has_field_lookup (key : string) (fields : list (string * value)) :
  has_field key fields = false -> lookup_field key fields = Undefined.
Proof.
  induction fields as [| [k x] rest IH]; simpl; [reflexivity |].
  destruct (String.eqb k key); simpl; [discriminate | exact IH].
Qed.

Lemma ordinary_fields (fields : list (string * value)) :
  ordinary (Obj fields) = true ->
  Forall (fun kv => ordinary_key kv.1 = true /\ ordinary kv.2 = true) fields.
Proof.
  induction fields as [| [k x] rest IH]; [constructor |].
  intros Hall. simpl in Hall.
  apply andb_true_iff in Hall. destruct Hall as [Hall Hrest].
  apply andb_true_iff in Hall. destruct Hall as [Hk Hx].
  constructor; [split; assumption | apply IH, Hrest].
Qed.

Lemma ordinary_key_spec (key : string) :
  ordinary_key key = true -> key <> "hasOwnProperty" /\ key <> "__proto__".
Proof.
  unfold ordinary_key. intros Hkey. apply andb_true_iff in Hkey.
  destruct Hkey as [Hown Hproto].
  apply negb_true_iff, String.eqb_neq in Hown, Hproto. auto.
Qed.

Lemma ordinary_has_field (fields : list (string * value)) (key : string) :
  ordinary (Obj fields) = true -> ordinary_key key = false ->
  has_field key fields = false.
Proof.
  intros Hall Hkey. apply ordinary_fields in Hall.
  unfold has_field. apply not_true_iff_false. intros Hsome.
  apply existsb_exists in Hsome. destruct Hsome as ([k x] & Hin & Hk).
  apply String.eqb_eq in Hk. simpl in Hk. subst k.
  rewrite List.Forall_forall in Hall. destruct (Hall _ Hin) as [Hk _].
  simpl in Hk. congruence.
Qed.

(** *** The assignment to the result *)

Lemma assign_ordinary (key : string) (v : value)
    (result : list (string * value)) :
  key <> "__proto__" -> assign key v result = Returns (set_field key v result).
Proof.
  intros Hkey. unfold assign. apply String.eqb_neq in Hkey.
  rewrite Hkey. reflexivity.
Qed.

Lemma lookup_assign_ne (key other : string) (v : value)
    (result result' : list (string * value)) :
  assign key v result = Returns result' -> key <> other ->
  lookup_field other result' = lookup_field other result.
Proof.
  unfold assign. intros Hrun Hne.
  destruct (String.eqb key "__proto__" && negb (has_field key result)).
  - destruct v; try discriminate; injection Hrun as <-; reflexivity.
  - injection Hrun as <-. apply lookup_set_field_ne, Hne.
Qed.

(** *** One turn of the loop *)

(** When the loop returns, the turn for a property either passed it over
    (its value is null or undefined) or assigned a value to its key: the
    value of the property, or for an object the outcome of the nested
    merge. *)
Lemma merge_props_cons (merge : value -> value -> outcome value)
    (target : value) (source : list (string * value)) (key : string)
    (v : value) (rest result : list (string * value)) (out : value) :
  has_field key source = true ->
  merge_props merge target source ((key, v) :: rest) result = Returns out ->
  has_field "hasOwnProperty" source = false
  /\ ((is_nullish v
       /\ merge_props merge target source rest result = Returns out)
      \/ (~ is_nullish v
          /\ exists x result',
               match v with
               | Obj _ =>
                   exists t, read_member key target = Returns t
                             /\ merge_member merge t v = Returns x
               | _ => x = v
               end
               /\ assign key x result = Returns result'
               /\ merge_props merge target source rest result'
                  = Returns out)).
Proof.
  intros Hkey. cbn [merge_props]. unfold hasOwnProperty_call.
  destruct (has_field "hasOwnProperty" source); [discriminate |].
  rewrite Hkey. cbn [bind]. intros Hrun. split; [reflexivity |].
  destruct v as [| | b | n | str | items | fields].
  - left. split; [right; reflexivity | exact Hrun].
  - left. split; [left; reflexivity | exact Hrun].
  - right. split; [intros [? | ?]; discriminate |].
    destruct (assign key (Bool b) result) as [result' | |] eqn:Hassign;
      try discriminate.
    exists (Bool b), result'. auto.
  - right. split; [intros [? | ?]; discriminate |].
    destruct (assign key (Num n) result) as [result' | |] eqn:Hassign;
      try discriminate.
    exists (Num n), result'. auto.
  - right. split; [intros [? | ?]; discriminate |].
    destruct (assign key (Str str) result) as [result' | |] eqn:Hassign;
      try discriminate.
    exists (Str str), result'. auto.
  - right. split; [intros [? | ?]; discriminate |].
    destruct (assign key (Arr items) result) as [result' | |] eqn:Hassign;
      try discriminate.
    exists (Arr items), result'. auto.
  - right. split; [intros [? | ?]; discriminate |].
    destruct (read_member key target) as [t | |] eqn:Hread;
      try discriminate.
    cbn [bind] in Hrun.
    destruct (merge_member merge t (Obj fields)) as [x | |] eqn:Hmerge;
      try discriminate.
    cbn [bind] in Hrun.
    destruct (assign key x result) as [result' | |] eqn:Hassign;
      try discriminate.
    exists x, result'. eauto.
Qed.

Lemma merge_props_object (merge : value -> value -> outcome value)
    (target : value) (source props result : list (string * value))
    (out : value) :
  (forall k v, In (k, v) props -> has_field k source = true) ->
  merge_props merge target source props result = Returns out ->
  exists fields, out = Obj fields.
Proof.
  revert result. induction props as [| [k v] rest IH]; intros result Hown.
  - intros [= <-]. eauto.
  - intros Hrun.
    assert (forall k' v', In (k', v') rest -> has_field k' source = true)
      as Hrest by (intros k' v' Hin; apply (Hown k' v'); now right).
    apply merge_props_cons in Hrun; [| apply (Hown k v); now left].
    destruct Hrun as [_ [[_ Hrun] | (_ & x & result' & _ & _ & Hrun)]];
      eapply IH; eauto.
Qed.

(** The loop writes to a key only when it visits a property of that key
    whose value is neither null nor undefined. *)
Lemma merge_props_keeps (merge : value -> value -> outcome value)
    (target : value) (key : string) (source props result : list (string * value))
    (out : value) :
  (forall k v, In (k, v) props -> has_field k source = true) ->
  (forall v, In (key, v) props -> is_nullish v) ->
  merge_props merge target source props result = Returns out ->
  exists fields, out = Obj fields
                 /\ lookup_field key fields = lookup_field key result.
Proof.
  revert result. induction props as [| [k v] rest IH];
    intros result Hown Hnull.
  - intros [= <-]. eauto.
  - intros Hrun.
    assert (forall k' v', In (k', v') rest -> has_field k' source = true)
      as Hrest by (intros k' v' Hin; apply (Hown k' v'); now right).
    assert (forall v', In (key, v') rest -> is_nullish v') as Hnull'
      by (intros v' Hin; apply Hnull; now right).
    apply merge_props_cons in Hrun; [| apply (Hown k v); now left].
    destruct Hrun as [_ [[_ Hrun] | (Hv & x & result' & _ & Hassign & Hrun)]].
    + apply (IH _ Hrest Hnull' Hrun).
    + destruct (IH _ Hrest Hnull' Hrun) as (fields & -> & Hlook).
      exists fields. split; [reflexivity |]. rewrite Hlook.
      apply (lookup_assign_ne k key x result result' Hassign).
      intros ->. apply Hv, Hnull. now left.
Qed.

(** A property whose value is an array, a string, a number or a boolean
    is copied to the result. *)
Lemma merge_props_copies (merge : value -> value -> outcome value)
    (target : value) (key : string) (v : value)
    (source props result : list (string * value)) (out : value) :
  (forall k x, In (k, x) props -> has_field k source = true) ->
  NoDup (List.map fst props) ->
  In (key, v) props ->
  key <> "__proto__" ->
  (forall fields, v <> Obj fields) -> ~ is_nullish v ->
  merge_props merge target source props result = Returns out ->
  exists fields, out = Obj fields /\ lookup_field key fields = v.
Proof.
  revert result. induction props as [| [k x] rest IH];
    intros result Hown Hnd Hin Hproto Hobj Hnull; [contradiction |].
  simpl in Hnd. apply NoDup_cons in Hnd. destruct Hnd as [Hk Hnd].
  assert (forall k' v', In (k', v') rest -> has_field k' source = true)
    as Hrest by (intros k' v' Hin'; apply (Hown k' v'); now right).
  intros Hrun.
  apply merge_props_cons in Hrun; [| apply (Hown k x); now left].
  destruct Hin as [[= -> ->] | Hin].
  - assert (forall v', In (key, v') rest -> is_nullish v') as Hnone.
    { intros v' Hin. exfalso. apply Hk. apply list_elem_of_In, in_map_iff.
      exists (key, v'). auto. }
    destruct Hrun as [_ [[Hv _] | (_ & y & result' & Hy & Hassign & Hrun)]];
      [contradiction |].
    assert (y = v) as -> by (destruct v; try exact Hy; exfalso;
                             eapply Hobj; reflexivity).
    rewrite (assign_ordinary key v result Hproto) in Hassign.
    injection Hassign as <-.
    destruct (merge_props_keeps _ _ key _ _ _ _ Hrest Hnone Hrun)
      as (fields & -> & Hlook).
    exists fields. split; [reflexivity |].
    rewrite Hlook. apply lookup_set_field_eq.
  - destruct Hrun as [_ [[_ Hrun] | (_ & y & result' & _ & _ & Hrun)]];
      eapply IH; eauto.
Qed.

(** A property whose value is an object is merged with what the read of
    the target finds at its key, and the outcome is what the result holds
    at that key. *)
Lemma merge_props_nested (merge : value -> value -> outcome value)
    (target : value) (key : string) (sub : list (string * value))
    (source props result : list (string * value)) (out : value) :
  (forall k x, In (k, x) props -> has_field k source = true) ->
  NoDup (List.map fst props) ->
  In (key, Obj sub) props ->
  key <> "__proto__" ->
  merge_props merge target source props result = Returns out ->
  exists t nested fields,
    read_member key target = Returns t
    /\ merge_member merge t (Obj sub) = Returns nested
    /\ out = Obj fields
    /\ lookup_field key fields = nested.
Proof.
  revert result. induction props as [| [k x] rest IH];
    intros result Hown Hnd Hin Hproto; [contradiction |].
  simpl in Hnd. apply NoDup_cons in Hnd. destruct Hnd as [Hk Hnd].
  assert (forall k' v', In (k', v') rest -> has_field k' source = true)
    as Hrest by (intros k' v' Hin'; apply (Hown k' v'); now right).
  intros Hrun.
  apply merge_props_cons in Hrun; [| apply (Hown k x); now left].
  destruct Hin as [[= -> ->] | Hin].
  - assert (forall v', In (key, v') rest -> is_nullish v') as Hnone.
    { intros v' Hin. exfalso. apply Hk. apply list_elem_of_In, in_map_iff.
      exists (key, v'). auto. }
    destruct Hrun as [_ [[[? | ?] _] | (_ & y & result' & Hy & Hassign & Hrun)]];
      try discriminate.
    destruct Hy as (t & Hread & Hmerge).
    rewrite (assign_ordinary key y result Hproto) in Hassign.
    injection Hassign as <-.
    destruct (merge_props_keeps _ _ key _ _ _ _ Hrest Hnone Hrun)
      as (fields & -> & Hlook).
    exists t, y, fields.
    split; [exact Hread |]. split; [exact Hmerge |].
    split; [reflexivity |].
    rewrite Hlook. apply lookup_set_field_eq.
  - destruct Hrun as [_ [[_ Hrun] | (_ & y & result' & _ & _ & Hrun)]];
      eapply IH; eauto.
Qed.

(** *** When the merge returns *)

Lemma read_member_returns (key : string) (target : value) :
  typeof_object target = true -> target <> Null -> key <> "__proto__" ->
  exists t, read_member key target = Returns t /\ t <> Prototype.
Proof.
  intros Hobject Hnull Hkey. apply String.eqb_neq in Hkey.
  destruct target; try discriminate; try contradiction; cbn [read_member].
  - destruct (has_field key _); [eexists; split; [reflexivity | discriminate] |].
    rewrite Hkey.
    destruct (is_member key array_members || is_member key object_members);
      eexists; (split; [reflexivity | discriminate]).
  - destruct (has_field key fields);
      [eexists; split; [reflexivity | discriminate] |].
    rewrite Hkey.
    destruct (is_member key object_members);
      eexists; (split; [reflexivity | discriminate]).
Qed.

Lemma or_empty_not_Null (t : value) : or_empty t <> Null.
Proof.
  unfold or_empty. destruct t; simpl; try discriminate;
    match goal with |- context [if ?b then _ else _] => destruct b end;
    discriminate.
Qed.

(** The loop returns when the override has no own property named
    hasOwnProperty, no key of it is __proto__, the target is an object or an
    array, and the nested merges return. *)
Lemma merge_props_returns (merge : value -> value -> outcome value)
    (target : value) (source props result : list (string * value)) :
  has_field "hasOwnProperty" source = false ->
  typeof_object target = true -> target <> Null ->
  Forall (fun kv => kv.1 <> "__proto__"
                    /\ forall t, t <> Null ->
                         exists out, merge t kv.2 = Returns out) props ->
  exists out, merge_props merge target source props result = Returns out.
Proof.
  intros Hown Hobject Hnull Hmerge. revert result.
  induction Hmerge as [| [k v] rest [Hk Hv] _ IH]; intros result.
  - simpl. eauto.
  - cbn [merge_props]. unfold hasOwnProperty_call. rewrite Hown.
    cbn [bind]. simpl in Hk, Hv.
    destruct (has_field k source); [| apply IH].
    destruct v as [| | b | n | str | items | fields];
      try apply IH;
      try (rewrite (assign_ordinary k _ result Hk); cbn [bind]; apply IH).
    destruct (read_member_returns k target Hobject Hnull Hk)
      as (t & -> & Ht).
    cbn [bind].
    assert (exists merged,
              merge_member merge t (Obj fields) = Returns merged)
      as [merged ->].
    { destruct t as [t | |]; simpl; [| eauto | contradiction].
      apply Hv, or_empty_not_Null. }
    cbn [bind]. rewrite (assign_ordinary k _ result Hk). cbn [bind].
    apply IH.
Qed.

Lemma fields_are_own (fields : list (string * value)) :
  forall k v, In (k, v) fields -> has_field k fields = true.
Proof. intros k v. apply has_field_In. Qed.

Lemma deepMerge_returns (source target : value) :
  ordinary source = true -> target <> Null ->
  exists out, deepMerge target source = Returns out.
Proof.
  revert target.
  induction source as [| | b | n | s | items _ | fields IH]
    using value_induction; intros target Hordinary Hnull; simpl; eauto.
  destruct (typeof_object target) eqn:Hobject; simpl; eauto.
  apply merge_props_returns; try assumption.
  - apply ordinary_has_field; [exact Hordinary | reflexivity].
  - apply ordinary_fields in Hordinary.
    rewrite List.Forall_forall in IH, Hordinary.
    apply List.Forall_forall. intros [k v] Hin.
    destruct (Hordinary _ Hin) as [Hk Hv]. simpl in Hk, Hv.
    split; [apply (ordinary_key_spec _ Hk) |].
    intros t Ht. apply (IH _ Hin t Hv Ht).
Qed.

(** For an override of ordinary keys, what the claim says of the merge of
    two objects holds: the merge returns an object; a key whose value in
    the override is null or undefined (or that the override does not have)
    keeps the value of the target; a key whose value in the override is an
    array takes that array. *)
Lemma deepMerge_objects (target source : list (string * value)) :
  NoDup (List.map fst source) ->
  ordinary (Obj source) = true ->
  exists merged,
    deepMerge (Obj target) (Obj source) = Returns (Obj merged)
    /\ (forall key,
          is_nullish (lookup_field key source) ->
          lookup_field key merged = lookup_field key target)
    /\ (forall key items,
          lookup_field key source = Arr items ->
          lookup_field key merged = Arr items).
Proof.
  intros Hnd Hordinary.
  destruct (deepMerge_returns (Obj source) (Obj target) Hordinary)
    as [out Hout]; [discriminate |].
  rewrite Hout. simpl in Hout.
  destruct (merge_props_object _ _ _ _ _ _ (fields_are_own source) Hout)
    as [merged ->].
  exists merged. split; [reflexivity |]. split.
  - intros key Hnull.
    assert (forall v, In (key, v) source -> is_nullish v) as Hall.
    { intros v Hin. rewrite <- (lookup_field_NoDup key v source Hnd Hin).
      exact Hnull. }
    destruct (merge_props_keeps _ _ key _ _ _ _ (fields_are_own source)
                Hall Hout) as (fields & [= <-] & Hkeep).
    exact Hkeep.
  - intros key items Hitems.
    assert (In (key, Arr items) source) as Hin.
    { rewrite <- Hitems. apply lookup_field_In. rewrite Hitems. discriminate. }
    assert (key <> "__proto__") as Hproto.
    { apply ordinary_fields in Hordinary.
      rewrite List.Forall_forall in Hordinary.
      destruct (Hordinary _ Hin) as [Hk _]. apply (ordinary_key_spec _ Hk). }
    assert (~ is_nullish (Arr items)) as Hnot
      by (intros [? | ?]; discriminate).
    assert (forall fields, Arr items <> Obj fields) as Hobj by discriminate.
    destruct (merge_props_copies _ _ key (Arr items) _ _ _ _
                (fields_are_own source) Hnd Hin Hproto Hobj Hnot Hout)
      as (fields & [= <-] & Hcopy).
    exact Hcopy.
Qed.

(** C10.  A key whose value in the override is null is to keep the value
    of the target, whatever the key.  With a key named hasOwnProperty in
    the override no key does: the loop calls [source.hasOwnProperty] for
    every key, the own property of that name hides the method of
    Object.prototype, and the call raises a TypeError where the claim has
    the merge return with the target's [maxDepth].  Without that key the
    same override is merged as the claim says. *)
Theorem deepMerge_throws_on_own_hasOwnProperty :
  is_nullish (lookup_field "hasOwnProperty" override_with_hasOwnProperty)
  /\ is_nullish (lookup_field "maxDepth" override_with_hasOwnProperty)
  /\ deepMerge (Obj default_settings) (Obj override_with_hasOwnProperty)
     = Throws "TypeError"
  /\ deepMerge (Obj default_settings) (Obj stored_settings)
     = Returns
         (Obj [ ("maxDepth", Num 3);
                ("includePatterns", Arr [Str "/products/*"]);
                ("sitemap",
                 Obj [ ("autoDetect", Bool true);
                       ("urls",
                        Arr [Str "https://example.com/sitemap.xml"]) ]) ]).
Proof.
  split; [left; reflexivity |]. split; [left; reflexivity |].
  vm_compute. split; reflexivity.
Qed.

(** ** The precedence of the JSON-LD breadcrumbs *)

Lemma push_names_not_null (items breadcrumbs : list value) :
  forallb (fun item => negb (is_null item)) items = true ->
  push_names items breadcrumbs = (breadcrumbs ++ names_of items, false).
Proof.
  revert breadcrumbs.
  induction items as [| item rest IH]; intros breadcrumbs Hitems; simpl.
  - now rewrite app_nil_r.
  - simpl in Hitems. apply andb_true_iff in Hitems. destruct Hitems as [Hi Hrest].
    destruct (get_prop "name" item) as [name | |] eqn:Hname;
      try (destruct item; simpl in *; discriminate).
    assert (item_name item = name) as Hitem
      by (unfold item_name; now rewrite Hname).
    rewrite (IH _ Hrest). unfold names_of. simpl. rewrite Hitem.
    destruct (truthy_value name); simpl; [| reflexivity].
    now rewrite <- app_assoc.
Qed.

(** Where no item of the list is null, the precedence holds: the names of the
    first script, whatever the selectors find. *)
Lemma extractBreadcrumbs_first_script (items : list value)
    (scripts : list (option value))
    (texts : string -> option (list string)) :
  forallb (fun item => negb (is_null item)) items = true ->
  names_of items <> [] ->
  extractBreadcrumbs
    {| jsonLdScripts := Some (breadcrumb_list items) :: scripts;
       selector_texts := texts |}
  = names_of items.
Proof.
  intros Hitems Hnames. unfold extractBreadcrumbs. simpl.
  rewrite (push_names_not_null items [] Hitems). simpl.
  destruct (names_of items); [contradiction | reflexivity].
Qed.

(** C8.  The names of a JSON-LD BreadcrumbList are to be returned as they
    are, the selectors not being consulted.  At this document they are not:
    the list of the script has a null item after the item named "Shop";
    reading the name of the null item raises a TypeError, which the catch
    block written for invalid JSON swallows; the name already pushed stays
    in the array, the selectors are consulted, and the text they find is
    appended to it. *)
Theorem null_item_reaches_selector_fallback :
  names_of [ Obj [("name", Str "Shop")]; Null ] = [Str "Shop"]
  /\ extractBreadcrumbs document_with_null_item = [Str "Shop"; Str "Home"].
Proof. vm_compute. split; reflexivity. Qed.

(** ** The severity of a page comparison result *)

Lemma severity_of_cons (c : FieldChange) (cs : list FieldChange) :
  severity_of (c :: cs) = max_impact (impact c) (severity_of cs).
Proof.
  unfold severity_of, has_impact. simpl.
  destruct (impact c); simpl;
    destruct (existsb _ cs); simpl; try reflexivity;
    destruct (existsb _ cs); reflexivity.
Qed.

Lemma severity_of_maximum (cs : list FieldChange) :
  severity_of cs = maximum_impact cs.
Proof.
  induction cs as [| c cs IH]; [reflexivity |].
  rewrite severity_of_cons, IH. reflexivity.
Qed.

(** A page that did not change has a severity all the same: [low]. *)
Lemma unchanged_page_has_severity :
  List.map (fun r => (changeType r, changes r, severity r))
    (pageChanges (compareRuns [example_snapshot "About"]
                    [example_snapshot "About"]))
  = [(page_unchanged, [], low)]
  /\ stated_severity [] = None.
Proof. vm_compute. split; reflexivity. Qed.

Lemma stated_severity_maximum (cs : list FieldChange) :
  cs <> [] -> stated_severity cs = Some (maximum_impact cs).
Proof.
  destruct cs as [| c cs]; [contradiction |]. intros _.
  unfold maximum_impact. simpl. f_equal.
  revert c. induction cs as [| d cs IH]; intros c; simpl.
  - destruct (impact c); reflexivity.
  - rewrite IH.
    destruct (impact c), (impact d),
      (fold_right max_impact low (List.map impact cs)); reflexivity.
Qed.

(** C5 (as amended).  The severity of every result of the comparison is
    the maximum impact of its changes, in the order high, medium, low; it
    is low when the result has no change. *)
Theorem severity_is_maximum_impact
    (baseSnapshots compareSnapshots : list PageSnapshot) :
  Forall (fun r => severity r = maximum_impact (changes r))
    (pageChanges (compareRuns baseSnapshots compareSnapshots))
  /\ maximum_impact [] = low.
Proof.
  split; [| reflexivity].
  unfold compareRuns. simpl. apply Forall_forall. intros r Hin.
  apply list_elem_of_In, in_map_iff in Hin. destruct Hin as (u & <- & _).
  unfold compare_url. simpl. apply severity_of_maximum.
Qed.

(** ** The symmetry of the comparison *)

(** C4.  Swapping the two runs is to swap the added results with the
    removed ones and to keep every severity.  At this page, which is in one
    run only, it does not: as an added page it has one change, of its meta
    description, and severity medium; with the two runs swapped it is a
    removed page with no change and severity low.  The removed branch of
    compareSnapshots has no case for the meta description, which the added
    branch has. *)
Theorem removed_page_drops_metaDescription :
  List.map (fun r => (changeType r, List.map field (changes r), severity r))
    (pageChanges (compareRuns [] [described_page]))
  = [(page_added, ["metaDescription"], medium)]
  /\ List.map (fun r => (changeType r, List.map field (changes r), severity r))
       (pageChanges (compareRuns [described_page] []))
     = [(page_removed, [], low)].
Proof. vm_compute. split; reflexivity. Qed.

(** * Further properties *)

(** ** The job queue *)

Lemma with_jobs_id (f : gmap string job -> gmap string job) (db : DB) :
  f (jobs db) = jobs db -> with_jobs f db = db.
Proof. intros Hf. destruct db. unfold with_jobs. simpl in *. now rewrite Hf. Qed.

Lemma alter_jobs_twice (f g : job -> job) (jobId : string) (db : DB) :
  (forall j, jobs db !! jobId = Some j -> g (f j) = f j) ->
  with_jobs (alter g jobId) (with_jobs (alter f jobId) db)
  = with_jobs (alter f jobId) db.
Proof.
  intros Hgf. apply with_jobs_id. simpl. apply map_eq. intros id.
  destruct (decide (jobId = id)) as [<- | Hne].
  - rewrite !lookup_alter_eq. destruct (jobs db !! jobId) eqn:Hj; simpl;
      [| reflexivity].
    f_equal. apply Hgf. reflexivity.
  - now rewrite !lookup_alter_ne.
Qed.

(** X1.  Cancelling is idempotent: a second cancellation, at whatever
    later instant, changes nothing, and the [completed_at] of the first one
    stays.  A cancellation writes to the row of its job only. *)
Theorem cancelJob_idempotent (jobId : string) (first later : Z) (db : DB) :
  cancelJob jobId later (cancelJob jobId first db) = cancelJob jobId first db
  /\ (forall other, other <> jobId ->
        jobs (cancelJob jobId first db) !! other = jobs db !! other)
  /\ scans (cancelJob jobId first db) = scans db
  /\ websites (cancelJob jobId first db) = websites db.
Proof.
  split; [| split; [| split; reflexivity]].
  - apply alter_jobs_twice. intros j _. unfold cancel_row.
    destruct (status j) eqn:Hst; simpl; rewrite ?Hst; reflexivity.
  - intros other Hne. unfold cancelJob. rewrite lookup_alter_jobs.
    destruct (decide (jobId = other)); congruence.
Qed.

(** X2.  The lease is taken once: a second lease on the same job, at
    whatever later instant, changes nothing, so the [started_at] of the
    first lease stays; and a lease on a job that is not queued changes
    nothing. *)
Theorem acquireLease_once (jobId : string) (first later : Z) (db : DB) :
  acquireLease jobId later (acquireLease jobId first db)
  = acquireLease jobId first db
  /\ ((forall j, jobs db !! jobId = Some j -> status j <> queued) ->
      acquireLease jobId first db = db).
Proof.
  split.
  - apply alter_jobs_twice. intros j _. unfold lease_row.
    destruct (status j) eqn:Hst; simpl; rewrite ?Hst; reflexivity.
  - intros Hnot. apply with_jobs_id. apply alter_id. intros j Hj.
    specialize (Hnot j Hj). unfold lease_row.
    destruct (status j); congruence.
Qed.

(** X3.  A cancelled job stays as it is: no lease, cancellation, retry or
    reaper cycle changes or deletes its row. *)
Theorem cancelled_job_stays (op : operation) (now : Z) (db : DB)
    (jobId : string) (j : job) :
  jobs db !! jobId = Some j ->
  status j = cancelled ->
  (forall id c, op <> Update id c) ->
  jobs (run_operation op now db) !! jobId = Some j.
Proof.
  intros Hj Hst Hop.
  assert (forall (f : job -> job) id,
            f j = j -> jobs (with_jobs (alter f id) db) !! jobId = Some j)
    as Halter.
  { intros f id Hf. rewrite lookup_alter_jobs.
    destruct (decide (id = jobId)); [| exact Hj]. rewrite Hj. simpl. now f_equal. }
  destruct op as [id | id c | id | id |]; simpl.
  - apply Halter. unfold lease_row. now rewrite Hst.
  - exfalso. now apply (Hop id c).
  - apply Halter. unfold cancel_row. now rewrite Hst.
  - unfold retryFailedJob. destruct (jobs db !! id) as [current |]; [| exact Hj].
    destruct (retry_count current >=? max_retries current); [exact Hj |].
    simpl. apply Halter. unfold retry_row. now rewrite Hst.
  - unfold maintainJobs. simpl. apply lookup_delete_in_Some. split.
    + rewrite lookup_update_in, Hj. simpl.
      destruct (decide _) as [Hin | _]; [| reflexivity].
      apply elem_of_select_ids in Hin. destruct Hin as (j' & Hj' & Hstuck).
      assert (j' = j) as -> by congruence.
      unfold is_stuck in Hstuck. rewrite Hst in Hstuck. discriminate.
    + intros Hin. apply elem_of_select_ids in Hin.
      destruct Hin as (j' & Hj' & Hold).
      rewrite lookup_update_in, Hj in Hj'. simpl in Hj'.
      destruct (decide _) as [Hin | _].
      * apply elem_of_select_ids in Hin. destruct Hin as (j0 & Hj0 & Hstuck).
        assert (j0 = j) as -> by congruence.
        unfold is_stuck in Hstuck. rewrite Hst in Hstuck. discriminate.
      * injection Hj' as <-. unfold is_old in Hold. rewrite Hst in Hold.
        discriminate.
Qed.

Lemma cancelled_job_stays_witness :
  jobs (run_operation Reaper (100 * thirty_days)
          (cancelJob "job-1" 5 (example_db queued None))) !! "job-1"
  = Some (cancel_row 5 (example_job queued None)).
Proof.
  apply (cancelled_job_stays Reaper (100 * thirty_days)
           (cancelJob "job-1" 5 (example_db queued None)) "job-1"
           (cancel_row 5 (example_job queued None))).
  - vm_compute. reflexivity.
  - reflexivity.
  - intros id c. discriminate.
Defined.

(** X4.  No operation on the jobs table takes the retry count of a row
    above its maximum: the retry increments it only while it is below, and
    nothing else writes it. *)
Theorem retries_stay_bounded (op : operation) (now : Z) (db : DB) :
  retries_bounded db -> retries_bounded (run_operation op now db).
Proof.
  intros Hdb.
  assert (forall (f : job -> job) id,
            (forall j, jobs db !! id = Some j ->
                       retry_count (f j) <= max_retries (f j)) ->
            retries_bounded (with_jobs (alter f id) db)) as Halter.
  { intros f id Hf other j. rewrite lookup_alter_jobs.
    destruct (decide (id = other)) as [<- | _]; [| apply Hdb].
    destruct (jobs db !! id) as [j0 |] eqn:Hj0; simpl; [| discriminate].
    intros [= <-]. apply Hf. reflexivity. }
  destruct op as [id | id c | id | id |]; simpl.
  - apply Halter. intros j Hj. specialize (Hdb _ _ Hj). unfold lease_row.
    destruct (status j); exact Hdb.
  - destruct c; simpl; unfold updateJobStatus; apply Halter;
      intros j Hj; exact (Hdb _ _ Hj).
  - apply Halter. intros j Hj. specialize (Hdb _ _ Hj). unfold cancel_row.
    destruct (status j); exact Hdb.
  - unfold retryFailedJob.
    destruct (jobs db !! id) as [current |] eqn:Hcurrent; [| exact Hdb].
    destruct (retry_count current >=? max_retries current) eqn:Hmax;
      [exact Hdb |].
    simpl. apply Halter. intros j Hj. assert (j = current) as -> by congruence.
    unfold retry_row. destruct (status current); try exact (Hdb _ _ Hj).
    simpl. lia.
  - intros id j. unfold maintainJobs. simpl.
    rewrite lookup_delete_in_Some. intros [Hj _]. revert Hj.
    rewrite lookup_update_in.
    destruct (jobs db !! id) as [j0 |] eqn:Hj0; simpl; [| discriminate].
    intros [= <-]. destruct (decide _); [simpl |]; exact (Hdb _ _ Hj0).
Qed.

Lemma retries_stay_bounded_witness :
  retries_bounded
    (run_operation (Retry "job-1") 9 (example_db failed (Some 5))).
Proof.
  apply (retries_stay_bounded (Retry "job-1") 9 (example_db failed (Some 5))).
  intros id j Hj. unfold example_db in Hj. simpl in Hj.
  apply lookup_singleton_Some in Hj. destruct Hj as [_ <-].
  simpl. lia.
Defined.

Lemma lookup_maintainJobs (now : Z) (db : DB) (id : string) (j : job) :
  jobs db !! id = Some j ->
  jobs (maintainJobs now db).2 !! id
  = if is_stuck (now - two_hours) j then Some (time_out_row now j)
    else if is_old (now - thirty_days) j then None
    else Some j.
Proof.
  intros Hj. unfold maintainJobs. simpl.
  assert (id ∈ select_ids (is_stuck (now - two_hours)) (jobs db)
          <-> is_stuck (now - two_hours) j = true) as Hstuck.
  { rewrite elem_of_select_ids. split.
    - intros (j' & Hj' & H). congruence.
    - intros H. eauto. }
  set (updated := update_in _ _ (jobs db)).
  assert (updated !! id
          = Some (if is_stuck (now - two_hours) j then time_out_row now j
                  else j)) as Hupdated.
  { unfold updated. rewrite lookup_update_in, Hj. simpl. f_equal.
    destruct (decide _) as [Hin | Hnot].
    - apply Hstuck in Hin. now rewrite Hin.
    - destruct (is_stuck (now - two_hours) j); [| reflexivity].
      exfalso. apply Hnot, Hstuck. reflexivity. }
  destruct (is_stuck (now - two_hours) j) eqn:Hs.
  - apply lookup_delete_in_Some. split; [exact Hupdated |].
    intros Hin. apply elem_of_select_ids in Hin.
    destruct Hin as (j' & Hj' & Hold). rewrite Hupdated in Hj'.
    injection Hj' as <-. unfold is_old in Hold. simpl in Hold.
    apply Z.ltb_lt in Hold. unfold thirty_days in Hold. lia.
  - destruct (is_old (now - thirty_days) j) eqn:Ho.
    + destruct (delete_in _ updated !! id) as [j' |] eqn:Hdel; [| reflexivity].
      apply lookup_delete_in_Some in Hdel. destruct Hdel as [_ Hnot].
      exfalso. apply Hnot. apply elem_of_select_ids. eauto.
    + apply lookup_delete_in_Some. split; [exact Hupdated |].
      intros Hin. apply elem_of_select_ids in Hin.
      destruct Hin as (j' & Hj' & Hold). congruence.
Qed.

(** X5.  What a cycle of the reaper deletes and what it keeps.  A
    completed or failed job whose [completed_at] is more than thirty days
    old is deleted; a completed or failed job that is younger, a queued job
    and a running job that was started within the last two hours (or has no
    [started_at]) keep their row as it is. *)
Theorem maintainJobs_deletes_old_finished_jobs (now : Z) (db : DB)
    (id : string) (j : job) :
  jobs db !! id = Some j ->
  (status j = completed \/ status j = failed ->
   forall t, completed_at j = Some t -> t < now - thirty_days ->
   jobs (maintainJobs now db).2 !! id = None)
  /\ (status j = completed \/ status j = failed ->
      (forall t, completed_at j = Some t -> now - thirty_days <= t) ->
      jobs (maintainJobs now db).2 !! id = Some j)
  /\ (status j = queued -> jobs (maintainJobs now db).2 !! id = Some j)
  /\ (status j = running ->
      (forall t, started_at j = Some t -> now - two_hours <= t) ->
      jobs (maintainJobs now db).2 !! id = Some j).
Proof.
  intros Hj. rewrite (lookup_maintainJobs now db id j Hj).
  unfold is_stuck, is_old. repeat split.
  - intros [Hst | Hst] t Ht Hold; rewrite Hst, Ht;
      assert ((t <? now - thirty_days) = true) as -> by lia; reflexivity.
  - intros [Hst | Hst] Hrecent; rewrite Hst;
      (destruct (completed_at j) as [t |]; [| reflexivity]);
      specialize (Hrecent t eq_refl);
      assert ((t <? now - thirty_days) = false) as -> by lia; reflexivity.
  - intros Hst. rewrite Hst. reflexivity.
  - intros Hst Hrecent. rewrite Hst.
    destruct (started_at j) as [t |]; [| reflexivity].
    specialize (Hrecent t eq_refl).
    assert ((t <? now - two_hours) = false) as -> by lia. reflexivity.
Qed.

Lemma maintainJobs_deletes_old_finished_jobs_witness :
  jobs (maintainJobs (100 * thirty_days)
          (updateJobStatus "job-1" completed 100 None None 7
             (example_db running (Some 5)))).2 !! "job-1"
  = None.
Proof.
  destruct (maintainJobs_deletes_old_finished_jobs (100 * thirty_days)
              (updateJobStatus "job-1" completed 100 None None 7
                 (example_db running (Some 5)))
              "job-1"
              (update_status_row completed 100 None None 7 (Some 5)
                 (example_job running (Some 5))))
    as [Hdeleted _].
  - vm_compute. reflexivity.
  - apply (Hdeleted (or_introl eq_refl) 7 eq_refl). vm_compute. reflexivity.
Defined.

Lemma update_in_empty (f : job -> job) (t : gmap string job) :
  update_in ∅ f t = t.
Proof.
  apply map_eq. intros k. rewrite lookup_update_in.
  destruct (t !! k); simpl; [| reflexivity].
  destruct (decide _) as [Hin | _]; [| reflexivity]. set_solver.
Qed.

Lemma delete_in_empty (t : gmap string job) : delete_in ∅ t = t.
Proof.
  apply map_eq. intros k. destruct (t !! k) as [j |] eqn:Hk.
  - apply lookup_delete_in_Some. split; [exact Hk | set_solver].
  - destruct (delete_in ∅ t !! k) as [j |] eqn:Hd; [| reflexivity].
    apply lookup_delete_in_Some in Hd. destruct Hd as [Hd _]. congruence.
Qed.

Lemma select_ids_empty (P : job -> bool) (t : gmap string job) :
  (forall k j, t !! k = Some j -> P j = false) -> select_ids P t = ∅.
Proof.
  intros Hnone. apply set_eq. intros k. rewrite elem_of_select_ids. split.
  - intros (j & Hj & HP). rewrite (Hnone _ _ Hj) in HP. discriminate.
  - set_solver.
Qed.

(** X6.  A cycle of the reaper leaves nothing for a second cycle at the
    same instant: the second cycle resets no job, deletes no job and leaves
    the database as it is. *)
Theorem maintainJobs_settles (now : Z) (db : DB) :
  maintainJobs now (maintainJobs now db).2
  = ({| stuckJobsReset := 0; oldJobsDeleted := 0 |}, (maintainJobs now db).2).
Proof.
  set (db' := (maintainJobs now db).2).
  assert (forall k j, jobs db' !! k = Some j ->
            is_stuck (now - two_hours) j = false
            /\ is_old (now - thirty_days) j = false) as Hsettled.
  { intros k j. unfold db'.
    destruct (jobs db !! k) as [j0 |] eqn:Hj0.
    - rewrite (lookup_maintainJobs now db k j0 Hj0).
      destruct (is_stuck (now - two_hours) j0) eqn:Hs.
      + intros [= <-]. split; [reflexivity |].
        unfold is_old. simpl.
        assert ((now <? now - thirty_days) = false) as ->
          by (unfold thirty_days; lia).
        reflexivity.
      + destruct (is_old (now - thirty_days) j0) eqn:Ho; [discriminate |].
        intros [= <-]. auto.
    - unfold maintainJobs. simpl. rewrite lookup_delete_in_Some.
      rewrite lookup_update_in, Hj0. simpl. intros [? _]. discriminate. }
  unfold maintainJobs at 1. fold db'.
  rewrite (select_ids_empty (is_stuck (now - two_hours)) (jobs db'))
    by (intros k j Hj; apply (Hsettled k j Hj)).
  assert (with_jobs (update_in ∅ (time_out_row now)) db' = db') as ->
    by (apply with_jobs_id, update_in_empty).
  rewrite (select_ids_empty (is_old (now - thirty_days)) (jobs db'))
    by (intros k j Hj; apply (Hsettled k j Hj)).
  assert (with_jobs (delete_in ∅) db' = db') as ->
    by (apply with_jobs_id, delete_in_empty).
  reflexivity.
Qed.

(** X7.  updateJobStatus writes [started_at] once: on a row that has a
    start time, no call changes it, whatever the status it sets.  It writes
    to the row of its job only, and on an id that has no row it changes
    nothing. *)
Theorem updateJobStatus_keeps_start_time (jobId : string) (st : job_status)
    (p : Z) (res : option job_result) (message : option string) (now : Z)
    (db : DB) :
  (forall j t, jobs db !! jobId = Some j -> started_at j = Some t ->
     started_at
       <$> jobs (updateJobStatus jobId st p res message now db) !! jobId
     = Some (Some t))
  /\ (forall other, other <> jobId ->
        jobs (updateJobStatus jobId st p res message now db) !! other
        = jobs db !! other)
  /\ (jobs db !! jobId = None ->
      updateJobStatus jobId st p res message now db = db).
Proof.
  unfold updateJobStatus. repeat split.
  - intros j t Hj Ht. rewrite lookup_alter_jobs.
    destruct (decide (jobId = jobId)); [| congruence].
    unfold getJobStartTime. rewrite Hj. simpl. rewrite Ht.
    destruct st; reflexivity.
  - intros other Hne. rewrite lookup_alter_jobs.
    destruct (decide (jobId = other)); congruence.
  - intros Hnone. apply with_jobs_id. apply alter_id.
    intros j Hj. congruence.
Qed.

(** ** The scan orchestrator *)

Lemma jobs_fold_update_other (jobId other : string) (total : nat) (now : Z)
    (marks : list nat) (db : DB) :
  other <> jobId ->
  jobs
    (fold_left
       (fun d processed =>
          updateJobStatus jobId running (batch_progress processed total)
            None None now d) marks db) !! other
  = jobs db !! other.
Proof.
  intros Hne. revert db. induction marks as [| m marks IH]; intros db; simpl.
  - reflexivity.
  - rewrite IH. unfold updateJobStatus. rewrite lookup_alter_jobs.
    destruct (decide (jobId = other)); congruence.
Qed.

Lemma websites_fold_update (jobId : string) (total : nat) (now : Z)
    (marks : list nat) (db : DB) :
  websites
    (fold_left
       (fun d processed =>
          updateJobStatus jobId running (batch_progress processed total)
            None None now d) marks db)
  = websites db.
Proof.
  revert db. induction marks as [| m marks IH]; intros db; simpl.
  - reflexivity.
  - rewrite IH. reflexivity.
Qed.

Lemma lookup_updateJobStatus (jobId : string) (st : job_status) (p : Z)
    (res : option job_result) (message : option string) (now : Z) (db : DB)
    (j : job) :
  jobs db !! jobId = Some j ->
  jobs (updateJobStatus jobId st p res message now db) !! jobId
  = Some (update_status_row st p res message now (started_at j) j).
Proof.
  intros Hj. unfold updateJobStatus. rewrite lookup_alter_jobs.
  destruct (decide (jobId = jobId)); [| congruence].
  unfold getJobStartTime. rewrite Hj. reflexivity.
Qed.

Lemma jobs_fold_update_Some (jobId : string) (total : nat) (now : Z)
    (marks : list nat) (db : DB) :
  is_Some (jobs db !! jobId) ->
  is_Some
    (jobs
       (fold_left
          (fun d processed =>
             updateJobStatus jobId running (batch_progress processed total)
               None None now d) marks db) !! jobId).
Proof.
  revert db. induction marks as [| m marks IH]; intros db Hdb; simpl.
  - exact Hdb.
  - apply IH. destruct Hdb as [j Hj].
    rewrite (lookup_updateJobStatus _ _ _ _ _ _ _ _ Hj). eauto.
Qed.

(** X8.  When discovery raises, processJob marks the job failed, with the
    message of the exception, progress 0 and [completed_at] set; the scan
    row it had created is left as it was created: running, without
    [completed_at] and without an error message. *)
Theorem processJob_failure_leaves_scan_running (maxConcurrency : positive)
    (w : world) (jobId : string) (db : DB) (j : job) (site : website)
    (message : string) :
  jobs db !! jobId = Some j ->
  websites db !! website_id j = Some site ->
  discovered w = inl message ->
  message <> "" ->
  (exists j',
     jobs (processJob maxConcurrency w jobId db) !! jobId = Some j'
     /\ status j' = failed
     /\ progress j' = 0
     /\ completed_at j' = Some (clock_end w)
     /\ error_message j' = Some message)
  /\ scans (processJob maxConcurrency w jobId db) !! new_scan_id w
     = Some (new_scan j (clock_start w))
  /\ scan_status_of (new_scan j (clock_start w)) = scan_running
  /\ scan_completed_at (new_scan j (clock_start w)) = None.
Proof.
  intros Hj Hsite Hthrow Hmessage.
  unfold processJob. rewrite Hj. simpl. rewrite Hsite, Hthrow.
  split; [| split; [| split; reflexivity]].
  - pose proof (lookup_updateJobStatus jobId running 0 None None
                  (clock_start w) db j Hj) as Hj1.
    eexists. split.
    + apply lookup_updateJobStatus. simpl. exact Hj1.
    + simpl. repeat split.
      assert (String.eqb message "" = false) as ->
        by (apply String.eqb_neq; exact Hmessage).
      reflexivity.
  - simpl. apply lookup_insert_eq.
Qed.

Lemma processJob_failure_leaves_scan_running_witness :
  scans
    (processJob 20
       {| clock_start := 1000; clock_end := 5000; new_scan_id := "scan-1";
          discovered := inl "settings is null";
          processUrl := example_result |}
       "job-1" example_site_db) !! "scan-1"
  = Some (new_scan (example_job queued None) 1000).
Proof.
  destruct (processJob_failure_leaves_scan_running 20
              {| clock_start := 1000; clock_end := 5000;
                 new_scan_id := "scan-1";
                 discovered := inl "settings is null";
                 processUrl := example_result |}
              "job-1" example_site_db (example_job queued None)
              {| site_url := "https://example.com/";
                 site_last_scan := 0; site_total_pages := 0;
                 site_new_pages := 0; site_changed_pages := 0;
                 site_removed_pages := 0 |}
              "settings is null" eq_refl eq_refl eq_refl)
    as (_ & Hscan & _).
  - discriminate.
  - exact Hscan.
Defined.

(** X9.  processJob creates no scan and touches no website when it cannot
    start: for a job id that has no row it leaves the whole database as it
    is; for a job whose website has no row it marks the job failed and
    leaves the scans and websites tables as they are. *)
Theorem processJob_without_job_or_website (maxConcurrency : positive)
    (w : world) (jobId : string) (db : DB) :
  (jobs db !! jobId = None -> processJob maxConcurrency w jobId db = db)
  /\ (forall j,
        jobs db !! jobId = Some j -> websites db !! website_id j = None ->
        scans (processJob maxConcurrency w jobId db) = scans db
        /\ websites (processJob maxConcurrency w jobId db) = websites db
        /\ status <$> jobs (processJob maxConcurrency w jobId db) !! jobId
           = Some failed).
Proof.
  split.
  - intros Hnone. unfold processJob. rewrite Hnone.
    unfold updateJobStatus. apply with_jobs_id, alter_id.
    intros j Hj. congruence.
  - intros j Hj Hsite. unfold processJob. rewrite Hj. simpl. rewrite Hsite.
    repeat split.
    pose proof (lookup_updateJobStatus jobId running 0 None None
                  (clock_start w) db j Hj) as Hj1.
    erewrite lookup_updateJobStatus by exact Hj1. reflexivity.
Qed.

(** X10.  When processJob completes, the three tables agree: the job is
    completed with progress 100 and a result that names the new scan and
    its number of pages, and the row of the website carries the
    [total_pages] and [new_pages] of the scan and the instant of its
    completion as [last_scan]. *)
Theorem processJob_success_is_consistent (maxConcurrency : positive)
    (w : world) (jobId : string) (db : DB) (j : job) (site : website)
    (urls : list string) :
  jobs db !! jobId = Some j ->
  websites db !! website_id j = Some site ->
  discovered w = inr urls ->
  exists j' s site',
    jobs (processJob maxConcurrency w jobId db) !! jobId = Some j'
    /\ scans (processJob maxConcurrency w jobId db) !! new_scan_id w = Some s
    /\ websites (processJob maxConcurrency w jobId db) !! website_id j
       = Some site'
    /\ status j' = completed
    /\ progress j' = 100
    /\ completed_at j' = Some (clock_end w)
    /\ result j'
       = Some {| result_scan_id := new_scan_id w;
                 result_total_pages := total_pages s;
                 result_duration := (clock_end w - clock_start w) / 1000 |}
    /\ duration s = Some ((clock_end w - clock_start w) / 1000)
    /\ site_total_pages site' = total_pages s
    /\ site_new_pages site' = new_pages s
    /\ site_last_scan site' = clock_end w.
Proof.
  intros Hj Hsite Hurls.
  unfold processJob. rewrite Hj. simpl. rewrite Hsite, Hurls.
  unfold processUrlsBatch.
  set (db3 := updateJobStatus jobId running 25 None None (clock_start w) _).
  set (db4 := fold_left _ _ db3).
  set (db5 := updateJobStatus jobId running 75 None None (clock_end w) db4).
  assert (is_Some (jobs db5 !! jobId)) as [j5 Hj5].
  { pose proof (lookup_updateJobStatus jobId running 0 None None
                  (clock_start w) db j Hj) as Hj1.
    assert (is_Some (jobs db4 !! jobId)) as [j4 Hj4].
    { apply jobs_fold_update_Some. unfold db3.
      erewrite lookup_updateJobStatus by (simpl; exact Hj1). eauto. }
    unfold db5. rewrite (lookup_updateJobStatus _ _ _ _ _ _ _ _ Hj4). eauto. }
  eexists _, _, _. split; [| split; [| split]].
  - apply lookup_updateJobStatus. simpl. exact Hj5.
  - simpl. rewrite lookup_alter_eq. unfold db4.
    rewrite scans_fold_update. simpl. rewrite lookup_insert_eq. reflexivity.
  - simpl. rewrite lookup_alter_eq. unfold db4.
    rewrite websites_fold_update. simpl. rewrite Hsite. reflexivity.
  - simpl. repeat split.
Qed.

Lemma processJob_success_is_consistent_witness :
  exists j',
    jobs (processJob 20 (example_world "scan-1" 1000) "job-1" example_site_db)
      !! "job-1" = Some j'
    /\ status j' = completed.
Proof.
  destruct (processJob_success_is_consistent 20 (example_world "scan-1" 1000)
              "job-1" example_site_db (example_job queued None)
              {| site_url := "https://example.com/";
                 site_last_scan := 0; site_total_pages := 0;
                 site_new_pages := 0; site_changed_pages := 0;
                 site_removed_pages := 0 |}
              ["https://example.com/"] eq_refl eq_refl eq_refl)
    as (j' & s & site' & Hjob & _ & _ & Hstatus & _).
  exists j'. split; [exact Hjob | exact Hstatus].
Defined.




(** ** The pattern matcher *)

(** X12.  Whatever the regular expression engine of the host: an include
    list that is not empty and has every pattern disabled admits no URL.
    Where the exclude patterns are expressions the RegExp constructor
    accepts, the inclusion predicate returns false; the disabled patterns
    are not given to the constructor, so they need not be expressions. *)
Theorem matchesPatterns_all_disabled (engine : regexp_engine) (url : string)
    (includePatterns : list CrawlingPatternConfig)
    (excludePatterns : list string) :
  includePatterns <> [] ->
  Forall (fun p => enabled p = false) includePatterns ->
  Forall (compiles engine) excludePatterns ->
  matchesPatterns engine url includePatterns excludePatterns = Returns false.
Proof.
  intros Hne Hdisabled Hexclude. unfold matchesPatterns.
  rewrite (exclude_loop_compiles engine url excludePatterns Hexclude).
  simpl.
  destruct (existsb (matches engine url) excludePatterns); [reflexivity |].
  destruct includePatterns as [| p rest]; [contradiction |].
  clear Hne. induction Hdisabled as [| q l Hq _ IH]; simpl.
  - reflexivity.
  - rewrite Hq. destruct l; [reflexivity | exact IH].
Qed.

Lemma matchesPatterns_all_disabled_witness :
  matchesPatterns modelled_engine "https://example.com/products/a"
    [ {| pattern := "+"; enabled := false |} ] [ "/admin/*" ]
  = Returns false.
Proof.
  apply (matchesPatterns_all_disabled modelled_engine
           "https://example.com/products/a"
           [ {| pattern := "+"; enabled := false |} ] [ "/admin/*" ]).
  - discriminate.
  - repeat constructor.
  - repeat constructor. eexists. vm_compute. reflexivity.
Defined.

Lemma fits_literal (l mid : list ascii) :
  forallb literal_char l = true ->
  fits (List.map glob_item l) mid <-> mid = l.
Proof.
  revert mid. induction l as [| c l IH]; intros mid Hl; simpl.
  - split.
    + intros Hfit. inversion Hfit. reflexivity.
    + intros ->. constructor.
  - simpl in Hl. apply andb_true_iff in Hl. destruct Hl as [Hc Hl].
    unfold literal_char in Hc.
    apply andb_true_iff in Hc. destruct Hc as [_ Hc].
    apply negb_true_iff in Hc. apply orb_false_iff in Hc.
    destruct Hc as [Hc Hdot]. apply orb_false_iff in Hc.
    destruct Hc as [Hstar Hmark].
    assert (glob_item c = (Lit c, Once)) as ->.
    { unfold glob_item. rewrite Hstar, Hmark, Hdot. reflexivity. }
    split.
    + intros Hfit. inversion Hfit as [| a r d s Hd Hrest | |]; subst.
      simpl in Hd. apply is_char_eq in Hd. subst d.
      f_equal. apply IH; assumption.
    + intros ->. constructor.
      * simpl. apply is_char_eq. reflexivity.
      * apply IH; [assumption | reflexivity].
Qed.

Lemma literal_is_glob (l : list ascii) :
  forallb literal_char l = true -> forallb glob_char l = true.
Proof.
  induction l as [| c l IH]; simpl; [reflexivity |].
  intros Hl. apply andb_true_iff in Hl. destruct Hl as [Hc Hl].
  rewrite (IH Hl), andb_true_r. unfold literal_char in Hc.
  apply andb_true_iff in Hc. destruct Hc as [Hc _]. exact Hc.
Qed.

(** X13.  A pattern without wildcards is a substring test: where the
    pattern has no [*], no [?], no [.] and no other syntax character of a
    regular expression, the matcher returns true exactly when the pattern
    occurs in the URL. *)
Theorem matchesPattern_literal_is_substring (url pattern : string) :
  is_literal pattern = true ->
  exists found,
    matchesPattern url pattern = Returns found
    /\ (found = true
        <-> exists before rest : list ascii,
              list_ascii_of_string url
              = before ++ list_ascii_of_string pattern ++ rest).
Proof.
  intros Hliteral. unfold matchesPattern, RegExp_test.
  rewrite list_ascii_of_regexPattern,
    (parse_regexp_glob _ (literal_is_glob _ Hliteral)).
  eexists. split; [reflexivity |]. rewrite match_anywhere_fits.
  unfold fits_inside. split.
  - intros (before & mid & rest & Heq & Hfit).
    apply (fits_literal _ _ Hliteral) in Hfit. subst mid. eauto.
  - intros (before & rest & Heq).
    exists before, (list_ascii_of_string pattern), rest.
    split; [exact Heq |]. apply (fits_literal _ _ Hliteral). reflexivity.
Qed.

Lemma matchesPattern_literal_is_substring_witness :
  matchesPattern "https://example.com/login" "/login" = Returns true.
Proof.
  destruct (matchesPattern_literal_is_substring "https://example.com/login"
              "/login" eq_refl) as (found & Hrun & Hfound).
  rewrite Hrun. f_equal. apply Hfound.
  exists (list_ascii_of_string "https://example.com"), []. reflexivity.
Defined.

Lemma fits_app (r1 r2 : list (atom * quantifier)) (s1 s2 : list ascii) :
  fits r1 s1 -> fits r2 s2 -> fits (r1 ++ r2) (s1 ++ s2).
Proof.
  induction 1 as [| a r c s Hc _ IH | a r run s Hrun _ IH
                  | a r c run s Hc Hrun _ IH]; intros H2; simpl.
  - exact H2.
  - constructor; auto.
  - rewrite <- app_assoc. constructor; auto.
  - rewrite <- app_assoc. constructor; auto.
Qed.

Lemma fits_app_inv (r1 r2 : list (atom * quantifier)) (s : list ascii) :
  fits (r1 ++ r2) s ->
  exists s1 s2, s = s1 ++ s2 /\ fits r1 s1 /\ fits r2 s2.
Proof.
  revert s. induction r1 as [| [a q] r1 IH]; intros s Hfit; simpl in Hfit.
  - exists [], s. repeat split; [constructor | exact Hfit].
  - inversion Hfit as [| ? ? c s' Hc Hrest | ? ? run s' Hrun Hrest
                       | ? ? c run s' Hc Hrun Hrest]; subst;
      destruct (IH _ Hrest) as (s1 & s2 & -> & H1 & H2).
    + exists (c :: s1), s2. repeat split; [constructor; auto | exact H2].
    + exists (run ++ s1), s2. rewrite app_assoc.
      repeat split; [constructor; auto | exact H2].
    + exists (c :: run ++ s1), s2. simpl. rewrite app_assoc.
      repeat split; [constructor; auto | exact H2].
Qed.

Lemma fits_inside_trailing_star (r : list (atom * quantifier))
    (s : list ascii) :
  fits_inside (r ++ [(AnyChar, Star)]) s <-> fits_inside r s.
Proof.
  unfold fits_inside. split.
  - intros (before & mid & rest & -> & Hfit).
    apply fits_app_inv in Hfit. destruct Hfit as (s1 & s2 & -> & H1 & _).
    exists before, s1, (s2 ++ rest). rewrite <- app_assoc. auto.
  - intros (before & mid & rest & -> & Hfit).
    exists before, (mid ++ []), rest. split; [now rewrite app_nil_r |].
    apply fits_app; [exact Hfit |].
    apply (fits_star AnyChar [] [] []); constructor.
Qed.

Lemma fits_inside_leading_star (r : list (atom * quantifier))
    (s : list ascii) :
  fits_inside ((AnyChar, Star) :: r) s <-> fits_inside r s.
Proof.
  unfold fits_inside. split.
  - intros (before & mid & rest & -> & Hfit).
    inversion Hfit as [| | ? ? run mid' Hrun Hrest |]; subst.
    exists (before ++ run), mid', rest. rewrite <- !app_assoc. auto.
  - intros (before & mid & rest & -> & Hfit).
    exists before, ([] ++ mid), rest. split; [reflexivity |].
    constructor; [constructor | exact Hfit].
Qed.

(** X14.  A [*] at the start or at the end of a glob is redundant: the
    expression is not anchored, so the pattern with the [*] and the pattern
    without it match the same URLs. *)
Theorem matchesPattern_outer_star_redundant (url pattern : string) :
  is_glob pattern = true ->
  matchesPattern url (pattern +:+ "*") = matchesPattern url pattern
  /\ matchesPattern url ("*" +:+ pattern) = matchesPattern url pattern.
Proof.
  intros Hglob.
  assert (forall r r' : list (atom * quantifier),
            (fits_inside r' (list_ascii_of_string url)
             <-> fits_inside r (list_ascii_of_string url)) ->
            match_anywhere r' (list_ascii_of_string url)
            = match_anywhere r (list_ascii_of_string url)) as Hsame.
  { intros r r' Hiff. apply eq_true_iff_eq.
    rewrite !match_anywhere_fits. exact Hiff. }
  unfold matchesPattern, RegExp_test.
  rewrite !list_ascii_of_regexPattern, !list_ascii_of_string_append.
  rewrite (parse_regexp_glob _ Hglob).
  rewrite !parse_regexp_glob.
  - rewrite map_app. simpl. split; f_equal; apply Hsame.
    + apply fits_inside_trailing_star.
    + apply fits_inside_leading_star.
  - simpl. exact Hglob.
  - rewrite forallb_app. unfold is_glob in Hglob. rewrite Hglob. reflexivity.
Qed.

Lemma matchesPattern_outer_star_redundant_witness :
  matchesPattern "https://example.com/admin/users" "/admin/*"
  = matchesPattern "https://example.com/admin/users" "/admin/".
Proof.
  apply (matchesPattern_outer_star_redundant
           "https://example.com/admin/users" "/admin/" eq_refl).
Defined.

(** ** The breadcrumbs *)

Lemma try_script_inert (parsed : option value) (breadcrumbs : list value) :
  inert parsed -> try_script parsed breadcrumbs = (breadcrumbs, false).
Proof.
  destruct parsed as [data |]; [| reflexivity]. simpl.
  destruct (get_prop "@type" data) as [ty | |]; try reflexivity.
  intros ->. destruct (get_prop "itemListElement" data); reflexivity.
Qed.

Lemma jsonld_loop_inert (skipped scripts : list (option value))
    (breadcrumbs : list value) :
  Forall inert skipped ->
  jsonld_loop (skipped ++ scripts) breadcrumbs
  = jsonld_loop scripts breadcrumbs.
Proof.
  induction 1 as [| parsed skipped Hparsed _ IH]; [reflexivity |].
  simpl. rewrite (try_script_inert _ _ Hparsed). exact IH.
Qed.

(** X15.  Scripts that are no JSON or no BreadcrumbList are passed over
    without a trace: the names of the first BreadcrumbList after them are
    returned, whatever follows and whatever the selectors would find. *)
Theorem extractBreadcrumbs_skips_other_scripts (items : list value)
    (skipped scripts : list (option value))
    (texts : string -> option (list string)) :
  Forall inert skipped ->
  forallb (fun item => negb (is_null item)) items = true ->
  names_of items <> [] ->
  extractBreadcrumbs
    {| jsonLdScripts := skipped ++ Some (breadcrumb_list items) :: scripts;
       selector_texts := texts |}
  = names_of items.
Proof.
  intros Hskipped Hitems Hnames. unfold extractBreadcrumbs.
  cbn [jsonLdScripts]. rewrite (jsonld_loop_inert _ _ _ Hskipped).
  simpl. rewrite (push_names_not_null items [] Hitems). simpl.
  destruct (names_of items); [contradiction | reflexivity].
Qed.

Lemma extractBreadcrumbs_skips_other_scripts_witness :
  extractBreadcrumbs
    {| jsonLdScripts :=
         [ None; Some (Obj [("@type", Str "Organization")]) ]
         ++ Some (breadcrumb_list [ Obj [("name", Str "Shop")] ]) :: [];
       selector_texts := fun _ => Some ["Home"] |}
  = names_of [ Obj [("name", Str "Shop")] ].
Proof.
  apply (extractBreadcrumbs_skips_other_scripts
           [ Obj [("name", Str "Shop")] ]
           [ None; Some (Obj [("@type", Str "Organization")]) ] []).
  - repeat constructor.
  - reflexivity.
  - discriminate.
Defined.

Lemma selector_loop_step (view : html_view) (selector : string)
    (rest : list string) :
  selector_loop view (selector :: rest) []
  = match crumbs_at view selector with
    | [] => selector_loop view rest []
    | crumbs => List.map Str crumbs
    end.
Proof.
  unfold crumbs_at. simpl.
  destruct (selector_texts view selector) as [textMatches |]; [| reflexivity].
  unfold push_texts. simpl.
  destruct (List.filter is_crumb (List.map trim textMatches)); reflexivity.
Qed.

Lemma selector_loop_nothing (view : html_view) (before rest : list string) :
  Forall (fun s => crumbs_at view s = []) before ->
  selector_loop view (before ++ rest) [] = selector_loop view rest [].
Proof.
  induction 1 as [| selector before Hselector _ IH]; [reflexivity |].
  cbn [app]. rewrite selector_loop_step, Hselector. exact IH.
Qed.

(** X16.  Without a BreadcrumbList in the document the crumbs come from one
    selector only, the first in the fixed order that yields a crumb, and
    are the trimmed texts of it that are neither empty nor made of [>] and
    white space; where no selector yields a crumb the result is empty. *)
Theorem extractBreadcrumbs_first_selector (view : html_view) :
  Forall inert (jsonLdScripts view) ->
  (Forall (fun s => crumbs_at view s = []) selectors ->
   extractBreadcrumbs view = [])
  /\ (forall before selector after,
        selectors = before ++ selector :: after ->
        Forall (fun s => crumbs_at view s = []) before ->
        crumbs_at view selector <> [] ->
        extractBreadcrumbs view = List.map Str (crumbs_at view selector)
        /\ Forall (fun text => is_crumb text = true)
             (crumbs_at view selector)).
Proof.
  intros Hscripts. unfold extractBreadcrumbs.
  rewrite <- (app_nil_r (jsonLdScripts view)),
    (jsonld_loop_inert _ [] [] Hscripts).
  cbn [jsonld_loop]. split.
  - intros Hnone. rewrite <- (app_nil_r selectors).
    rewrite (selector_loop_nothing _ _ [] Hnone). reflexivity.
  - intros before selector after -> Hbefore Hsome. split.
    + rewrite (selector_loop_nothing _ _ _ Hbefore), selector_loop_step.
      destruct (crumbs_at view selector); [contradiction | reflexivity].
    + unfold crumbs_at.
      destruct (selector_texts view selector) as [textMatches |];
        [| constructor].
      apply List.Forall_forall. intros text Hin.
      apply filter_In in Hin. apply Hin.
Qed.

Lemma extractBreadcrumbs_first_selector_witness :
  extractBreadcrumbs
    {| jsonLdScripts := [None];
       selector_texts :=
         fun selector =>
           if String.eqb selector ".breadcrumbs"
           then Some [" Home "; " > "; "Shop"] else None |}
  = [Str "Home"; Str "Shop"].
Proof.
  set (view := {| jsonLdScripts := [None];
                  selector_texts :=
                    fun selector =>
                      if String.eqb selector ".breadcrumbs"
                      then Some [" Home "; " > "; "Shop"] else None |}).
  assert (Forall inert (jsonLdScripts view)) as Hscripts
    by (repeat constructor).
  destruct (extractBreadcrumbs_first_selector view Hscripts) as [_ Hfirst].
  destruct (Hfirst [".breadcrumb"] ".breadcrumbs"
              (List.tl (List.tl selectors))) as [Hrun _].
  - reflexivity.
  - repeat constructor.
  - discriminate.
  - exact Hrun.
Defined.

(** ** deepMerge on nested objects *)

(** X17.  The merge is deep.  For an override of ordinary keys (no key
    named hasOwnProperty or __proto__ at any depth) that holds an object at
    a key, the merge returns, and the result holds at that key: where the
    target has an own property of the key, the merge of its value (the
    empty object when that is falsy) with the override's object; where it
    has none and the key names a method that every object inherits, the
    override's object as it is; and otherwise the merge of the empty object
    with it.  So where the target holds an object at the key, every nested
    key that the nested override leaves out or sets to null keeps the
    nested value of the target. *)
Theorem deepMerge_merges_nested_objects
    (target source : list (string * value)) (key : string)
    (sub : list (string * value)) :
  NoDup (List.map fst source) ->
  ordinary (Obj source) = true ->
  lookup_field key source = Obj sub ->
  exists merged nested,
    deepMerge (Obj target) (Obj source) = Returns (Obj merged)
    /\ lookup_field key merged = nested
    /\ (has_field key target = true ->
        deepMerge (or_empty (lookup_field key target)) (Obj sub)
        = Returns nested)
    /\ (has_field key target = false ->
        is_member key object_members = true -> nested = Obj sub)
    /\ (has_field key target = false ->
        is_member key object_members = false ->
        deepMerge (Obj []) (Obj sub) = Returns nested)
    /\ (forall tsub inner,
          NoDup (List.map fst sub) ->
          lookup_field key target = Obj tsub ->
          is_nullish (lookup_field inner sub) ->
          exists fields,
            nested = Obj fields
            /\ lookup_field inner fields = lookup_field inner tsub).
Proof.
  intros Hnd Hordinary Hsub.
  assert (In (key, Obj sub) source) as Hin.
  { rewrite <- Hsub. apply lookup_field_In. rewrite Hsub. discriminate. }
  assert (key <> "__proto__" /\ ordinary (Obj sub) = true)
    as [Hproto Hordinary'].
  { pose proof (ordinary_fields _ Hordinary) as Hall.
    rewrite List.Forall_forall in Hall.
    destruct (Hall _ Hin) as [Hk Hv]. split; [| exact Hv].
    apply (ordinary_key_spec _ Hk). }
  destruct (deepMerge_returns (Obj source) (Obj target) Hordinary)
    as [out Hout]; [discriminate |].
  rewrite Hout. simpl in Hout.
  destruct (merge_props_nested _ _ key sub _ _ _ _ (fields_are_own source)
              Hnd Hin Hproto Hout)
    as (t & nested & fields & Hread & Hnested & -> & Hlook).
  exists fields, nested.
  split; [reflexivity |]. split; [exact Hlook |]. clear Hlook Hout.
  cbn [read_member] in Hread. apply String.eqb_neq in Hproto.
  assert (has_field key target = true ->
          deepMerge (or_empty (lookup_field key target)) (Obj sub)
          = Returns nested) as Hown.
  { intros Hhas. rewrite Hhas in Hread. injection Hread as <-.
    exact Hnested. }
  split; [exact Hown |]. split; [| split].
  - intros Hhas Hmember. rewrite Hhas, Hproto, Hmember in Hread.
    injection Hread as <-. simpl in Hnested. congruence.
  - intros Hhas Hmember. rewrite Hhas, Hproto, Hmember in Hread.
    injection Hread as <-. exact Hnested.
  - intros tsub inner Hndsub Htsub Hinner.
    assert (has_field key target = true) as Hhas.
    { apply (has_field_In key (Obj tsub)). rewrite <- Htsub.
      apply lookup_field_In. rewrite Htsub. discriminate. }
    specialize (Hown Hhas). rewrite Htsub in Hown.
    change (or_empty (Obj tsub)) with (Obj tsub) in Hown.
    destruct (deepMerge_objects tsub sub Hndsub Hordinary')
      as (m & Hm & Hkeep & _).
    rewrite Hm in Hown. injection Hown as <-.
    exists m. split; [reflexivity |]. apply Hkeep, Hinner.
Qed.

Lemma deepMerge_merges_nested_objects_witness :
  exists merged nested,
    deepMerge
      (Obj [("crawling", Obj [("maxDepth", Num 3); ("maxPages", Num 100)])])
      (Obj [("crawling", Obj [("maxPages", Num 500)])])
    = Returns (Obj merged)
    /\ lookup_field "crawling" merged = nested
    /\ exists fields, nested = Obj fields
                      /\ lookup_field "maxDepth" fields = Num 3.
Proof.
  destruct (deepMerge_merges_nested_objects
              [("crawling", Obj [("maxDepth", Num 3); ("maxPages", Num 100)])]
              [("crawling", Obj [("maxPages", Num 500)])]
              "crawling" [("maxPages", Num 500)])
    as (merged & nested & Hrun & Hlook & _ & _ & _ & Hdeep).
  - apply (bool_decide_unpack _). vm_compute. exact I.
  - reflexivity.
  - reflexivity.
  - exists merged, nested. split; [exact Hrun |]. split; [exact Hlook |].
    apply (Hdeep [("maxDepth", Num 3); ("maxPages", Num 100)] "maxDepth").
    + apply (bool_decide_unpack _). vm_compute. exact I.
    + reflexivity.
    + right. reflexivity.
Defined.

Lemma own_key_not_proto (source : list (string * value)) (k : string) :
  has_field "__proto__" source = false -> has_field k source = true ->
  k <> "__proto__".
Proof. intros Hproto Hk ->. congruence. Qed.

Lemma merge_props_null_target (merge : value -> value -> outcome value)
    (source props result : list (string * value)) :
  has_field "__proto__" source = false ->
  (forall k v, In (k, v) props -> has_field k source = true) ->
  (exists key fields, In (key, Obj fields) props) ->
  merge_props merge Null source props result = Throws "TypeError".
Proof.
  intros Hproto. revert result.
  induction props as [| [k v] rest IH]; intros result Hown Hobj.
  - destruct Hobj as (key & fields & []).
  - assert (forall k' v', In (k', v') rest -> has_field k' source = true)
      as Hrest by (intros k' v' Hin'; apply (Hown k' v'); now right).
    assert (has_field k source = true) as Hk
      by (apply (Hown k v); now left).
    pose proof (own_key_not_proto source k Hproto Hk) as Hne.
    cbn [merge_props]. unfold hasOwnProperty_call.
    destruct (has_field "hasOwnProperty" source); [reflexivity |].
    rewrite Hk. cbn [bind].
    assert ((exists fields, v = Obj fields)
            \/ exists key fields, In (key, Obj fields) rest) as [Hv | Hlater].
    { destruct Hobj as (key & fields & [[= _ ->] | Hin]); eauto. }
    + destruct Hv as [fields ->]. reflexivity.
    + destruct v as [| | b | n | str | items | fields];
        try (apply IH; assumption);
        try (rewrite (assign_ordinary k _ result Hne); cbn [bind];
             apply IH; assumption).
      reflexivity.
Qed.

Lemma merge_props_flat (merge : value -> value -> outcome value)
    (target : value) (source props result : list (string * value)) :
  has_field "__proto__" source = false ->
  has_field "hasOwnProperty" source = false ->
  (forall k v, In (k, v) props -> has_field k source = true) ->
  (forall k v, In (k, v) props -> forall fields, v <> Obj fields) ->
  exists merged,
    merge_props merge target source props result = Returns (Obj merged).
Proof.
  intros Hproto Hcall. revert result.
  induction props as [| [k v] rest IH]; intros result Hown Hflat.
  - simpl. eauto.
  - assert (forall k' v', In (k', v') rest -> has_field k' source = true)
      as Hrest by (intros k' v' Hin'; apply (Hown k' v'); now right).
    assert (forall k' v', In (k', v') rest ->
              forall fields, v' <> Obj fields) as Hflat'
      by (intros k' v' Hin'; apply (Hflat k' v'); now right).
    assert (has_field k source = true) as Hk
      by (apply (Hown k v); now left).
    pose proof (own_key_not_proto source k Hproto Hk) as Hne.
    cbn [merge_props]. unfold hasOwnProperty_call. rewrite Hcall, Hk.
    cbn [bind].
    destruct v as [| | b | n | str | items | fields];
      try (apply IH; assumption);
      try (rewrite (assign_ordinary k _ result Hne); cbn [bind];
           apply IH; assumption).
    exfalso. apply (Hflat k (Obj fields) (or_introl eq_refl) fields).
    reflexivity.
Qed.

(** X18.  A null target is no object to merge into, yet it passes the
    [typeof] test.  For an override without a key named __proto__: merging
    it into null raises a TypeError when it holds an object at some key
    (the read of the target's property) and when it has a key named
    hasOwnProperty (the call of what is no function); an override with
    neither is merged into an empty object; and undefined as target gives
    the override back. *)
Theorem deepMerge_null_target (source : list (string * value)) :
  has_field "__proto__" source = false ->
  ((exists key fields, In (key, Obj fields) source) ->
   deepMerge Null (Obj source) = Throws "TypeError")
  /\ (has_field "hasOwnProperty" source = true ->
      deepMerge Null (Obj source) = Throws "TypeError")
  /\ (has_field "hasOwnProperty" source = false ->
      (forall key v, In (key, v) source -> forall fields, v <> Obj fields) ->
      exists merged, deepMerge Null (Obj source) = Returns (Obj merged))
  /\ deepMerge Undefined (Obj source) = Returns (Obj source).
Proof.
  intros Hproto. split; [| split; [| split; [| reflexivity]]].
  - intros Hobj. simpl.
    apply merge_props_null_target;
      [exact Hproto | apply fields_are_own | exact Hobj].
  - intros Hcall. simpl. destruct source as [| [k v] rest];
      [discriminate |].
    cbn [merge_props]. unfold hasOwnProperty_call. rewrite Hcall.
    reflexivity.
  - intros Hcall Hflat. simpl.
    apply merge_props_flat;
      [exact Hproto | exact Hcall | apply fields_are_own | exact Hflat].
Qed.

Lemma deepMerge_null_target_witness :
  deepMerge Null (Obj [("discovery", Obj [("maxDepth", Num 3)])])
  = Throws "TypeError".
Proof.
  destruct (deepMerge_null_target
              [("discovery", Obj [("maxDepth", Num 3)])] eq_refl)
    as [Hthrows _].
  apply Hthrows. exists "discovery", [("maxDepth", Num 3)]. left.
  reflexivity.
Defined.

(** ** The comparison of headers *)

Lemma map_get_cons {K V} `{EqDecision K} (k : K) (e : K * V)
    (m : list (K * V)) :
  map_get k (e :: m) = if bool_decide (e.1 = k) then Some e.2 else map_get k m.
Proof. unfold map_get. simpl. destruct (bool_decide (e.1 = k)); reflexivity. Qed.

Lemma map_get_header_map_before (lvl : Z) (hs : list HeaderStructure)
    (n k : nat) :
  (k < n)%nat ->
  map_get (lvl, k) (imap (fun i h => ((level h, (n + i)%nat), h)) hs) = None.
Proof.
  revert n. induction hs as [| h hs IH]; intros n Hk; [reflexivity |].
  rewrite imap_cons, map_get_cons. cbn [fst].
  rewrite bool_decide_eq_false_2 by (intros [= _ ?]; lia).
  rewrite (imap_ext _ (fun i h => ((level h, (S n + i)%nat), h)))
    by (intros i x _; simpl; do 2 f_equal; lia).
  apply IH. lia.
Qed.

Lemma map_get_header_map_from (lvl : Z) (hs : list HeaderStructure)
    (n k : nat) :
  map_get (lvl, (n + k)%nat)
    (imap (fun i h => ((level h, (n + i)%nat), h)) hs)
  = header_at hs lvl k.
Proof.
  revert n k. induction hs as [| h hs IH]; intros n k; [reflexivity |].
  rewrite imap_cons, map_get_cons. cbn [fst snd].
  rewrite (imap_ext _ (fun i h => ((level h, (S n + i)%nat), h)))
    by (intros i x _; simpl; do 2 f_equal; lia).
  destruct k as [| k].
  - unfold header_at. change ((h :: hs) !! 0%nat) with (Some h).
    destruct (decide (level h = lvl)) as [Hl | Hl].
    + rewrite bool_decide_eq_true_2 by (rewrite Hl; f_equal; lia).
      rewrite bool_decide_eq_true_2 by exact Hl. reflexivity.
    + rewrite bool_decide_eq_false_2 by (intros [= ?]; contradiction).
      rewrite bool_decide_eq_false_2 by exact Hl.
      apply map_get_header_map_before. lia.
  - rewrite bool_decide_eq_false_2 by (intros [= _ ?]; lia).
    replace (n + S k)%nat with (S n + k)%nat by lia.
    rewrite IH. reflexivity.
Qed.

Lemma map_get_header_map (lvl : Z) (hs : list HeaderStructure) (k : nat) :
  map_get (lvl, k) (header_map hs) = header_at hs lvl k.
Proof. exact (map_get_header_map_from lvl hs 0 k). Qed.

Lemma flat_map_imap {A B C} (g : B -> list C) (f : nat -> A -> B)
    (l : list A) :
  flat_map g (imap f l) = concat (imap (fun i x => g (f i x)) l).
Proof.
  revert f. induction l as [| x l IH]; intros f; [reflexivity |].
  rewrite !imap_cons. simpl. f_equal. apply IH.
Qed.

Lemma flat_map_header_map {C}
    (g : (Z * nat) * HeaderStructure -> list C) (hs : list HeaderStructure) :
  flat_map g (header_map hs)
  = concat (imap (fun i h => g ((level h, i), h)) hs).
Proof. apply flat_map_imap. Qed.

Lemma concat_imap_nil {A C} (f : nat -> A -> list C) (l : list A) :
  (forall i x, l !! i = Some x -> f i x = []) -> concat (imap f l) = [].
Proof.
  intros Hnil. rewrite (imap_ext f (fun _ _ => [])) by exact Hnil.
  clear Hnil. induction l as [| x l IH]; [reflexivity |].
  rewrite imap_cons. exact IH.
Qed.

Lemma concat_imap_zip {A B C} (F : A -> B -> list C) (l : list A)
    (l' : list B) :
  concat (imap (fun i x => match l' !! i with
                           | Some y => F x y
                           | None => []
                           end) l)
  = flat_map (fun p => F p.1 p.2) (zip l l').
Proof.
  revert l'. induction l as [| x l IH]; intros l'; [reflexivity |].
  rewrite imap_cons. destruct l' as [| y l'].
  - simpl. apply concat_imap_nil. reflexivity.
  - simpl. f_equal. apply IH.
Qed.

Lemma concat_imap_singleton {A C} (F : A -> C) (l : list A) :
  concat (imap (fun _ x => [F x]) l) = List.map F l.
Proof.
  induction l as [| x l IH]; [reflexivity |]. rewrite imap_cons. simpl.
  f_equal. exact IH.
Qed.

(** Where the two lists have the same levels position by position, no
    header is added or removed, and the headers are compared by position. *)
Lemma compareHeaders_positions (baseHeaders headers' : list HeaderStructure) :
  List.map level baseHeaders = List.map level headers' ->
  compareHeaders baseHeaders headers'
  = flat_map (fun p => if String.eqb (text p.1) (text p.2) then []
                       else [modified_header p.1 p.2])
      (zip baseHeaders headers').
Proof.
  intros Hlevels.
  assert (forall i b, baseHeaders !! i = Some b ->
            exists c, headers' !! i = Some c /\ level c = level b) as Hfwd.
  { intros i b Hb.
    assert ((List.map level headers') !! i = Some (level b)) as Hc
      by (rewrite <- Hlevels; change (List.map level baseHeaders)
            with (level <$> baseHeaders);
          rewrite list_lookup_fmap, Hb; reflexivity).
    change (List.map level headers') with (level <$> headers') in Hc.
    rewrite list_lookup_fmap in Hc.
    destruct (headers' !! i) as [c |]; [| discriminate].
    injection Hc as Hc. eauto. }
  assert (forall i c, headers' !! i = Some c ->
            exists b, baseHeaders !! i = Some b /\ level b = level c) as Hbwd.
  { intros i c Hc.
    assert ((List.map level baseHeaders) !! i = Some (level c)) as Hb
      by (rewrite Hlevels; change (List.map level headers')
            with (level <$> headers');
          rewrite list_lookup_fmap, Hc; reflexivity).
    change (List.map level baseHeaders) with (level <$> baseHeaders) in Hb.
    rewrite list_lookup_fmap in Hb.
    destruct (baseHeaders !! i) as [b |]; [| discriminate].
    injection Hb as Hb. eauto. }
  unfold compareHeaders. cbv zeta.
  rewrite !flat_map_header_map. cbn [fst snd].
  rewrite (concat_imap_nil _ baseHeaders), (concat_imap_nil _ headers').
  - cbn [app].
    etransitivity;
      [| apply (concat_imap_zip
                  (fun b c => if String.eqb (text b) (text c) then []
                              else [modified_header b c]))].
    f_equal. apply imap_ext.
    intros i b Hb. rewrite map_get_header_map. unfold header_at.
    destruct (Hfwd i b Hb) as (c & -> & Hc).
    rewrite bool_decide_eq_true_2 by exact Hc. reflexivity.
  - intros i c Hc. unfold map_has. rewrite map_get_header_map.
    unfold header_at. destruct (Hbwd i c Hc) as (b & -> & Hb).
    rewrite bool_decide_eq_true_2 by exact Hb. reflexivity.
  - intros i b Hb. unfold map_has. rewrite map_get_header_map.
    unfold header_at. destruct (Hfwd i b Hb) as (c & -> & Hc).
    rewrite bool_decide_eq_true_2 by exact Hc. reflexivity.
Qed.

Lemma compareHeaders_same (hs : list HeaderStructure) :
  compareHeaders hs hs = [].
Proof.
  rewrite compareHeaders_positions by reflexivity.
  induction hs as [| h hs IH]; [reflexivity |]. simpl.
  rewrite String.eqb_refl. exact IH.
Qed.

(** X19.  Headers are compared by position and level.  Where the two pages
    have the same sequence of header levels, no header counts as added or
    removed, and the result holds one [modified] change for each position
    whose texts differ, in order, with the level of the header deciding the
    impact. *)
Theorem compareHeaders_same_levels
    (baseHeaders headers' : list HeaderStructure) :
  List.map level baseHeaders = List.map level headers' ->
  compareHeaders baseHeaders headers'
  = flat_map (fun p => if String.eqb (text p.1) (text p.2) then []
                       else [modified_header p.1 p.2])
      (zip baseHeaders headers')
  /\ Forall (fun c => type c = modified
                      /\ (impact c = high \/ impact c = medium))
       (compareHeaders baseHeaders headers').
Proof.
  intros Hlevels. rewrite (compareHeaders_positions _ _ Hlevels).
  split; [reflexivity |].
  generalize (zip baseHeaders headers') as pairs.
  induction pairs as [| p pairs IH]; simpl; [constructor |].
  destruct (String.eqb (text p.1) (text p.2)); [exact IH |].
  constructor; [| exact IH]. split; [reflexivity |].
  unfold modified_header, header_impact. simpl.
  destruct (level p.1 <=? 2); auto.
Qed.

Lemma compareHeaders_same_levels_witness :
  compareHeaders
    [ {| level := 1; text := "Shop" |}; {| level := 3; text := "Offers" |} ]
    [ {| level := 1; text := "Store" |}; {| level := 3; text := "Offers" |} ]
  = [ modified_header {| level := 1; text := "Shop" |}
        {| level := 1; text := "Store" |} ].
Proof.
  apply (compareHeaders_same_levels
           [ {| level := 1; text := "Shop" |};
             {| level := 3; text := "Offers" |} ]
           [ {| level := 1; text := "Store" |};
             {| level := 3; text := "Offers" |} ]).
  reflexivity.
Defined.

(** X20.  The two ends of the header comparison: a page compared with
    itself has no header change; against a page without headers every
    header is reported once, as added or as removed, in document order. *)
Theorem compareHeaders_all_or_nothing (hs : list HeaderStructure) :
  compareHeaders hs hs = []
  /\ compareHeaders [] hs = List.map added_header hs
  /\ compareHeaders hs [] = List.map removed_header hs.
Proof.
  split; [apply compareHeaders_same |]. split.
  - unfold compareHeaders. cbv zeta. rewrite !flat_map_header_map.
    simpl. rewrite app_nil_r. apply (concat_imap_singleton added_header).
  - unfold compareHeaders. cbv zeta. rewrite !flat_map_header_map.
    simpl. rewrite (concat_imap_nil (fun i x => [])) by reflexivity.
    rewrite app_nil_r. apply (concat_imap_singleton removed_header).
Qed.

(** ** The comparison of two runs, page by page *)

Lemma elem_of_nub (seen l : list string) (x : string) :
  x ∈ nub seen l <-> x ∈ l /\ x ∉ seen.
Proof.
  revert seen. induction l as [| k rest IH]; intros seen; simpl.
  - split; [intros H; inversion H | intros [H _]; inversion H].
  - case_bool_decide as Hk.
    + rewrite IH, elem_of_cons. split; [tauto |].
      intros [[-> | Hin] Hx]; [contradiction | tauto].
    + rewrite !elem_of_cons, IH, elem_of_cons. split.
      * intros [-> | [Hin Hx]]; [tauto |]. split; [tauto |]. tauto.
      * intros [[-> | Hin] Hx]; [tauto |].
        destruct (decide (x = k)); [tauto |]. right. tauto.
Qed.

Lemma NoDup_nub (seen l : list string) : NoDup (nub seen l).
Proof.
  revert seen. induction l as [| k rest IH]; intros seen; simpl.
  - constructor.
  - case_bool_decide as Hk; [apply IH |].
    apply NoDup_cons. split; [| apply IH].
    rewrite elem_of_nub, elem_of_cons. tauto.
Qed.

Lemma nub_ext (seen seen' l : list string) :
  (forall x, x ∈ seen <-> x ∈ seen') -> nub seen l = nub seen' l.
Proof.
  revert seen seen'. induction l as [| k rest IH]; intros seen seen' Hsame;
    simpl; [reflexivity |].
  rewrite (bool_decide_ext _ _ (Hsame k)). case_bool_decide as Hk.
  - apply IH, Hsame.
  - f_equal. apply IH. intros x. rewrite !elem_of_cons, Hsame. tauto.
Qed.

(** Removing the repetitions of a list that has none already. *)
Lemma nub_nub (seen seen' l : list string) :
  (forall x, x ∈ seen' -> x ∈ seen) ->
  nub seen (nub seen' l) = nub seen l.
Proof.
  revert seen seen'. induction l as [| k rest IH]; intros seen seen' Hsub;
    simpl; [reflexivity |].
  case_bool_decide as Hk'.
  - rewrite bool_decide_eq_true_2 by auto. apply IH, Hsub.
  - simpl. case_bool_decide as Hk.
    + apply IH. intros x. rewrite elem_of_cons.
      intros [-> | Hx]; auto.
    + f_equal. apply IH. intros x. rewrite !elem_of_cons.
      intros [-> | Hx]; auto.
Qed.

Lemma nub_app (seen a b : list string) :
  nub seen (a ++ b) = nub seen a ++ nub (a ++ seen) b.
Proof.
  revert seen. induction a as [| k rest IH]; intros seen; simpl;
    [reflexivity |].
  case_bool_decide as Hk.
  - rewrite IH. f_equal. apply nub_ext. intros x.
    rewrite !elem_of_app, !elem_of_cons, !elem_of_app.
    split; [tauto |]. intros [-> | ?]; tauto.
  - simpl. f_equal. rewrite IH. f_equal. apply nub_ext. intros x.
    rewrite !elem_of_cons, !elem_of_app, !elem_of_cons. tauto.
Qed.

Lemma nub_snoc (seen l : list string) (k : string) :
  nub seen (l ++ [k])
  = nub seen l ++ (if bool_decide (k ∈ l ++ seen) then [] else [k]).
Proof. rewrite nub_app. reflexivity. Qed.

Lemma map_get_map_set (u k : string) (s : PageSnapshot)
    (m : list (string * PageSnapshot)) :
  map_get u (map_set k s m)
  = if bool_decide (k = u) then Some s else map_get u m.
Proof.
  induction m as [| [k' s'] rest IH]; cbn [map_set].
  - rewrite map_get_cons. reflexivity.
  - destruct (decide (k' = k)) as [Hk' | Hk'].
    + rewrite (bool_decide_eq_true_2 _ Hk'). subst k'.
      rewrite !map_get_cons. cbn [fst snd].
      destruct (bool_decide (k = u)); reflexivity.
    + rewrite (bool_decide_eq_false_2 _ Hk').
      rewrite !map_get_cons, IH. cbn [fst snd].
      destruct (decide (k' = u)) as [Hu | Hu].
      * rewrite (bool_decide_eq_true_2 _ Hu).
        rewrite bool_decide_eq_false_2 by congruence. reflexivity.
      * rewrite (bool_decide_eq_false_2 _ Hu). reflexivity.
Qed.

Lemma keys_map_set (k : string) (s : PageSnapshot)
    (m : list (string * PageSnapshot)) :
  List.map fst (map_set k s m)
  = List.map fst m
    ++ (if bool_decide (k ∈ List.map fst m) then [] else [k]).
Proof.
  induction m as [| [k' s'] rest IH]; [reflexivity |].
  cbn [map_set List.map fst]. destruct (decide (k' = k)) as [Hk' | Hk'].
  - rewrite (bool_decide_eq_true_2 _ Hk'). subst k'. cbn [List.map fst].
    rewrite bool_decide_eq_true_2 by (left). now rewrite app_nil_r.
  - rewrite (bool_decide_eq_false_2 _ Hk'). cbn [List.map fst app].
    rewrite IH. f_equal. f_equal.
    rewrite (bool_decide_ext (k ∈ k' :: List.map fst rest)
               (k ∈ List.map fst rest)); [reflexivity |].
    rewrite elem_of_cons. split; [intros [-> | ?] |]; tauto.
Qed.

Lemma url_map_snoc (l : list PageSnapshot) (s : PageSnapshot) :
  url_map (l ++ [s]) = map_set (url s) s (url_map l).
Proof. unfold url_map. rewrite fold_left_app. reflexivity. Qed.

(** The keys of the Map are the URLs in the order of their first
    occurrence. *)
Lemma keys_url_map (l : list PageSnapshot) :
  List.map fst (url_map l) = nub [] (List.map url l).
Proof.
  induction l as [| s l IH] using rev_ind; [reflexivity |].
  rewrite url_map_snoc, keys_map_set, IH, map_app. cbn [List.map].
  rewrite nub_snoc. f_equal. rewrite app_nil_r.
  rewrite (bool_decide_ext (url s ∈ nub [] (List.map url l))
             (url s ∈ List.map url l)); [reflexivity |].
  rewrite elem_of_nub. split; [tauto |]. intros H. split; [exact H |].
  intros Hnil. inversion Hnil.
Qed.

(** The value the Map holds for a URL is the last snapshot of that URL. *)
Lemma map_get_url_map (u : string) (l : list PageSnapshot) :
  map_get u (url_map l) = last_snapshot u l.
Proof.
  unfold last_snapshot.
  induction l as [| s l IH] using rev_ind; [reflexivity |].
  rewrite url_map_snoc, map_get_map_set, rev_app_distr. simpl.
  destruct (bool_decide (url s = u)); [reflexivity | exact IH].
Qed.

Lemma last_snapshot_Some (u : string) (l : list PageSnapshot) :
  u ∈ List.map url l <-> exists s, last_snapshot u l = Some s.
Proof.
  unfold last_snapshot. split.
  - intros Hin. apply list_elem_of_In, in_map_iff in Hin.
    destruct Hin as (s & Hs & Hin).
    destruct (List.find (fun s => bool_decide (url s = u)) (rev l))
      as [s' |] eqn:Hfind; [eauto |].
    exfalso.
    assert (In s (rev l)) as Hrev by (apply in_rev in Hin; exact Hin).
    pose proof (find_none _ _ Hfind s Hrev) as Hnone. simpl in Hnone.
    rewrite bool_decide_eq_true_2 in Hnone by exact Hs. discriminate.
  - intros [s Hfind]. apply find_some in Hfind. destruct Hfind as [Hin Hs].
    apply bool_decide_eq_true_1 in Hs. apply list_elem_of_In, in_map_iff.
    exists s. split; [exact Hs |]. apply in_rev. exact Hin.
Qed.

Lemma last_snapshot_url (u : string) (l : list PageSnapshot)
    (s : PageSnapshot) :
  last_snapshot u l = Some s -> url s = u /\ In s l.
Proof.
  unfold last_snapshot. intros Hfind. apply find_some in Hfind.
  destruct Hfind as [Hin Hs]. apply bool_decide_eq_true_1 in Hs.
  split; [exact Hs |]. apply in_rev. exact Hin.
Qed.

(** The URLs the comparison visits: those of the base run in the order of
    their first occurrence, then those only the other run has. *)
Lemma all_urls (baseData compareData : list PageSnapshot) :
  nub [] (List.map fst (url_map baseData)
          ++ List.map fst (url_map compareData))
  = nub [] (List.map url baseData ++ List.map url compareData).
Proof.
  rewrite !keys_url_map, !nub_app, !app_nil_r.
  rewrite (nub_nub [] [] _) by auto. f_equal.
  rewrite (nub_nub _ [] _) by (intros x H; inversion H).
  apply nub_ext. intros x. rewrite elem_of_nub. split; [tauto |].
  intros H. split; [exact H |]. intros Hnil. inversion Hnil.
Qed.

Lemma pageChanges_compareRuns (baseData compareData : list PageSnapshot) :
  pageChanges (compareRuns baseData compareData)
  = List.map (compare_url (url_map baseData) (url_map compareData))
      (nub [] (List.map url baseData ++ List.map url compareData)).
Proof. unfold compareRuns. cbn [pageChanges]. now rewrite all_urls. Qed.

(** X21.  The comparison has one result for each URL of the two runs: the
    URLs of the base run in the order of their first occurrence, then those
    only the other run has; and each result holds, for either run, the last
    snapshot that run has of the URL. *)
Theorem compareRuns_one_result_per_url
    (baseData compareData : list PageSnapshot) :
  List.map page_url (pageChanges (compareRuns baseData compareData))
  = nub [] (List.map url baseData ++ List.map url compareData)
  /\ NoDup (List.map page_url
              (pageChanges (compareRuns baseData compareData)))
  /\ (forall u,
        u ∈ List.map page_url
              (pageChanges (compareRuns baseData compareData))
        <-> u ∈ List.map url baseData \/ u ∈ List.map url compareData)
  /\ Forall (fun r =>
               baseSnapshot r = last_snapshot (page_url r) baseData
               /\ compareSnapshot r
                  = last_snapshot (page_url r) compareData)
       (pageChanges (compareRuns baseData compareData)).
Proof.
  rewrite pageChanges_compareRuns, map_map. cbn [compare_url page_url].
  rewrite map_id.
  split; [reflexivity |]. split; [apply NoDup_nub |]. split.
  - intros u. rewrite elem_of_nub, elem_of_app. split; [tauto |].
    intros H. split; [exact H |]. intros Hnil. inversion Hnil.
  - apply List.Forall_forall. intros r Hr. apply in_map_iff in Hr.
    destruct Hr as (u & <- & _). simpl. rewrite !map_get_url_map. auto.
Qed.

Lemma compare_url_consistent (baseMap compareMap : list (string * PageSnapshot))
    (u : string) :
  is_Some (map_get u baseMap) \/ is_Some (map_get u compareMap) ->
  result_consistent (compare_url baseMap compareMap u).
Proof.
  intros Hsome. unfold result_consistent, compare_url. cbn.
  destruct (map_get u baseMap) as [b |], (map_get u compareMap) as [c |].
  - unfold nonempty.
    destruct (compareSnapshots (Some b) (Some c)) as [| x cs]; simpl;
      repeat split; eauto; discriminate.
  - repeat split; eauto.
  - repeat split; eauto.
  - destruct Hsome as [[? [=]] | [? [=]]].
Qed.

Lemma summary_counts (results : list PageComparisonResult) :
  Forall result_consistent results ->
  (length (omap (fun r => match changeType r with
                          | page_added => compareSnapshot r
                          | _ => None
                          end) results)
   + length (omap (fun r => match changeType r with
                            | page_removed => baseSnapshot r
                            | _ => None
                            end) results)
   + length (List.filter (fun r => match changeType r with
                                   | page_modified => true
                                   | _ => false
                                   end) results)
   + length (List.filter is_unchanged results)
   = length results)%nat.
Proof.
  induction 1 as [| r results Hr _ IH]; [reflexivity |].
  cbn [omap list_omap List.filter length]. unfold is_unchanged at 1.
  unfold result_consistent in Hr.
  destruct (changeType r).
  - destruct Hr as [-> [c ->]]. cbn [length]. lia.
  - destruct Hr as [[b ->] ->]. cbn [length]. lia.
  - destruct Hr as ([b ->] & [c ->] & _). cbn [length]. lia.
  - destruct Hr as ([b ->] & [c ->] & _). cbn [length]. lia.
Qed.

Lemma results_consistent (baseData compareData : list PageSnapshot) :
  Forall result_consistent
    (pageChanges (compareRuns baseData compareData)).
Proof.
  rewrite pageChanges_compareRuns. apply List.Forall_forall.
  intros r Hr. apply in_map_iff in Hr. destruct Hr as (u & <- & Hu).
  apply compare_url_consistent. rewrite !map_get_url_map.
  apply list_elem_of_In, elem_of_nub in Hu. destruct Hu as [Hu _].
  apply elem_of_app in Hu.
  destruct Hu as [Hu | Hu]; apply last_snapshot_Some in Hu; [left | right];
    destruct Hu as [s ->]; eauto.
Qed.

(** X22.  The summary is a partition of the results: every result is an
    added, a removed, a modified or an unchanged page, the four counts of
    the summary add up to the number of results, and a page is added
    exactly when the base run has no snapshot of its URL, removed exactly
    when the other run has none. *)
Theorem compareRuns_summary_partitions_results
    (baseData compareData : list PageSnapshot) :
  let run := compareRuns baseData compareData in
  (length (newPages (summary run)) + length (removedPages (summary run))
   + length (modifiedPages (summary run)) + unchangedPages (summary run)
   = length (pageChanges run))%nat
  /\ Forall (fun r =>
               result_consistent r
               /\ (changeType r = page_added
                   <-> page_url r ∉ List.map url baseData)
               /\ (changeType r = page_removed
                   <-> page_url r ∉ List.map url compareData))
       (pageChanges run).
Proof.
  cbv zeta. split.
  - unfold compareRuns at 1 2 3 4. cbn [summary newPages removedPages
      modifiedPages unchangedPages].
    rewrite all_urls, pageChanges_compareRuns.
    apply summary_counts. rewrite <- pageChanges_compareRuns.
    apply results_consistent.
  - pose proof (results_consistent baseData compareData) as Hall.
    rewrite List.Forall_forall in Hall. apply List.Forall_forall.
    intros r Hr. split; [apply Hall, Hr |].
    specialize (Hall r Hr). rewrite pageChanges_compareRuns in Hr.
    apply in_map_iff in Hr. destruct Hr as (u & <- & _).
    unfold result_consistent in Hall. revert Hall.
    unfold compare_url.
    cbn [changeType baseSnapshot compareSnapshot changes page_url].
    rewrite !map_get_url_map.
    pose proof (last_snapshot_Some u baseData) as Hbase.
    pose proof (last_snapshot_Some u compareData) as Hcompare.
    destruct (last_snapshot u baseData) as [b |],
      (last_snapshot u compareData) as [c |]; intros Hall.
    + assert (u ∈ List.map url baseData) by (apply Hbase; eauto).
      assert (u ∈ List.map url compareData) by (apply Hcompare; eauto).
      destruct (nonempty (compareSnapshots (Some b) (Some c)));
        (split; (split; [intros [=] | tauto])).
    + assert (u ∈ List.map url baseData) by (apply Hbase; eauto).
      split; split; [intros [=] | tauto | | reflexivity].
      intros _ Hin. apply Hcompare in Hin. destruct Hin as [? [=]].
    + assert (u ∈ List.map url compareData) by (apply Hcompare; eauto).
      split; split; [| reflexivity | intros [=] | tauto].
      intros _ Hin. apply Hbase in Hin. destruct Hin as [? [=]].
    + destruct Hall as ([? [=]] & _).
Qed.

Lemma flat_map_nothing {A B} (f : A -> list B) (l : list A) :
  (forall x, f x = []) -> flat_map f l = [].
Proof.
  intros Hf. induction l as [| x l IH]; [reflexivity |].
  simpl. rewrite Hf, IH. reflexivity.
Qed.

Lemma compareSnapshots_same (s : PageSnapshot) :
  compareSnapshots (Some s) (Some s) = [].
Proof.
  unfold compareSnapshots, option_eqb.
  rewrite !bool_decide_eq_true_2 by reflexivity.
  rewrite compareHeaders_same, flat_map_nothing; [reflexivity |].
  intros key. rewrite bool_decide_eq_true_2 by reflexivity. reflexivity.
Qed.

(** X23.  A run compared with itself shows no change: no page is new,
    removed or modified, every URL of the run is counted as unchanged, and
    every result has no change and the severity [low]. *)
Theorem compareRuns_same_run (snapshots : list PageSnapshot) :
  let run := compareRuns snapshots snapshots in
  newPages (summary run) = []
  /\ removedPages (summary run) = []
  /\ modifiedPages (summary run) = []
  /\ unchangedPages (summary run)
     = length (nub [] (List.map url snapshots))
  /\ Forall (fun r => changeType r = page_unchanged /\ changes r = []
                      /\ severity r = low)
       (pageChanges run).
Proof.
  cbv zeta.
  assert (forall u, u ∈ nub [] (List.map url snapshots ++ List.map url snapshots) ->
            exists s, map_get u (url_map snapshots) = Some s
                      /\ compare_url (url_map snapshots) (url_map snapshots) u
                         = {| page_url := u; baseSnapshot := Some s;
                              compareSnapshot := Some s;
                              changeType := page_unchanged; changes := [];
                              severity := low |}) as Hsame.
  { intros u Hu. apply elem_of_nub in Hu. destruct Hu as [Hu _].
    assert (u ∈ List.map url snapshots) as Hin
      by (apply elem_of_app in Hu; tauto).
    apply last_snapshot_Some in Hin. destruct Hin as [s Hs].
    exists s. rewrite map_get_url_map. split; [exact Hs |].
    unfold compare_url. rewrite map_get_url_map, Hs, compareSnapshots_same.
    reflexivity. }
  unfold compareRuns. cbn [summary newPages removedPages modifiedPages
    unchangedPages pageChanges]. rewrite all_urls.
  revert Hsame.
  assert (nub [] (List.map url snapshots)
          = nub [] (List.map url snapshots ++ List.map url snapshots)) as ->.
  { rewrite nub_app, app_nil_r.
    rewrite <- (app_nil_r (nub [] (List.map url snapshots))) at 1. f_equal.
    symmetry. apply (proj1 (length_zero_iff_nil _)).
    destruct (nub (List.map url snapshots) (List.map url snapshots))
      as [| x rest] eqn:Hnub; [reflexivity |].
    assert (x ∈ nub (List.map url snapshots) (List.map url snapshots))
      as Hx by (rewrite Hnub; left).
    apply elem_of_nub in Hx. tauto. }
  generalize (nub [] (List.map url snapshots ++ List.map url snapshots))
    as visited.
  induction visited as [| u visited IH]; intros Hsame.
  - repeat split. constructor.
  - destruct (Hsame u) as (s & _ & Hu); [left |].
    destruct IH as (Hnew & Hremoved & Hmodified & Hcount & Hall).
    { intros v Hv. apply Hsame. now right. }
    cbn [List.map omap list_omap List.filter length]. rewrite Hu.
    cbn. repeat split; try assumption.
    + f_equal. exact Hcount.
    + constructor; [repeat split | exact Hall].
Qed.

(** ** The headers of a page *)

Lemma insert_header_Permutation (h : HeaderStructure)
    (l : list HeaderStructure) :
  Permutation (insert_header h l) (h :: l).
Proof.
  induction l as [| x l IH]; simpl; [reflexivity |].
  destruct (level h <=? level x); [reflexivity |].
  rewrite IH. apply Permutation_swap.
Qed.

Lemma sort_headers_Permutation (l : list HeaderStructure) :
  Permutation (sort_headers l) l.
Proof.
  induction l as [| h l IH]; simpl; [reflexivity |].
  rewrite insert_header_Permutation, IH. reflexivity.
Qed.

Lemma insert_header_sorted (h : HeaderStructure) (l : list HeaderStructure) :
  sorted_by_level l -> sorted_by_level (insert_header h l).
Proof.
  induction l as [| x l IH]; simpl; intros Hsorted.
  - split; constructor.
  - destruct Hsorted as [Hx Hl].
    destruct (level h <=? level x) eqn:Hle; simpl.
    + apply Z.leb_le in Hle. split; [| split; assumption].
      constructor; [exact Hle |].
      eapply List.Forall_impl; [| exact Hx]. simpl. intros; lia.
    + apply Z.leb_gt in Hle. split; [| apply IH, Hl].
      apply List.Forall_forall. intros y Hy.
      apply (Permutation_in _ (insert_header_Permutation h l)) in Hy.
      destruct Hy as [<- | Hy]; [lia |].
      rewrite List.Forall_forall in Hx. apply Hx, Hy.
Qed.

Lemma sort_headers_sorted (l : list HeaderStructure) :
  sorted_by_level (sort_headers l).
Proof.
  induction l as [| h l IH]; simpl; [exact I |].
  apply insert_header_sorted, IH.
Qed.

Lemma insert_header_filter (lvl : Z) (h : HeaderStructure)
    (l : list HeaderStructure) :
  sorted_by_level l ->
  List.filter (of_level lvl) (insert_header h l)
  = List.filter (of_level lvl) (h :: l).
Proof.
  induction l as [| x l IH]; [reflexivity |]. intros [Hx Hl].
  cbn [insert_header]. destruct (level h <=? level x) eqn:Hle;
    [reflexivity |].
  apply Z.leb_gt in Hle. cbn [List.filter]. rewrite (IH Hl).
  cbn [List.filter]. unfold of_level.
  destruct (level x =? lvl) eqn:Hxl, (level h =? lvl) eqn:Hhl;
    try reflexivity.
  apply Z.eqb_eq in Hxl, Hhl. lia.
Qed.

Lemma sort_headers_filter (lvl : Z) (l : list HeaderStructure) :
  List.filter (of_level lvl) (sort_headers l) = List.filter (of_level lvl) l.
Proof.
  induction l as [| h l IH]; [reflexivity |]. cbn [sort_headers fold_right].
  fold (sort_headers l).
  rewrite insert_header_filter by apply sort_headers_sorted.
  cbn [List.filter]. rewrite IH. reflexivity.
Qed.

Lemma sort_headers_sorted_id (l : list HeaderStructure) :
  sorted_by_level l -> sort_headers l = l.
Proof.
  induction l as [| h l IH]; [reflexivity |]. intros [Hh Hl].
  cbn [sort_headers fold_right]. fold (sort_headers l). rewrite (IH Hl).
  destruct Hh as [| x rest Hx _]; [reflexivity |].
  simpl. apply Z.leb_le in Hx. rewrite Hx. reflexivity.
Qed.

Lemma string_length_append (a b : string) :
  String.length (a +:+ b) = (String.length a + String.length b)%nat.
Proof. induction a as [| c a IH]; simpl; [reflexivity | now rewrite IH]. Qed.

Lemma string_length_substring (n : nat) (s : string) :
  (String.length (substring 0 n s) <= n)%nat.
Proof.
  revert s. induction n as [| n IH]; intros [| c s]; simpl; try lia.
  specialize (IH s). lia.
Qed.

Lemma header_text_bounds (limit : Z) (inner t : string) :
  header_text limit inner = Some t ->
  t <> "" /\ Z.of_nat (String.length t) <= Z.max 0 limit + 3.
Proof.
  unfold header_text. set (whole := trim (strip_tags inner)).
  destruct (String.eqb whole "") eqn:Hempty; [discriminate |].
  apply String.eqb_neq in Hempty.
  destruct (Z.of_nat (String.length whole) >? limit) eqn:Hlong;
    intros [= <-].
  - split.
    + intros Hnil. apply (f_equal String.length) in Hnil.
      rewrite string_length_append in Hnil. simpl in Hnil. lia.
    + rewrite string_length_append.
      pose proof (string_length_substring (Z.to_nat limit) whole).
      simpl String.length. lia.
  - split; [exact Hempty |]. lia.
Qed.

Lemma headers_of_level_spec (heading_matches : Z -> list string)
    (limit lvl : Z) :
  Forall (fun h => level h = lvl /\ text h <> ""
                   /\ Z.of_nat (String.length (text h)) <= Z.max 0 limit + 3)
    (headers_of_level heading_matches limit lvl).
Proof.
  unfold headers_of_level.
  induction (heading_matches lvl) as [| inner rest IH]; [constructor |].
  cbn [omap list_omap].
  destruct (header_text limit inner) as [t |] eqn:Ht; [| exact IH].
  constructor; [| exact IH].
  destruct (header_text_bounds _ _ _ Ht). auto.
Qed.

Lemma pushed_headers_spec (heading_matches : Z -> list string)
    (limit : Z) (lvls : list Z) :
  Forall (fun h => level h ∈ lvls /\ text h <> ""
                   /\ Z.of_nat (String.length (text h)) <= Z.max 0 limit + 3)
    (pushed_headers heading_matches limit lvls).
Proof.
  unfold pushed_headers. induction lvls as [| lvl lvls IH]; [constructor |].
  cbn [flat_map]. apply Forall_app. split.
  - eapply List.Forall_impl; [| apply headers_of_level_spec]. simpl.
    intros h (<- & ? & ?). split; [left | auto].
  - eapply List.Forall_impl; [| exact IH]. simpl.
    intros h (? & ? & ?). split; [now right | auto].
Qed.

(** X24.  The headers come back sorted by level, and the sort is stable:
    the result is a rearrangement of the headers pushed, the headers of one
    level keep the order of the document, every level is one of the levels
    asked for, no text is empty, and no text is longer than the limit and
    the three dots. *)
Theorem extractHeaders_sorted_and_stable (heading_matches : Z -> list string)
    (config : header_config) :
  let pushed :=
    pushed_headers heading_matches (chosen_maxLength config)
      (chosen_levels config) in
  sorted_by_level (extractHeaders heading_matches config)
  /\ Permutation (extractHeaders heading_matches config) pushed
  /\ (forall lvl,
        List.filter (of_level lvl) (extractHeaders heading_matches config)
        = List.filter (of_level lvl) pushed)
  /\ Forall (fun h =>
               level h ∈ chosen_levels config /\ text h <> ""
               /\ Z.of_nat (String.length (text h))
                  <= Z.max 0 (chosen_maxLength config) + 3)
       (extractHeaders heading_matches config).
Proof.
  cbv zeta. unfold extractHeaders. cbv zeta.
  fold (chosen_levels config) (chosen_maxLength config).
  fold (pushed_headers heading_matches (chosen_maxLength config)
          (chosen_levels config)).
  split; [apply sort_headers_sorted |].
  split; [apply sort_headers_Permutation |].
  split; [intros lvl; apply sort_headers_filter |].
  apply List.Forall_forall. intros h Hh.
  apply (Permutation_in _ (sort_headers_Permutation _)) in Hh.
  pose proof (pushed_headers_spec heading_matches (chosen_maxLength config)
                (chosen_levels config)) as Hall.
  rewrite List.Forall_forall in Hall. apply Hall, Hh.
Qed.

Lemma pushed_headers_sorted (heading_matches : Z -> list string)
    (limit : Z) (lvls : list Z) :
  ascending lvls ->
  sorted_by_level (pushed_headers heading_matches limit lvls).
Proof.
  unfold pushed_headers. induction lvls as [| lvl lvls IH]; [intros; exact I |].
  intros [Hlvl Hrest]. cbn [flat_map].
  pose proof (headers_of_level_spec heading_matches limit lvl) as Hhere.
  assert (Forall (fun x => lvl <= level x)
            (flat_map (headers_of_level heading_matches limit) lvls))
    as Hlater.
  { eapply List.Forall_impl;
      [| apply (pushed_headers_spec heading_matches limit lvls)].
    simpl. intros h (Hin & _). rewrite List.Forall_forall in Hlvl.
    apply Hlvl, list_elem_of_In, Hin. }
  specialize (IH Hrest). revert Hhere.
  generalize (headers_of_level heading_matches limit lvl) as here.
  induction here as [| h here IHhere]; intros Hhere; [exact IH |].
  apply Forall_cons in Hhere. destruct Hhere as [(Hh & _) Hhere].
  cbn [app sorted_by_level]. split; [| apply IHhere, Hhere].
  apply Forall_app. split.
  - eapply List.Forall_impl; [| exact Hhere]. simpl.
    intros x (Hx & _). lia.
  - eapply List.Forall_impl; [| exact Hlater]. simpl. intros; lia.
Qed.

(** X25.  Where the levels asked for are in ascending order, as the default
    levels 1, 2, 3 are, the sort changes nothing: the headers are the
    headers of the first level in document order, then those of the second,
    and so on; and a maximal length of 0 counts as none given. *)
Theorem extractHeaders_ascending_levels (heading_matches : Z -> list string)
    (config : header_config) :
  ascending (chosen_levels config) ->
  extractHeaders heading_matches config
  = pushed_headers heading_matches (chosen_maxLength config)
      (chosen_levels config)
  /\ extractHeaders heading_matches
       {| levels := None; maxLength := Some 0 |}
     = headers_of_level heading_matches 200 1
       ++ headers_of_level heading_matches 200 2
       ++ headers_of_level heading_matches 200 3.
Proof.
  intros Hlevels.
  assert (forall c, ascending (chosen_levels c) ->
            extractHeaders heading_matches c
            = pushed_headers heading_matches (chosen_maxLength c)
                (chosen_levels c)) as Hsame.
  { intros c Hc. unfold extractHeaders. cbv zeta.
    fold (chosen_levels c) (chosen_maxLength c).
    apply sort_headers_sorted_id, pushed_headers_sorted, Hc. }
  split; [apply Hsame, Hlevels |].
  rewrite Hsame.
  - unfold pushed_headers. simpl. rewrite app_nil_r. reflexivity.
  - simpl. repeat split; repeat constructor; lia.
Qed.

Lemma extractHeaders_ascending_levels_witness :
  extractHeaders
    (fun lvl => if lvl =? 1 then ["<b>Shop</b>"] else
                if lvl =? 2 then [" Offers "; "<i></i>"] else [])
    {| levels := Some [1; 2]; maxLength := Some 4 |}
  = [ {| level := 1; text := "Shop" |}; {| level := 2; text := "Offe..." |} ].
Proof.
  apply (extractHeaders_ascending_levels
           (fun lvl => if lvl =? 1 then ["<b>Shop</b>"] else
                       if lvl =? 2 then [" Offers "; "<i></i>"] else [])
           {| levels := Some [1; 2]; maxLength := Some 4 |}).
  simpl. repeat split; repeat constructor; lia.
Defined.

(** ** The archive of websites *)

Lemma ceil_div_le_0 (a d : Z) : 0 < d -> (ceil_div a d <= 0 <-> a <= 0).
Proof.
  intros Hd. unfold ceil_div. split; intros H.
  - assert (0 <= - a / d) as Hq by lia.
    destruct (Z.le_gt_cases a 0) as [? | Hpos]; [assumption |].
    assert (- a / d < 0) by (apply Z.div_lt_upper_bound; lia). lia.
  - assert (0 <= - a / d) by (apply Z.div_pos; lia). lia.
Qed.

Lemma ceil_div_le (a d n : Z) : 0 < d -> a <= n * d -> ceil_div a d <= n.
Proof.
  intros Hd Ha. unfold ceil_div.
  assert (- n <= - a / d) by (apply Z.div_le_lower_bound; lia). lia.
Qed.

(** X26.  The days until deletion of an archived website: none for a
    website that is not archived or has no archive date; otherwise between
    0 and the retention period (for an archive date that is not in the
    future), 0 exactly when the retention period is over, and otherwise
    rounded up: a positive count is the number of days begun that
    are left. *)
Theorem getDaysUntilDeletion_counts_down
    (ARCHIVE_RETENTION_DAYS now archiveDate : Z) (st : website_status) :
  0 <= ARCHIVE_RETENTION_DAYS ->
  archiveDate <= now ->
  (st <> site_archived ->
   getDaysUntilDeletion ARCHIVE_RETENTION_DAYS now
     {| site_status := st; archived_at := Some archiveDate |} = None)
  /\ getDaysUntilDeletion ARCHIVE_RETENTION_DAYS now
       {| site_status := site_archived; archived_at := None |} = None
  /\ exists days,
       getDaysUntilDeletion ARCHIVE_RETENTION_DAYS now
         {| site_status := site_archived; archived_at := Some archiveDate |}
       = Some days
       /\ 0 <= days <= ARCHIVE_RETENTION_DAYS
       /\ (days = 0
           <-> archiveDate + ARCHIVE_RETENTION_DAYS * day_ms <= now)
       /\ (0 < days ->
           (days - 1) * day_ms
           < archiveDate + ARCHIVE_RETENTION_DAYS * day_ms - now
           <= days * day_ms).
Proof.
  intros Hretention Hpast. split; [| split].
  - intros Hst. destruct st; try reflexivity. contradiction.
  - reflexivity.
  - unfold getDaysUntilDeletion. cbn [site_status archived_at].
    eexists. split; [reflexivity |].
    set (left := archiveDate + ARCHIVE_RETENTION_DAYS * day_ms - now).
    assert (0 < day_ms) as Hday by (unfold day_ms; lia).
    pose proof (ceil_div_le_0 left day_ms Hday) as Hzero.
    assert (ceil_div left day_ms <= ARCHIVE_RETENTION_DAYS) as Hupper
      by (apply ceil_div_le; [exact Hday | unfold left; lia]).
    assert ((ceil_div left day_ms - 1) * day_ms < left
            <= ceil_div left day_ms * day_ms) as Hlower.
    { unfold ceil_div.
      pose proof (Z.mul_div_le (- left) day_ms Hday).
      pose proof (Z.mul_succ_div_gt (- left) day_ms Hday). nia. }
    split; [lia |]. split.
    + split; intros H.
      * assert (ceil_div left day_ms <= 0) as Hle by lia.
        apply Hzero in Hle. unfold left in Hle. lia.
      * apply Z.max_l. apply Hzero. unfold left. lia.
    + intros Hpos. rewrite Z.max_r by lia. exact Hlower.
Qed.

Lemma getDaysUntilDeletion_counts_down_witness :
  exists days,
    getDaysUntilDeletion 30 (3 * day_ms + 1)
      {| site_status := site_archived; archived_at := Some 0 |}
    = Some days
    /\ 0 <= days <= 30.
Proof.
  destruct (getDaysUntilDeletion_counts_down 30 (3 * day_ms + 1) 0
              site_archived) as (_ & _ & days & Hrun & Hdays & _).
  - lia.
  - unfold day_ms. lia.
  - exists days. split; [exact Hrun | exact Hdays].
Defined.

(** X27.  The hourly deletion and the count of days agree: a row the
    deletion removes is an archived website that shows 0 days; a website
    that shows a day or more, and every website that is not archived, is
    kept as it is.  The converse fails at the boundary only: a website
    archived exactly a retention period ago shows 0 days and is kept. *)
Theorem checkForExpiredArchives_agrees_with_days
    (ARCHIVE_RETENTION_DAYS now : Z) (table : gmap string archive_row)
    (id : string) (row : archive_row) :
  table !! id = Some row ->
  (checkForExpiredArchives ARCHIVE_RETENTION_DAYS now table !! id = None ->
   site_status row = site_archived
   /\ getDaysUntilDeletion ARCHIVE_RETENTION_DAYS now row = Some 0)
  /\ ((site_status row <> site_archived
       \/ (exists days,
             getDaysUntilDeletion ARCHIVE_RETENTION_DAYS now row = Some days
             /\ 0 < days)
       \/ archived_at row
          = Some (now - ARCHIVE_RETENTION_DAYS * day_ms)) ->
      checkForExpiredArchives ARCHIVE_RETENTION_DAYS now table !! id
      = Some row)
  /\ (forall other kept,
        checkForExpiredArchives ARCHIVE_RETENTION_DAYS now table !! other
        = Some kept ->
        table !! other = Some kept).
Proof.
  intros Hrow.
  assert (0 < day_ms) as Hday by (unfold day_ms; lia).
  assert (is_expired ARCHIVE_RETENTION_DAYS now row = true ->
          site_status row = site_archived
          /\ getDaysUntilDeletion ARCHIVE_RETENTION_DAYS now row = Some 0)
    as Hexpired.
  { unfold is_expired, getDaysUntilDeletion.
    destruct (site_status row); try discriminate.
    destruct (archived_at row) as [t |]; try discriminate.
    intros Hlt. apply Z.ltb_lt in Hlt. split; [reflexivity |]. f_equal.
    apply Z.max_l, ceil_div_le_0; lia. }
  unfold checkForExpiredArchives. split; [| split].
  - intros Hgone. apply map_lookup_filter_None in Hgone.
    destruct Hgone as [Hnone | Hnot]; [congruence |].
    specialize (Hnot row Hrow). simpl in Hnot.
    apply Hexpired.
    destruct (is_expired ARCHIVE_RETENTION_DAYS now row) eqn:Hex;
      [reflexivity | contradiction].
  - intros Hkeep. apply map_lookup_filter_Some. split; [exact Hrow |].
    simpl. destruct (is_expired ARCHIVE_RETENTION_DAYS now row) eqn:Hex;
      [| reflexivity].
    exfalso. destruct (Hexpired eq_refl) as [Harchived Hzero].
    destruct Hkeep as [Hst | [(days & Hdays & Hpos) | Hedge]].
    + contradiction.
    + rewrite Hzero in Hdays. injection Hdays as <-. lia.
    + unfold is_expired in Hex. rewrite Hedge in Hex.
      destruct (site_status row); try discriminate.
      apply Z.ltb_lt in Hex. lia.
  - intros other kept Hkept. apply map_lookup_filter_Some in Hkept.
    apply Hkept.
Qed.

Lemma checkForExpiredArchives_agrees_with_days_witness :
  checkForExpiredArchives 30 (31 * day_ms)
    {[ "site" := {| site_status := site_archived; archived_at := Some 0 |} ]}
  !! "site" = None
  /\ getDaysUntilDeletion 30 (31 * day_ms)
       {| site_status := site_archived; archived_at := Some 0 |} = Some 0.
Proof.
  assert (checkForExpiredArchives 30 (31 * day_ms)
            {[ "site" := {| site_status := site_archived;
                            archived_at := Some 0 |} ]}
          !! "site" = None) as Hgone by (vm_compute; reflexivity).
  split; [exact Hgone |].
  apply (checkForExpiredArchives_agrees_with_days 30 (31 * day_ms)
           {[ "site" := {| site_status := site_archived;
                           archived_at := Some 0 |} ]} "site").
  - vm_compute. reflexivity.
  - exact Hgone.
Defined.

(** X28.  Unarchiving does not clear the archive date of the row: the
    update leaves out a field that is undefined.  The row is active with
    its old archive date, shows no days until deletion, and is never
    deleted by the hourly check; archiving it again sets a new date, and
    with it the full retention period. *)
Theorem unarchiveWebsite_keeps_archive_date
    (ARCHIVE_RETENTION_DAYS archivedAt now : Z) (id : string)
    (table : gmap string archive_row) (row : archive_row) :
  table !! id = Some row ->
  let archived := archiveWebsite id archivedAt table in
  let restored := unarchiveWebsite id archived in
  archived !! id
  = Some {| site_status := site_archived; archived_at := Some archivedAt |}
  /\ restored !! id
     = Some {| site_status := site_active; archived_at := Some archivedAt |}
  /\ getDaysUntilDeletion ARCHIVE_RETENTION_DAYS now
       {| site_status := site_active; archived_at := Some archivedAt |}
     = None
  /\ checkForExpiredArchives ARCHIVE_RETENTION_DAYS now restored !! id
     = restored !! id
  /\ archiveWebsite id now restored !! id
     = Some {| site_status := site_archived; archived_at := Some now |}
  /\ (forall other, other <> id -> restored !! other = table !! other).
Proof.
  intros Hrow. cbv zeta.
  unfold unarchiveWebsite, archiveWebsite, updateWebsite.
  rewrite !lookup_alter_eq, Hrow. cbn.
  split; [reflexivity |]. split; [reflexivity |]. split; [reflexivity |].
  split; [| split; [reflexivity |]].
  - unfold checkForExpiredArchives. apply map_lookup_filter_Some.
    rewrite !lookup_alter_eq, Hrow. cbn. split; reflexivity.
  - intros other Hother. rewrite !lookup_alter_ne by congruence.
    reflexivity.
Qed.

Lemma unarchiveWebsite_keeps_archive_date_witness :
  unarchiveWebsite "site"
    (archiveWebsite "site" 1000
       {[ "site" := {| site_status := site_paused; archived_at := None |} ]})
  !! "site"
  = Some {| site_status := site_active; archived_at := Some 1000 |}.
Proof.
  apply (unarchiveWebsite_keeps_archive_date 30 1000 2000 "site"
           {[ "site" := {| site_status := site_paused;
                           archived_at := None |} ]}
           {| site_status := site_paused; archived_at := None |}).
  vm_compute. reflexivity.
Defined.

(** ** The discovery from sitemaps *)

Lemma sitemap_loop_returns (parse : string -> option (list string))
    (pages : string -> list string) (configs : list SitemapUrlConfig)
    (found : list string) :
  (forall c, In c configs -> sitemap_enabled c = true ->
             parse (sitemap_url c) = Some (pages (sitemap_url c))) ->
  sitemap_loop parse configs found
  = Some (found
          ++ flat_map pages
               (List.map sitemap_url (List.filter sitemap_enabled configs))).
Proof.
  revert found. induction configs as [| c configs IH]; intros found Hparse;
    simpl.
  - now rewrite app_nil_r.
  - assert (forall c', In c' configs -> sitemap_enabled c' = true ->
              parse (sitemap_url c') = Some (pages (sitemap_url c')))
      as Hrest by (intros c' Hin; apply Hparse; now right).
    destruct (sitemap_enabled c) eqn:Henabled.
    + rewrite (Hparse c (or_introl eq_refl) Henabled), (IH _ Hrest).
      simpl. now rewrite <- app_assoc.
    + apply IH, Hrest.
Qed.

Lemma parseSitemap_S (fuel : nat)
    (fetch : string -> option sitemap_document) (settings : SitemapSettings)
    (sitemapUrl : string) :
  parseSitemap (S fuel) fetch settings sitemapUrl
  = match fetch sitemapUrl with
    | None => Some []
    | Some content =>
        if is_sitemapindex content then
          if followSitemapIndex settings then
            child_sitemaps (parseSitemap fuel fetch settings)
              (locs content) []
          else Some []
        else Some (locs content)
    end.
Proof. reflexivity. Qed.

Lemma parseSitemap_flat (fuel : nat)
    (fetch : string -> option sitemap_document) (settings : SitemapSettings)
    (sitemapUrl : string) :
  followSitemapIndex settings = false ->
  parseSitemap (S fuel) fetch settings sitemapUrl
  = Some (pages_of fetch sitemapUrl).
Proof.
  intros Hfollow. rewrite parseSitemap_S. unfold pages_of.
  destruct (fetch sitemapUrl) as [content |]; [| reflexivity].
  rewrite Hfollow. destruct (is_sitemapindex content); reflexivity.
Qed.

(** X29.  The discovery from sitemaps, where sitemap indexes are not
    followed: the result is the entries of the sitemaps read, in order and
    without repetitions; a sitemap that is disabled is not requested, and
    one whose request fails or that is an index adds nothing.  Without
    sitemap settings the result is empty. *)
Theorem discoverFromSitemap_without_indexes (fuel : nat)
    (fetch : string -> option sitemap_document) (resolve : string -> string)
    (settings : SitemapSettings) :
  followSitemapIndex settings = false ->
  discoverFromSitemap (S fuel) fetch resolve (Some settings)
  = Some (RunComparison.nub []
            (flat_map (pages_of fetch) (sitemaps_read resolve settings)))
  /\ (forall found,
        discoverFromSitemap (S fuel) fetch resolve (Some settings)
        = Some found ->
        NoDup found
        /\ forall page,
             page ∈ found
             <-> exists sitemapUrl,
                   In sitemapUrl (sitemaps_read resolve settings)
                   /\ In page (pages_of fetch sitemapUrl))
  /\ discoverFromSitemap fuel fetch resolve None = Some [].
Proof.
  intros Hfollow.
  assert (discoverFromSitemap (S fuel) fetch resolve (Some settings)
          = Some (RunComparison.nub []
                    (flat_map (pages_of fetch)
                       (sitemaps_read resolve settings)))) as Hrun.
  { unfold discoverFromSitemap, sitemaps_read.
    change (default no_sitemap_settings (Some settings)) with settings.
    cbv zeta. destruct (urls settings) as [| c configs] eqn:Hurls.
    - cbn [length Nat.eqb andb]. destruct (autoDetect settings).
      + rewrite (sitemap_loop_returns _ (pages_of fetch)).
        * reflexivity.
        * intros c _ _. apply parseSitemap_flat, Hfollow.
      + reflexivity.
    - cbn [length Nat.eqb andb].
      rewrite (sitemap_loop_returns _ (pages_of fetch)).
      + reflexivity.
      + intros c' _ _. apply parseSitemap_flat, Hfollow. }
  split; [exact Hrun |]. split; [| reflexivity].
  intros found Hfound. rewrite Hrun in Hfound. injection Hfound as <-.
  split; [apply NoDup_nub |].
  intros page. rewrite elem_of_nub. split.
  - intros [Hin _]. apply list_elem_of_In, in_flat_map in Hin. exact Hin.
  - intros Hin. split; [apply list_elem_of_In, in_flat_map, Hin |].
    intros Hnil. inversion Hnil.
Qed.

Lemma discoverFromSitemap_without_indexes_witness :
  discoverFromSitemap 1
    (fun u => if String.eqb u "https://example.com/sitemap.xml"
              then Some {| is_sitemapindex := false;
                           locs := ["https://example.com/a";
                                    "https://example.com/a"] |}
              else None)
    (fun path => "https://example.com" +:+ path)
    (Some {| urls := []; autoDetect := true; followSitemapIndex := false |})
  = Some ["https://example.com/a"].
Proof.
  apply (discoverFromSitemap_without_indexes 0
           (fun u => if String.eqb u "https://example.com/sitemap.xml"
                     then Some {| is_sitemapindex := false;
                                  locs := ["https://example.com/a";
                                           "https://example.com/a"] |}
                     else None)
           (fun path => "https://example.com" +:+ path)
           {| urls := []; autoDetect := true; followSitemapIndex := false |}).
  reflexivity.
Defined.

Lemma child_sitemaps_None (parse : string -> option (list string))
    (children found : list string) (child : string) :
  In child children -> parse child = None ->
  child_sitemaps parse children found = None.
Proof.
  revert found. induction children as [| c children IH]; intros found;
    [contradiction |].
  intros [-> | Hin] Hchild; simpl.
  - now rewrite Hchild.
  - destruct (parse c); [apply IH; assumption | reflexivity].
Qed.

Lemma child_sitemaps_ext (parse parse' : string -> option (list string))
    (children found out : list string) :
  (forall child pages, parse child = Some pages ->
                       parse' child = Some pages) ->
  child_sitemaps parse children found = Some out ->
  child_sitemaps parse' children found = Some out.
Proof.
  intros Hparse. revert found.
  induction children as [| c children IH]; intros found; simpl;
    [auto |].
  destruct (parse c) as [pages |] eqn:Hc; [| discriminate].
  rewrite (Hparse c pages Hc). apply IH.
Qed.

Lemma parseSitemap_more_fuel (fuel : nat)
    (fetch : string -> option sitemap_document) (settings : SitemapSettings)
    (sitemapUrl : string) (pages : list string) :
  parseSitemap fuel fetch settings sitemapUrl = Some pages ->
  parseSitemap (S fuel) fetch settings sitemapUrl = Some pages.
Proof.
  revert sitemapUrl pages.
  induction fuel as [| fuel IH]; intros sitemapUrl pages; [discriminate |].
  intros Hrun. rewrite parseSitemap_S in Hrun. rewrite parseSitemap_S.
  destruct (fetch sitemapUrl) as [content |]; [| exact Hrun].
  destruct (is_sitemapindex content); [| exact Hrun].
  destruct (followSitemapIndex settings); [| exact Hrun].
  eapply child_sitemaps_ext; [| exact Hrun]. exact IH.
Qed.

Lemma child_sitemaps_flat (parse : string -> option (list string))
    (pages : string -> list string) (children found : list string) :
  (forall child, In child children -> parse child = Some (pages child)) ->
  child_sitemaps parse children found
  = Some (found ++ flat_map pages children).
Proof.
  revert found. induction children as [| c children IH]; intros found Hparse;
    simpl.
  - now rewrite app_nil_r.
  - rewrite (Hparse c (or_introl eq_refl)), IH
      by (intros child Hin; apply Hparse; now right).
    now rewrite <- app_assoc.
Qed.

(** X30.  The nesting of sitemap indexes.  A result does not depend on the
    bound of the model: once the function returns, it returns the same with
    any larger bound.  An index whose entries are sitemaps, not indexes,
    yields their entries in order.  An index that is among its own entries
    is followed without end: the function returns for no bound. *)
Theorem parseSitemap_follows_indexes
    (fetch : string -> option sitemap_document) (settings : SitemapSettings)
    (sitemapUrl : string) (content : sitemap_document) :
  fetch sitemapUrl = Some content ->
  is_sitemapindex content = true ->
  followSitemapIndex settings = true ->
  (forall fuel more pages,
     parseSitemap fuel fetch settings sitemapUrl = Some pages ->
     parseSitemap (fuel + more) fetch settings sitemapUrl = Some pages)
  /\ ((forall child document,
         In child (locs content) -> fetch child = Some document ->
         is_sitemapindex document = false) ->
      forall fuel,
        parseSitemap (S (S fuel)) fetch settings sitemapUrl
        = Some (flat_map (pages_of fetch) (locs content)))
  /\ (In sitemapUrl (locs content) ->
      forall fuel, parseSitemap fuel fetch settings sitemapUrl = None).
Proof.
  intros Hfetch Hindex Hfollow. split; [| split].
  - intros fuel more pages Hrun.
    induction more as [| more IH].
    + now rewrite Nat.add_0_r.
    + rewrite Nat.add_succ_r. apply parseSitemap_more_fuel, IH.
  - intros Hflat fuel. rewrite parseSitemap_S, Hfetch, Hindex, Hfollow.
    rewrite (child_sitemaps_flat _ (pages_of fetch)); [reflexivity |].
    intros child Hin. rewrite parseSitemap_S. unfold pages_of.
    destruct (fetch child) as [document |] eqn:Hchild; [| reflexivity].
    rewrite (Hflat child document Hin Hchild). reflexivity.
  - intros Hself fuel. induction fuel as [| fuel IH]; [reflexivity |].
    rewrite parseSitemap_S, Hfetch, Hindex, Hfollow.
    apply (child_sitemaps_None _ _ _ sitemapUrl Hself IH).
Qed.

Lemma parseSitemap_follows_indexes_witness :
  parseSitemap 1000
    (fun _ => Some {| is_sitemapindex := true;
                      locs := ["https://example.com/sitemap.xml"] |})
    {| urls := []; autoDetect := true; followSitemapIndex := true |}
    "https://example.com/sitemap.xml"
  = None.
Proof.
  apply (parseSitemap_follows_indexes
           (fun _ => Some {| is_sitemapindex := true;
                             locs := ["https://example.com/sitemap.xml"] |})
           {| urls := []; autoDetect := true; followSitemapIndex := true |}
           "https://example.com/sitemap.xml"
           {| is_sitemapindex := true;
              locs := ["https://example.com/sitemap.xml"] |});
    try reflexivity.
  left. reflexivity.
Defined.
